(** * kubexit: a shallow embedding of the supervision core

    The Go packages [supervisor], [tombstone], [kubernetes] and the [main]
    engine of kubexit, written as Rocq functions with explicit state passing.
    Everything the operating system, the clock or a library decides (whether a
    signal can be delivered, how many bytes reach the disk, how the child
    exits, what the YAML codec produces) is an explicit argument of the
    function that asks for it. *)

From Stdlib Require Import ZArith Lia Ascii.
From stdpp Require Import base strings pretty gmap list.

Local Open Scope Z_scope.

(** ** Go values shared by the packages *)

(** [syscall.Signal] is an [int]; the numbers are those of linux/amd64. *)
Definition Signal := Z.
Definition SIGKILL : Signal := 9.
Definition SIGTERM : Signal := 15.
Definition SIGCHLD : Signal := 17.
Definition SIGURG : Signal := 23.

(** [os.ProcessState]: what [Process.Wait] learned about the child. *)
Inductive ProcessState :=
| Exited (status : Z)
| Signaled (sig : Signal).

(** [os.ProcessState.ExitCode]: -1 when the process was ended by a signal. *)
Definition ProcessState_ExitCode (ps : ProcessState) : Z :=
  match ps with
  | Exited status => status
  | Signaled _ => -1
  end.

Definition Success (ps : ProcessState) : bool :=
  match ps with
  | Exited status => status =? 0
  | Signaled _ => false
  end.

Definition ProcessState_String (ps : ProcessState) : string :=
  match ps with
  | Exited status => "exit status " +:+ pretty status
  | Signaled sig => "signal: " +:+ pretty sig
  end.

(** Go [error] values, by the constructor that built them. *)
Inductive error :=
| ExitError (ps : ProcessState)         (* *exec.ExitError *)
| errors_New (msg : string)             (* errors.New, and errors of the OS *)
| fmt_Errorf (msg : string) (arg : error)  (* fmt.Errorf("msg: %v", arg) *)
| errors_Wrap (cause : error) (msg : string)  (* errors.Wrap(cause, msg) *)
| errors_WithStack (cause : error).     (* errors.WithStack(cause) *)

Fixpoint Error (e : error) : string :=
  match e with
  | ExitError ps => ProcessState_String ps
  | errors_New msg => msg
  | fmt_Errorf msg arg => msg +:+ ": " +:+ Error arg
  | errors_Wrap cause msg => msg +:+ ": " +:+ Error cause
  | errors_WithStack cause => Error cause
  end.

(** ** Package event: the messages a trace collects

    [AddEvent] receives a formatted string; the embedding keeps the format
    and its arguments apart. *)
Module event.

Inductive Message :=
| MsgStart                                (* "Start: %s" *)
| MsgReceivedSignal (sig : Signal)        (* "Received signal: %v" *)
| MsgPropagationFailed (e : error)        (* "Signal propegation failed: %v" *)
| MsgStopPropagation                      (* "Stop signal propegation %s" *)
| MsgTerminating                          (* "Terminating child process" *)
| MsgFailedAfterTimeout (e : error)       (* "Failed after timeout: %v" *)
| MsgCreatingTombstone (path : string)    (* "Creating tombstone: %s" *)
| MsgUpdatingTombstone (path : string)    (* "Updating tombstone: %s" *)
| MsgIgnoreTombstone (name : string)      (* "Ignore tombstone %s" *)
| MsgReadingTombstone (name : string)     (* "Reading tombstone: %s" *)
| MsgNewDeath (name : string)             (* "New death: %s" *)
| MsgHandlerError (e : error)             (* "Handler error: %s" *)
| MsgWatchDone (graveyard : string)       (* "Tombstone Watch(%s): done" *)
| MsgWatchError (graveyard : string) (e : error)
                                          (* "Tombstone Watch(%s): error: %v" *)
| MsgWatchingPod (podName : string)       (* "Watching pod %s updates" *)
| MsgPodWatchRecoverable (podName : string)
                                (* "Pod Watch(%s): recoverable error: %+v" *)
| MsgPodDeleted (podName : string)        (* "Pod Watch(%s): pod deleted" *)
| MsgUnexpectedObject           (* "Error: unexpected non-pod object type" *)
| MsgAllBirthDepsReady (deps : list string). (* "All birth deps ready: %v" *)

(** A trace is its list of events, oldest first. *)
Definition Trace := list Message.

Definition AddEvent (m : Message) (t : Trace) : Trace := t ++ [m].

End event.

(** ** Package supervisor *)
Module supervisor.
Import event.

(** Who asked for a signal to be sent to the child (ghost information). *)
Inductive Origin := Forwarded | Graceful | Forced.

Global Instance Origin_eq_dec : EqDecision Origin.
Proof. solve_decision. Defined.

(** One call of [cmd.Process.Signal]: the signal and whether the OS
    delivered it. *)
Record Sent := { origin : Origin; sig : Signal; delivered : bool }.

(** [time.Timer] as created by [time.AfterFunc]. *)
Inductive Timer :=
| Armed (timeout : Z)
| Fired
| Stopped.

(** [chan os.Signal]: nil until [Start] makes it. *)
Inductive Chan := ChanOpen | ChanClosed.

Record Supervisor := {
  context : Trace;                      (* the trace carried by s.context *)
  cmd_Process : option Z;               (* s.cmd.Process, by its pid *)
  cmd_ProcessState : option ProcessState;
  cmd_finished : bool;                  (* exec.Cmd's "Wait was called" *)
  sigCh : option Chan;
  shutdownTimer : option Timer;
  sent : list Sent                      (* ghost: calls of Process.Signal *)
}.

Definition New (ctx : Trace) : Supervisor :=
  {| context := ctx; cmd_Process := None; cmd_ProcessState := None;
     cmd_finished := false; sigCh := None; shutdownTimer := None;
     sent := [] |}.

Definition trace (m : Message) (s : Supervisor) : Supervisor :=
  {| context := AddEvent m (context s); cmd_Process := cmd_Process s;
     cmd_ProcessState := cmd_ProcessState s; cmd_finished := cmd_finished s;
     sigCh := sigCh s; shutdownTimer := shutdownTimer s; sent := sent s |}.

Definition set_timer (t : option Timer) (s : Supervisor) : Supervisor :=
  {| context := context s; cmd_Process := cmd_Process s;
     cmd_ProcessState := cmd_ProcessState s; cmd_finished := cmd_finished s;
     sigCh := sigCh s; shutdownTimer := t; sent := sent s |}.

Definition set_sigCh (c : option Chan) (s : Supervisor) : Supervisor :=
  {| context := context s; cmd_Process := cmd_Process s;
     cmd_ProcessState := cmd_ProcessState s; cmd_finished := cmd_finished s;
     sigCh := c; shutdownTimer := shutdownTimer s; sent := sent s |}.

(** [s.cmd.Process.Signal(sig)]: the OS answers [res], [None] for success. *)
Definition Process_Signal (o : Origin) (sg : Signal) (res : option error)
    (s : Supervisor) : option error * Supervisor :=
  (res,
   {| context := context s; cmd_Process := cmd_Process s;
      cmd_ProcessState := cmd_ProcessState s; cmd_finished := cmd_finished s;
      sigCh := sigCh s; shutdownTimer := shutdownTimer s;
      sent := sent s ++ [{| origin := o; sig := sg;
                            delivered := bool_decide (res = None) |}] |}).

(** [exec.Cmd.Start]: refuses a second start, else the OS answers with a
    pid or an error. *)
Definition cmd_Start (res : Z + error) (s : Supervisor)
    : option error * Supervisor :=
  match cmd_Process s with
  | Some _ => (Some (errors_New "exec: already started"), s)
  | None =>
      match res with
      | inr e => (Some e, s)
      | inl pid =>
          (None,
           {| context := context s; cmd_Process := Some pid;
              cmd_ProcessState := cmd_ProcessState s;
              cmd_finished := cmd_finished s; sigCh := sigCh s;
              shutdownTimer := shutdownTimer s; sent := sent s |})
      end
  end.

Definition Start (res : Z + error) (s : Supervisor)
    : option error * Supervisor :=
  let s := trace MsgStart s in
  match cmd_Start res s with
  | (Some err, s) =>
      (Some (errors_WithStack
               (fmt_Errorf "failed to start child process" err)), s)
  | (None, s) =>
      (* s.sigCh = make(chan os.Signal, 1); signal.Notify(s.sigCh);
         the forwarding goroutine is [forward] below *)
      (None, set_sigCh (Some ChanOpen) s)
  end.

(** One turn of the forwarding goroutine of [Start] that took [sg] from
    [s.sigCh]; [res] is what the OS answers if the signal is passed on. *)
Definition forward1 (sg : Signal) (res : option error) (s : Supervisor)
    : Supervisor :=
  let s := if bool_decide (sg <> SIGURG)
           then trace (MsgReceivedSignal sg) s else s in
  if bool_decide (sg = SIGCHLD) then s
  else
    match Process_Signal Forwarded sg res s with
    | (Some err, s) => trace (MsgPropagationFailed err) s
    | (None, s) => s
    end.

(** What one turn of the [select] in that goroutine takes. *)
Inductive Turn :=
| ContextDone                                  (* <-s.context.Done() *)
| Received (sg : Signal) (res : option error)  (* sig, true := <-s.sigCh *)
| Closed.                                      (* _, false := <-s.sigCh *)

(** The goroutine: it forwards until the context is done or the channel is
    closed. *)
Fixpoint forward (turns : list Turn) (s : Supervisor) : Supervisor :=
  match turns with
  | [] => s
  | ContextDone :: _ => trace MsgStopPropagation s
  | Received sg res :: turns => forward turns (forward1 sg res s)
  | Closed :: _ => s
  end.

(** What [Process.Wait] reports. *)
Inductive OsWait :=
| WaitState (ps : ProcessState)
| WaitFailed (e : error).

(** [exec.Cmd.Wait] (Go 1.16). *)
Definition cmd_Wait (os : OsWait) (s : Supervisor)
    : option error * Supervisor :=
  match cmd_Process s with
  | None => (Some (errors_New "exec: not started"), s)
  | Some _ =>
      if cmd_finished s
      then (Some (errors_New "exec: Wait was already called"), s)
      else
        let state := match os with
                     | WaitState ps => Some ps
                     | WaitFailed _ => None
                     end in
        let s := {| context := context s; cmd_Process := cmd_Process s;
                    cmd_ProcessState := state; cmd_finished := true;
                    sigCh := sigCh s; shutdownTimer := shutdownTimer s;
                    sent := sent s |} in
        match os with
        | WaitFailed e => (Some e, s)
        | WaitState ps =>
            if Success ps then (None, s) else (Some (ExitError ps), s)
        end
  end.

Definition Timer_Stop (t : Timer) : Timer :=
  match t with
  | Armed _ => Stopped
  | t => t
  end.

(** [Wait]: the deferred function resets signal handling, closes the
    channel and stops the timer.  Closing a closed channel panics, which is
    the result [None]. *)
Definition Wait (os : OsWait) (s : Supervisor)
    : option (option error * Supervisor) :=
  let '(err, s) := cmd_Wait os s in
  let stopTimer s := set_timer (Timer_Stop <$> shutdownTimer s) s in
  match sigCh s with
  | Some ChanClosed => None
  | Some ChanOpen => Some (err, stopTimer (set_sigCh (Some ChanClosed) s))
  | None => Some (err, stopTimer s)
  end.

Definition isRunning (s : Supervisor) : bool :=
  bool_decide (cmd_Process s <> None)
  && bool_decide (cmd_ProcessState s = None).

Definition ShutdownNow (res : option error) (s : Supervisor)
    : option error * Supervisor :=
  if negb (isRunning s) then (None, s)
  else
    match Process_Signal Forced SIGKILL res s with
    | (Some err, s) =>
        (Some (errors_WithStack
                 (fmt_Errorf "failed to kill child process" err)), s)
    | (None, s) => (None, s)
    end.

Definition ShutdownWithTimeout (timeout : Z) (res : option error)
    (s : Supervisor) : option error * Supervisor :=
  if negb (isRunning s) then (None, s)
  else
    match shutdownTimer s with
    | Some _ => (Some (errors_New "shutdown already started"), s)
    | None =>
        let s := trace MsgTerminating s in
        match Process_Signal Graceful SIGTERM res s with
        | (Some err, s) =>
            (Some (errors_WithStack
                     (fmt_Errorf "failed to terminate child process" err)), s)
        | (None, s) => (None, set_timer (Some (Armed timeout)) s)
        end
    end.

(** The function given to [time.AfterFunc]: runs when an armed timer
    expires. *)
Definition timerExpires (res : option error) (s : Supervisor) : Supervisor :=
  match shutdownTimer s with
  | Some (Armed _) =>
      match ShutdownNow res (set_timer (Some Fired) s) with
      | (Some err, s) => trace (MsgFailedAfterTimeout err) s
      | (None, s) => s
      end
  | _ => s
  end.

End supervisor.

(** ** Package tombstone *)
Module tombstone.
Import event.

(** [time.Time], as the instant it denotes. *)
Definition Time := Z.

Record Tombstone := {
  Context : Trace;            (* the trace carried by t.Context *)
  Born : option Time;
  Died : option Time;
  ExitCode : option Z;
  Graveyard : string;
  Name : string
}.

(** The library functions the package calls: [sigs.k8s.io/yaml] for the
    file format and [path/filepath] for the file name. *)
Class Lib := {
  yaml_Marshal : Tombstone -> string + error;
  yaml_Unmarshal : string -> Tombstone -> Tombstone + error;
  filepath_Join : string -> string -> string;
  filepath_Dir : string -> string;
  filepath_Base : string -> string
}.

(** [Unmarshal] into [t0] sets the fields present in the document and
    leaves the others as they are; [Context], [Graveyard] and [Name] are
    tagged [json:"-"]. *)
Definition overlay (doc t0 : Tombstone) : Tombstone :=
  {| Context := Context t0;
     Born := match Born doc with Some b => Some b | None => Born t0 end;
     Died := match Died doc with Some d => Some d | None => Died t0 end;
     ExitCode := match ExitCode doc with
                 | Some c => Some c
                 | None => ExitCode t0
                 end;
     Graveyard := Graveyard t0;
     Name := Name t0 |}.

(** What the codec promises: a marshalled record unmarshals to itself. *)
Class LibLaws `{Lib} : Prop := {
  unmarshal_marshal : forall t doc t0,
    yaml_Marshal t = inl doc -> yaml_Unmarshal doc t0 = inl (overlay t t0)
}.

(** The files of the machine, by path. *)
Abbreviation FS := (gmap string string).

(** What the OS does during one [Write]: the results of [os.MkdirAll] and
    [os.Create], and how many bytes [file.Write] puts in the file. *)
Record IO := {
  mkdirAll : option error;
  create : option error;
  written : nat
}.

Section WithLib.
Context `{Lib}.

Definition Path (t : Tombstone) : string :=
  filepath_Join (Graveyard t) (Name t).

Definition Write (t : Tombstone) (io : IO) (fs : FS) : option error * FS :=
  match mkdirAll io with
  | Some err => (Some err, fs)
  | None =>
      match create io with
      | Some err =>
          (Some (fmt_Errorf "failed to create tombstone file" err), fs)
      | None =>
          (* os.Create truncates *)
          let fs := <[Path t := ""]> fs in
          match yaml_Marshal t with
          | inr err =>
              (Some (fmt_Errorf "failed to marshal tombstone yaml" err), fs)
          | inl pretty =>
              (* _, _ = file.Write(pretty) *)
              (None, <[Path t := String.substring 0 (written io) pretty]> fs)
          end
      end
  end.

Definition RecordBirth (now : Time) (io : IO) (t : Tombstone) (fs : FS)
    : option error * Tombstone * FS :=
  let born := now in
  let t := {| Context := Context t; Born := Some born; Died := Died t;
              ExitCode := ExitCode t; Graveyard := Graveyard t;
              Name := Name t |} in
  let t := {| Context := AddEvent (MsgCreatingTombstone (Path t)) (Context t);
              Born := Born t; Died := Died t; ExitCode := ExitCode t;
              Graveyard := Graveyard t; Name := Name t |} in
  match Write t io fs with
  | (Some err, fs) =>
      (Some (errors_WithStack (fmt_Errorf "failed to create tombstone" err)),
       t, fs)
  | (None, fs) => (None, t, fs)
  end.

Definition RecordDeath (exitCode : Z) (now : Time) (io : IO)
    (t : Tombstone) (fs : FS) : option error * Tombstone * FS :=
  let code := exitCode in
  let died := now in
  let t := {| Context := Context t; Born := Born t; Died := Some died;
              ExitCode := Some code; Graveyard := Graveyard t;
              Name := Name t |} in
  let t := {| Context := AddEvent (MsgUpdatingTombstone (Path t)) (Context t);
              Born := Born t; Died := Died t; ExitCode := ExitCode t;
              Graveyard := Graveyard t; Name := Name t |} in
  match Write t io fs with
  | (Some err, fs) =>
      (Some (errors_WithStack (fmt_Errorf "failed to update tombstone" err)),
       t, fs)
  | (None, fs) => (None, t, fs)
  end.

(** [ioutil.ReadFile]: fails when the file is absent, or when the OS
    refuses ([rd]). *)
Definition ReadFile (rd : option error) (path : string) (fs : FS)
    : string + error :=
  match rd with
  | Some err => inr err
  | None =>
      match fs !! path with
      | Some bytes => inl bytes
      | None => inr (errors_New "no such file or directory")
      end
  end.

Definition Read (rd : option error) (graveyard name : string) (fs : FS)
    : Tombstone + error :=
  let t := {| Context := []; Born := None; Died := None; ExitCode := None;
              Graveyard := graveyard; Name := name |} in
  match ReadFile rd (Path t) fs with
  | inr err =>
      inr (errors_WithStack (fmt_Errorf "failed to read tombstone file" err))
  | inl bytes =>
      match yaml_Unmarshal bytes t with
      | inr err =>
          inr (errors_WithStack
                 (fmt_Errorf "failed to unmarshal tombstone yaml" err))
      | inl t => inl t
      end
  end.

End WithLib.

(** [fsnotify.Event] and its [Op] bits. *)
Record fsnotify_Event := { ev_Name : string; Op : Z }.
Definition fsnotify_Create : Z := 1.
Definition fsnotify_Write : Z := 2.
Definition fsnotify_Remove : Z := 4.
Definition fsnotify_Rename : Z := 8.
Definition fsnotify_Chmod : Z := 16.

(** What one turn of the [select] in [Watch]'s goroutine takes from the
    watcher's channels. *)
Inductive Selected (E : Type) :=
| SelEvent (e : E)
| SelEventsClosed
| SelError (err : error)
| SelErrorsClosed.
Global Arguments SelEvent {E} e.
Global Arguments SelEventsClosed {E}.
Global Arguments SelError {E} err.
Global Arguments SelErrorsClosed {E}.

(** [Watch]'s goroutine over a state [St] that holds the context and the
    trace.  When the context is done and a channel is ready as well, Go's
    [select] may take either: [preferDone] says which.  The result tells
    whether the goroutine goes on. *)
Section Watch.
Context {St E : Type}.
Variable ctxDone : St -> bool.
Variable addEvent : Message -> St -> St.
Variable graveyard : string.
Variable eventHandler : E -> St -> option error * St.

Definition watchTurn (preferDone : bool) (sel : Selected E) (st : St)
    : bool * St :=
  if ctxDone st && preferDone
  then (false, addEvent (MsgWatchDone graveyard) st)
  else
    match sel with
    | SelEvent e =>
        match eventHandler e st with
        | (Some err, st) => (true, addEvent (MsgHandlerError err) st)
        | (None, st) => (true, st)
        end
    | SelEventsClosed => (false, st)
    | SelError err2 => (true, addEvent (MsgWatchError graveyard err2) st)
    | SelErrorsClosed => (false, st)
    end.

Fixpoint watchLoop (turns : list (bool * Selected E)) (st : St) : St :=
  match turns with
  | [] => st
  | (preferDone, sel) :: turns =>
      match watchTurn preferDone sel st with
      | (true, st) => watchLoop turns st
      | (false, st) => st
      end
  end.
End Watch.

(** [Watch] itself: the two ways its set-up fails. *)
Definition Watch (newWatcher add : option error) : option error :=
  match newWatcher with
  | Some err =>
      Some (errors_WithStack (fmt_Errorf "failed to create watcher" err))
  | None =>
      match add with
      | Some err =>
          Some (errors_WithStack (fmt_Errorf "failed to add watcher" err))
      | None => None
      end
  end.

End tombstone.

(** ** Package kubernetes *)
Module kubernetes.
Import event.

(** [watch.EventType]. *)
Inductive EventType := Added | Modified | Deleted | Bookmark | ErrorEvent.

Global Instance EventType_eq_dec : EqDecision EventType.
Proof. solve_decision. Defined.

(** [corev1.ContainerStatus], the two fields read. *)
Record ContainerStatus := { cs_Name : string; Ready : bool }.

(** [runtime.Object]: a pod with its container statuses, or something
    else. *)
Inductive Object :=
| Pod (ContainerStatuses : list ContainerStatus)
| NotPod.

Record watch_Event := { Type_ : EventType; Object_ : Object }.

(** The condition function [WatchPod] gives to [UntilWithSync]: the result
    says whether the watch is over. *)
Definition podCondition {St : Type} (addEvent : Message -> St -> St)
    (podName : string) (eventHandler : watch_Event -> St -> St)
    (e : watch_Event) (st : St) : bool * St :=
  if bool_decide (Type_ e = ErrorEvent)
  then (false, addEvent (MsgPodWatchRecoverable podName) st)
  else
    let st := eventHandler e st in
    if bool_decide (Type_ e = Deleted)
    then (true, addEvent (MsgPodDeleted podName) st)
    else (false, st).

(** [WatchPod]'s set-up. *)
Definition WatchPod (inClusterConfig newForConfig : option error)
    : option error :=
  match inClusterConfig with
  | Some err =>
      Some (errors_WithStack
              (fmt_Errorf "failed to configure kubernetes client" err))
  | None =>
      match newForConfig with
      | Some err =>
          Some (errors_WithStack
                  (fmt_Errorf "failed to create kubernetes client" err))
      | None => None
      end
  end.

End kubernetes.

(** ** Package main: the engine *)
Module main.
Import event supervisor tombstone kubernetes.

Record config := {
  config_Name : string;
  config_Graveyard : string;
  config_BirthDeps : list string;
  config_DeathDeps : list string;
  config_BirthTimeout : Z;
  config_GracePeriod : Z;
  config_PodName : string;
  config_Namespace : string;
  config_VerboseLevel : Z;
  config_InstantLogging : bool
}.

(** What the logger was asked to emit. *)
Inductive LogRecord :=
| LogErrorf (msg : string)
    (* logger.Errorf(msg) *)
| LogError (err : option error) (withTraces : bool)
    (* logger[.WithField("event-traces", ..)].WithError(err).Error() *)
| LogInfo (msg : string).
    (* logger.WithField("event-traces", ..).Info(msg) *)

(** Ghost history: the calls the main goroutine made, oldest first.  A
    record call keeps the tombstone it handed to [Write]. *)
Inductive Call :=
| CallWatch
| CallWaitForBirthDeps
| CallStart
| CallRecordBirth (t : Tombstone)
| CallShutdownNow
| CallWait
| CallRecordDeath (code : Z) (t : Tombstone).

Record World := {
  fs : FS;                        (* the disk *)
  ts : Tombstone;
  child : Supervisor;
  deathWatcher : Trace;           (* trace "death graveyard watcher" *)
  birthWatcher : Trace;           (* trace "birth dependencies watcher" *)
  graveyardWatcherStopped : bool; (* stopGraveyardWatcher() was called *)
  logger : list LogRecord;
  calls : list Call
}.

Definition set_fs (x : FS) (w : World) : World :=
  {| fs := x; ts := ts w; child := child w; deathWatcher := deathWatcher w;
     birthWatcher := birthWatcher w;
     graveyardWatcherStopped := graveyardWatcherStopped w;
     logger := logger w; calls := calls w |}.

Definition set_ts (x : Tombstone) (w : World) : World :=
  {| fs := fs w; ts := x; child := child w; deathWatcher := deathWatcher w;
     birthWatcher := birthWatcher w;
     graveyardWatcherStopped := graveyardWatcherStopped w;
     logger := logger w; calls := calls w |}.

Definition set_child (x : Supervisor) (w : World) : World :=
  {| fs := fs w; ts := ts w; child := x; deathWatcher := deathWatcher w;
     birthWatcher := birthWatcher w;
     graveyardWatcherStopped := graveyardWatcherStopped w;
     logger := logger w; calls := calls w |}.

Definition set_birthWatcher (x : Trace) (w : World) : World :=
  {| fs := fs w; ts := ts w; child := child w; deathWatcher := deathWatcher w;
     birthWatcher := x;
     graveyardWatcherStopped := graveyardWatcherStopped w;
     logger := logger w; calls := calls w |}.

Definition watchEvent (m : Message) (w : World) : World :=
  {| fs := fs w; ts := ts w; child := child w;
     deathWatcher := AddEvent m (deathWatcher w);
     birthWatcher := birthWatcher w;
     graveyardWatcherStopped := graveyardWatcherStopped w;
     logger := logger w; calls := calls w |}.

Definition stopGraveyardWatcher (w : World) : World :=
  {| fs := fs w; ts := ts w; child := child w; deathWatcher := deathWatcher w;
     birthWatcher := birthWatcher w; graveyardWatcherStopped := true;
     logger := logger w; calls := calls w |}.

Definition log (r : LogRecord) (w : World) : World :=
  {| fs := fs w; ts := ts w; child := child w; deathWatcher := deathWatcher w;
     birthWatcher := birthWatcher w;
     graveyardWatcherStopped := graveyardWatcherStopped w;
     logger := logger w ++ [r]; calls := calls w |}.

Definition call (c : Call) (w : World) : World :=
  {| fs := fs w; ts := ts w; child := child w; deathWatcher := deathWatcher w;
     birthWatcher := birthWatcher w;
     graveyardWatcherStopped := graveyardWatcherStopped w;
     logger := logger w; calls := calls w ++ [c] |}.

(** What [runApp] sets up before anything can fail: the tombstone, the
    child handle and the empty traces. *)
Definition newWorld (cfg : config) (disk : FS) : World :=
  {| fs := disk;
     ts := {| Context := []; Born := None; Died := None; ExitCode := None;
              Graveyard := config_Graveyard cfg; Name := config_Name cfg |};
     child := New [];
     deathWatcher := []; birthWatcher := [];
     graveyardWatcherStopped := false;
     logger := []; calls := [] |}.

(** *** Birth dependencies *)

(** [ctx.Err()] of a context that is done. *)
Inductive CtxErr := Canceled | DeadlineExceeded.

(** The context [waitForBirthDeps] blocks on, and the trace it carries. *)
Record BirthCtx := { ctx_Err : option CtxErr; ctx_trace : Trace }.

(** A [context.CancelFunc]: the first cause a context gets is kept. *)
Definition cancel (ctx : BirthCtx) : BirthCtx :=
  match ctx_Err ctx with
  | Some _ => ctx
  | None => {| ctx_Err := Some Canceled; ctx_trace := ctx_trace ctx |}
  end.

Definition deadline (ctx : BirthCtx) : BirthCtx :=
  match ctx_Err ctx with
  | Some _ => ctx
  | None => {| ctx_Err := Some DeadlineExceeded; ctx_trace := ctx_trace ctx |}
  end.

Definition ctx_AddEvent (m : Message) (ctx : BirthCtx) : BirthCtx :=
  {| ctx_Err := ctx_Err ctx; ctx_trace := AddEvent m (ctx_trace ctx) |}.

Fixpoint readyContainers (statuses : list ContainerStatus) (acc : gset string)
    : gset string :=
  match statuses with
  | [] => acc
  | status :: statuses =>
      readyContainers statuses
        (if Ready status then {[cs_Name status]} ∪ acc else acc)
  end.

Fixpoint allReady (ready : gset string) (birthDeps : list string) : bool :=
  match birthDeps with
  | [] => true
  | name :: birthDeps =>
      if bool_decide (name ∈ ready) then allReady ready birthDeps else false
  end.

Definition onReadyOfAll (birthDeps : list string)
    (callback : BirthCtx -> BirthCtx) (e : watch_Event) (ctx : BirthCtx)
    : BirthCtx :=
  if bool_decide (Type_ e = Deleted) then ctx
  else
    match Object_ e with
    | NotPod => ctx_AddEvent MsgUnexpectedObject ctx
    | Pod statuses =>
        if allReady (readyContainers statuses ∅) birthDeps
        then callback ctx else ctx
    end.

(** What can happen while [waitForBirthDeps] blocks, before the deadline:
    the pod watcher delivers an event, or the process receives TERM (the
    goroutine of [withCancelOnSignal] then calls [cancel]). *)
Inductive BirthEvent :=
| PodEvent (e : watch_Event)
| TermSignal.

(** [<-ctx.Done()]: the events are taken in order until the context is
    done; when they run out the timer of [context.WithTimeout] ends the
    wait.  [podWatch] tells whether [WatchPod]'s goroutine still runs. *)
Fixpoint awaitDone (birthDeps : list string) (podName : string)
    (events : list BirthEvent) (podWatch : bool) (ctx : BirthCtx)
    {struct events} : BirthCtx :=
  match ctx_Err ctx with
  | Some _ => ctx
  | None =>
      match events with
      | [] => deadline ctx
      | TermSignal :: events =>
          awaitDone birthDeps podName events podWatch (cancel ctx)
      | PodEvent e :: events =>
          if podWatch then
            let '(stop, ctx) :=
              podCondition ctx_AddEvent podName
                (onReadyOfAll birthDeps cancel) e ctx in
            awaitDone birthDeps podName events (negb stop) ctx
          else awaitDone birthDeps podName events podWatch ctx
      end
  end.

(** [ctx.Err()] is nil, [Canceled] or [DeadlineExceeded]; the branch of the
    source for any other error has no value to run on. *)
Definition waitForBirthDeps (birthDeps : list string) (podName : string)
    (timeout : Z) (watchPod : option error) (events : list BirthEvent)
    (tr : Trace) : option error * Trace :=
  let ctx := {| ctx_Err := None; ctx_trace := tr |} in
  let ctx := ctx_AddEvent (MsgWatchingPod podName) ctx in
  match watchPod with
  | Some err => (Some (errors_Wrap err "failed to watch pod"), ctx_trace ctx)
  | None =>
      let ctx := awaitDone birthDeps podName events true ctx in
      match ctx_Err ctx with
      | Some DeadlineExceeded =>
          (Some (errors_WithStack
                   (errors_New
                      ("timed out waiting for birth deps to be ready: "
                       +:+ pretty timeout))),
           ctx_trace ctx)
      | _ =>
          (None, ctx_trace (ctx_AddEvent (MsgAllBirthDepsReady birthDeps) ctx))
      end
  end.

(** *** What the environment decides during one run of [runApp] *)
Record Env := {
  args : list string;               (* os.Args[1:] *)
  newWatcher : option error;        (* fsnotify.NewWatcher *)
  addWatch : option error;          (* watcher.Add(graveyard) *)
  inClusterConfig : option error;   (* rest.InClusterConfig *)
  newForConfig : option error;      (* kubernetes.NewForConfig *)
  birthEvents : list BirthEvent;    (* what happens during the birth wait *)
  startRes : Z + error;             (* cmd.Start *)
  birthTime : Time;                 (* time.Now() in RecordBirth *)
  birthIO : IO;                     (* the OS during RecordBirth *)
  waitRes : OsWait;                 (* Process.Wait *)
  deathTime : Time;                 (* time.Now() in RecordDeath *)
  deathIO : IO;                     (* the OS during RecordDeath *)
  killRes : option error;           (* Process.Signal(SIGKILL) in fatalf *)
  fireErr : option error            (* json.Marshal in trace.Fire *)
}.

Section WithLib.
Context `{Lib}.

(** The [if]/[else] of [waitForChildExit] on the error of [child.Wait]. *)
Definition exitCodeOf (err : option error) : Z :=
  match err with
  | Some (ExitError ps) => ProcessState_ExitCode ps
  | Some _ => -1
  | None => 0
  end.

Definition waitForChildExit (os : OsWait) (w : World)
    : option (Z * World) :=
  match Wait os (child w) with
  | None => None
  | Some (err, c) => Some (exitCodeOf err, set_child c (call CallWait w))
  end.

Definition serializeEventTraces (env : Env) : option error :=
  match fireErr env with
  | Some err2 => Some (errors_Wrap err2 "failed to marshal event trace")
  | None => None
  end.

Definition recordBirth (env : Env) (w : World) : option error * World :=
  let '(err, t, disk) :=
    RecordBirth (birthTime env) (birthIO env) (ts w) (fs w) in
  (err, set_fs disk (set_ts t (call (CallRecordBirth t) w))).

Definition recordDeath (env : Env) (code : Z) (w : World)
    : option error * World :=
  let '(err, t, disk) :=
    RecordDeath code (deathTime env) (deathIO env) (ts w) (fs w) in
  (err, set_fs disk (set_ts t (call (CallRecordDeath code t) w))).

(** The deferred function of [fatalf]: it logs [err] as it is when
    [fatalf] returns. *)
Definition deferred (env : Env) (err : error) (w : World) : World :=
  match serializeEventTraces env with
  | Some err2 => log (LogError (Some (errors_Wrap err (Error err2))) false) w
  | None => log (LogError (Some err) true) w
  end.

Definition fatalf (env : Env) (err : error) (w : World)
    : option (Z * World) :=
  let exitCode := 1 in
  let deferred := deferred env in
  let '(stopError, c) := ShutdownNow (killRes env) (child w) in
  let w := set_child c (call CallShutdownNow w) in
  match stopError with
  | Some stopError =>
      let err := errors_Wrap err (Error stopError) in
      Some (exitCode, deferred err w)
  | None =>
      match waitForChildExit (waitRes env) w with
      | None => None
      | Some (code, w) =>
          let '(recordDeathErr, w) := recordDeath env code w in
          match recordDeathErr with
          | Some recordDeathErr =>
              let err := errors_Wrap err (Error recordDeathErr) in
              Some (exitCode, deferred err w)
          | None => Some (exitCode, deferred err w)
          end
      end
  end.

(** The callback [runApp] gives to [onDeathOfAny]. *)
Definition shutdownCallback (gracePeriod : Z) (res : option error)
    (w : World) : option error * World :=
  let w := stopGraveyardWatcher w in
  match ShutdownWithTimeout gracePeriod res (child w) with
  | (Some err2, c) =>
      (Some (errors_Wrap err2 "failed to shutdown"), set_child c w)
  | (None, c) => (None, set_child c w)
  end.

Definition onDeathOfAny (deathDeps : list string)
    (callback : World -> option error * World)
    (e : fsnotify_Event) (rd : option error) (w : World)
    : option error * World :=
  let deathDepSet : gset string := list_to_set deathDeps in
  if bool_decide (Z.land (Op e) fsnotify_Create <> fsnotify_Create)
     && bool_decide (Z.land (Op e) fsnotify_Write <> fsnotify_Write)
  then (None, w)
  else
    let graveyard := filepath_Dir (ev_Name e) in
    let name := filepath_Base (ev_Name e) in
    if bool_decide (name ∉ deathDepSet)
    then (None, watchEvent (MsgIgnoreTombstone name) w)
    else
      let w := watchEvent (MsgReadingTombstone name) w in
      match Read rd graveyard name (fs w) with
      | inr err =>
          (Some (errors_Wrap err ("failed to read tombstone " +:+ name)), w)
      | inl ts =>
          match Died ts with
          | None => (None, w)
          | Some _ => callback (watchEvent (MsgNewDeath name) w)
          end
      end.

(** [runApp], the main goroutine.  The goroutines it starts (graveyard
    watcher, signal forwarding, grace timer) reach it only through the
    way the child ends, which is [waitRes]; they are [lifetime] below.  The
    deferred [stopGraveyardWatcher()] runs as [runApp] returns, right before
    [os.Exit], and is left out. *)
Definition runApp (cfg : config) (env : Env) (disk : FS)
    : option (Z * World) :=
  let w := newWorld cfg disk in
  if bool_decide (length (args env) = 0%nat)
  then Some (2, log (LogErrorf "no arguments found") w)
  else
    let '(err, w) :=
      if bool_decide (0 < length (config_DeathDeps cfg))%nat
      then (Watch (newWatcher env) (addWatch env), call CallWatch w)
      else (None, w) in
    match err with
    | Some err => fatalf env (errors_Wrap err "failed to watch graveyard") w
    | None =>
    let '(err, w) :=
      if bool_decide (0 < length (config_BirthDeps cfg))%nat
      then
        let '(err, tr) :=
          waitForBirthDeps (config_BirthDeps cfg) (config_PodName cfg)
            (config_BirthTimeout cfg)
            (WatchPod (inClusterConfig env) (newForConfig env))
            (birthEvents env) (birthWatcher w) in
        (err, set_birthWatcher tr (call CallWaitForBirthDeps w))
      else (None, w) in
    match err with
    | Some err => fatalf env err w
    | None =>
    let '(err, c) := Start (startRes env) (child w) in
    let w := set_child c (call CallStart w) in
    match err with
    | Some err => fatalf env err w
    | None =>
    let '(err, w) := recordBirth env w in
    match err with
    | Some err => fatalf env err w
    | None =>
    match waitForChildExit (waitRes env) w with
    | None => None
    | Some (code, w) =>
    let '(err, w) := recordDeath env code w in
    match err with
    | Some err => Some (2, log (LogError (Some err) false) w)
    | None =>
        if bool_decide (0 < config_VerboseLevel cfg)
        then
          match serializeEventTraces env with
          | Some err2 =>
              (* logs [err], which is nil here, not [err2] *)
              Some (2, log (LogError None false) w)
          | None =>
              Some (code, log (LogInfo "supervising proceed successfully") w)
          end
        else Some (code, w)
    end end end end end end.

(** *** The goroutines around the child, interleaved

    One fsnotify event as the handler meets it: the event, and what the
    OS answers to the read and to the signal the handler may cause. *)
Record Delivery := {
  dl_event : fsnotify_Event;
  dl_read : option error;
  dl_signal : option error
}.

Definition graveyardHandler (cfg : config) (d : Delivery) (w : World)
    : option error * World :=
  onDeathOfAny (config_DeathDeps cfg)
    (shutdownCallback (config_GracePeriod cfg) (dl_signal d))
    (dl_event d) (dl_read d) w.

(** What can happen next in the process. *)
Inductive Step :=
| StepStart (res : Z + error)            (* main: child.Start() *)
| StepWait (os : OsWait)                 (* main: child.Wait() *)
| StepShutdownNow (res : option error)   (* main: fatalf *)
| StepSignal (sg : Signal) (res : option error)
                                         (* forwarding takes a signal *)
| StepWatch (preferDone : bool) (sel : Selected Delivery)
                                         (* a turn of the graveyard watcher *)
| StepTimer (res : option error)         (* the grace timer expires *)
| StepPeer (path content : string).      (* a peer rewrites its tombstone *)

(** One step on the world and on whether the graveyard watcher still
    runs; [None] is a panic. *)
Definition step (cfg : config) (s : Step) (l : World * bool)
    : option (World * bool) :=
  let '(w, watching) := l in
  match s with
  | StepStart res =>
      let '(_, c) := Start res (child w) in Some (set_child c w, watching)
  | StepWait os =>
      match Wait os (child w) with
      | None => None
      | Some (_, c) => Some (set_child c w, watching)
      end
  | StepShutdownNow res =>
      let '(_, c) := ShutdownNow res (child w) in
      Some (set_child c w, watching)
  | StepSignal sg res =>
      match sigCh (child w) with
      | Some ChanOpen =>
          Some (set_child (forward1 sg res (child w)) w, watching)
      | _ => Some l
      end
  | StepWatch preferDone sel =>
      if watching then
        let '(on, w) :=
          watchTurn graveyardWatcherStopped watchEvent
            (config_Graveyard cfg) (graveyardHandler cfg) preferDone sel w in
        Some (w, on)
      else Some l
  | StepTimer res => Some (set_child (timerExpires res (child w)) w, watching)
  | StepPeer path content =>
      Some (set_fs (<[path := content]> (fs w)) w, watching)
  end.

(** Any interleaving, until it ends or the process panics. *)
Fixpoint lifetime (cfg : config) (steps : list Step) (l : World * bool)
    : World * bool :=
  match steps with
  | [] => l
  | s :: steps =>
      match step cfg s l with
      | Some l => lifetime cfg steps l
      | None => l
      end
  end.

(** The graceful shutdowns that took effect: TERM delivered on behalf of
    [ShutdownWithTimeout]. *)
Definition gracefulShutdowns (s : Supervisor) : list Sent :=
  filter (fun x => origin x = Graceful /\ delivered x = true) (sent s).

(** A sequence of shutdown requests. *)
Inductive Shutdown :=
| Force (res : option error)
| Gracefully (timeout : Z) (res : option error).

Definition shutdown (r : Shutdown) (s : Supervisor)
    : option error * Supervisor :=
  match r with
  | Force res => ShutdownNow res s
  | Gracefully timeout res => ShutdownWithTimeout timeout res s
  end.

Fixpoint shutdowns (rs : list Shutdown) (s : Supervisor)
    : list (option error) * Supervisor :=
  match rs with
  | [] => ([], s)
  | r :: rs =>
      let '(err, s) := shutdown r s in
      let '(errs, s) := shutdowns rs s in
      (err :: errs, s)
  end.

End WithLib.

End main.

(** ** A library instance to run the code on

    A small self-delimiting text codec and slash-separated paths.  They stand
    for the real libraries only in the examples; every general theorem is
    stated for an arbitrary [Lib]. *)
Module sample.
Import event tombstone.

Fixpoint enc_pos (p : positive) : string :=
  match p with
  | xH => ";"
  | xO q => String "0"%char (enc_pos q)
  | xI q => String "1"%char (enc_pos q)
  end.

Definition enc_Z (z : Z) : string :=
  match z with
  | Z0 => "z"
  | Zpos p => String "p"%char (enc_pos p)
  | Zneg p => String "n"%char (enc_pos p)
  end.

Definition enc_field (o : option Z) : string :=
  match o with
  | None => "-"
  | Some z => String "+"%char (enc_Z z)
  end.

Definition marshal (t : Tombstone) : string :=
  enc_field (Born t) +:+ enc_field (Died t) +:+ enc_field (ExitCode t).

Fixpoint dec_pos (s : string) : option (positive * string) :=
  match s with
  | String ";"%char rest => Some (xH, rest)
  | String "0"%char rest =>
      match dec_pos rest with
      | Some (q, rest) => Some (xO q, rest)
      | None => None
      end
  | String "1"%char rest =>
      match dec_pos rest with
      | Some (q, rest) => Some (xI q, rest)
      | None => None
      end
  | _ => None
  end.

Definition dec_Z (s : string) : option (Z * string) :=
  match s with
  | String "z"%char rest => Some (Z0, rest)
  | String "p"%char rest =>
      match dec_pos rest with
      | Some (p, rest) => Some (Zpos p, rest)
      | None => None
      end
  | String "n"%char rest =>
      match dec_pos rest with
      | Some (p, rest) => Some (Zneg p, rest)
      | None => None
      end
  | _ => None
  end.

Definition dec_field (s : string) : option (option Z * string) :=
  match s with
  | String "-"%char rest => Some (None, rest)
  | String "+"%char rest =>
      match dec_Z rest with
      | Some (z, rest) => Some (Some z, rest)
      | None => None
      end
  | _ => None
  end.

(** The empty document sets no field, as in YAML. *)
Definition unmarshal (doc : string) (t0 : Tombstone) : Tombstone + error :=
  let malformed := inr (errors_New "malformed tombstone") in
  match doc with
  | "" => inl t0
  | _ =>
      match dec_field doc with
      | None => malformed
      | Some (born, rest) =>
          match dec_field rest with
          | None => malformed
          | Some (died, rest) =>
              match dec_field rest with
              | Some (code, "") =>
                  inl (overlay {| Context := []; Born := born; Died := died;
                                  ExitCode := code; Graveyard := "";
                                  Name := "" |} t0)
              | _ => malformed
              end
          end
      end
  end.

(** [split_path "/g/app" = (Some "/g", "app")]. *)
Fixpoint split_path (s : string) : option string * string :=
  match s with
  | "" => (None, "")
  | String c rest =>
      match split_path rest with
      | (Some dir, base) => (Some (String c dir), base)
      | (None, base) =>
          if Ascii.eqb c "/"%char then (Some "", base)
          else (None, String c base)
      end
  end.

Global Instance lib : Lib := {|
  yaml_Marshal t := inl (marshal t);
  yaml_Unmarshal := unmarshal;
  filepath_Join dir name := dir +:+ "/" +:+ name;
  filepath_Dir path := default "." (fst (split_path path));
  filepath_Base path := snd (split_path path)
|}.





Definition okIO : IO :=
  {| mkdirAll := None; create := None; written := 1000 |}.

Definition failIO : IO :=
  {| mkdirAll := Some (errors_New "read-only file system"); create := None;
     written := 0 |}.

Definition cfg : main.config :=
  {| main.config_Name := "app"; main.config_Graveyard := "/graveyard";
     main.config_BirthDeps := []; main.config_DeathDeps := [];
     main.config_BirthTimeout := 30; main.config_GracePeriod := 30;
     main.config_PodName := ""; main.config_Namespace := "";
     main.config_VerboseLevel := 0; main.config_InstantLogging := false |}.

Definition cfgBirth : main.config :=
  {| main.config_Name := "app"; main.config_Graveyard := "/graveyard";
     main.config_BirthDeps := ["proxy"]; main.config_DeathDeps := [];
     main.config_BirthTimeout := 30; main.config_GracePeriod := 30;
     main.config_PodName := "pod"; main.config_Namespace := "ns";
     main.config_VerboseLevel := 0; main.config_InstantLogging := false |}.

Definition cfgDeath : main.config :=
  {| main.config_Name := "proxy"; main.config_Graveyard := "/graveyard";
     main.config_BirthDeps := []; main.config_DeathDeps := ["app"];
     main.config_BirthTimeout := 30; main.config_GracePeriod := 5;
     main.config_PodName := ""; main.config_Namespace := "";
     main.config_VerboseLevel := 0; main.config_InstantLogging := false |}.

(** An environment in which everything that is not named works: the child
    is "/bin/true", born at 100 and dead at 200. *)
Definition mkEnv (birthEvents : list main.BirthEvent) (startRes : Z + error)
    (birthIO : IO) (waitRes : supervisor.OsWait) (deathIO : IO)
    (killRes : option error) : main.Env :=
  {| main.args := ["/bin/true"];
     main.newWatcher := None; main.addWatch := None;
     main.inClusterConfig := None; main.newForConfig := None;
     main.birthEvents := birthEvents; main.startRes := startRes;
     main.birthTime := 100; main.birthIO := birthIO;
     main.waitRes := waitRes;
     main.deathTime := 200; main.deathIO := deathIO;
     main.killRes := killRes; main.fireErr := None |}.

(** The child exits with status 3 and everything else works. *)
Definition env : main.Env :=
  mkEnv [] (inl 42) okIO (supervisor.WaitState (Exited 3)) okIO None.

(** The child exits with status 3 and the death record cannot be written. *)
Definition envDeathWriteFails : main.Env :=
  mkEnv [] (inl 42) okIO (supervisor.WaitState (Exited 3)) failIO None.

(** The child cannot be started. *)
Definition envStartFails : main.Env :=
  mkEnv [] (inr (errors_New "executable file not found")) okIO
    (supervisor.WaitState (Exited 0)) okIO None.

(** The birth record cannot be written and the child cannot be killed. *)
Definition envKillFails : main.Env :=
  mkEnv [] (inl 42) failIO (supervisor.WaitState (Exited 0)) okIO
    (Some (errors_New "operation not permitted")).

(** TERM arrives during the birth wait, before any pod event. *)
Definition envTerm : main.Env :=
  mkEnv [main.TermSignal] (inl 42) okIO (supervisor.WaitState (Exited 0))
    okIO None.

(** The tombstone of a peer "app" that died with code 0, as the sample
    codec writes it, and the fsnotify event for that write. *)
Definition appDied : string := "+p001001;+p0001001;+z".

Definition deathOfApp : main.Delivery :=
  {| main.dl_event := {| ev_Name := "/graveyard/app"; Op := fsnotify_Write |};
     main.dl_read := None; main.dl_signal := None |}.

(** The child starts, the peer dies, and the watcher sees the write
    twice, the second time after its context was cancelled. *)
Definition twoDeathEvents : list main.Step :=
  [main.StepStart (inl 42);
   main.StepPeer "/graveyard/app" appDied;
   main.StepWatch false (SelEvent deathOfApp);
   main.StepWatch false (SelEvent deathOfApp)].

(** The same events for a watcher that takes the done case of its
    [select] once its context is cancelled. *)
Definition deathEventThenDone : list main.Step :=
  [main.StepStart (inl 42);
   main.StepPeer "/graveyard/app" appDied;
   main.StepWatch true (SelEvent deathOfApp);
   main.StepWatch true (SelEvent deathOfApp)].

(** A write to the tombstone of "db", which is no death dependency. *)
Definition writeOfDb : main.Delivery :=
  {| main.dl_event := {| ev_Name := "/graveyard/db"; Op := fsnotify_Write |};
     main.dl_read := None; main.dl_signal := None |}.

(** A child that was started as pid 42 and is still running. *)
Definition running : supervisor.Supervisor :=
  snd (supervisor.Start (inl 42) (supervisor.New [])).

(** The same child after it exited with status 3 and was reaped. *)
Definition reaped : supervisor.Supervisor :=
  match supervisor.Wait (supervisor.WaitState (Exited 3)) running with
  | Some (_, s) => s
  | None => running
  end.

End sample.

(** ** Vocabulary of the statements *)
Module props.
Import event supervisor tombstone kubernetes main.

(** What the forwarding goroutine hands to [Process.Signal] for the signals
    it received: all of them but CHLD. *)
Definition forwarded (recv : list (Signal * option error)) : list Sent :=
  (fun p => {| origin := Forwarded; sig := p.1;
               delivered := bool_decide (p.2 = None) |})
    <$> filter (fun p => p.1 <> SIGCHLD) recv.

(** What it adds to the trace for one signal. *)
Definition traced1 (p : Signal * option error) : list Message :=
  (if bool_decide (p.1 <> SIGURG) then [MsgReceivedSignal p.1] else [])
  ++ (if bool_decide (p.1 = SIGCHLD) then []
      else match p.2 with
           | Some err => [MsgPropagationFailed err]
           | None => []
           end).

Definition traced (recv : list (Signal * option error)) : list Message :=
  recv ≫= traced1.

(** The signals the forwarding goroutine receives in a run of turns: those
    before the context is done or the channel is closed. *)
Fixpoint received (turns : list Turn) : list (Signal * option error) :=
  match turns with
  | Received sg res :: turns => (sg, res) :: received turns
  | _ => []
  end.

(** Whether the goroutine ended because its context was done. *)
Fixpoint stopped (turns : list Turn) : bool :=
  match turns with
  | [] => false
  | ContextDone :: _ => true
  | Received _ _ :: turns => stopped turns
  | Closed :: _ => false
  end.

(** The signals whose receipt a trace records. *)
Definition receipts (tr : Trace) : list Signal :=
  tr ≫= (fun m => match m with MsgReceivedSignal sg => [sg] | _ => [] end).

(** The child was spawned and has been reaped. *)
Definition exited (s : Supervisor) : Prop :=
  cmd_Process s <> None /\ cmd_ProcessState s <> None.

(** The tombstones the main goroutine handed to [Write], oldest first. *)
Definition records (cs : list Call) : list Tombstone :=
  cs ≫= (fun c => match c with
                  | CallRecordBirth t => [t]
                  | CallRecordDeath _ t => [t]
                  | _ => []
                  end).

(** The event is one the ON_DEATH handler acts on: a create or a write, of
    a file named after a death dependency, whose record has [Died] set. *)
Definition announcesDeath `{Lib} (deathDeps : list string)
    (e : fsnotify_Event) (rd : option error) (disk : FS) : bool :=
  (bool_decide (Z.land (Op e) fsnotify_Create = fsnotify_Create)
   || bool_decide (Z.land (Op e) fsnotify_Write = fsnotify_Write))
  && bool_decide (filepath_Base (ev_Name e) ∈ deathDeps)
  && match Read rd (filepath_Dir (ev_Name e)) (filepath_Base (ev_Name e))
             disk with
     | inl t => bool_decide (Died t <> None)
     | inr _ => false
     end.

(** The deaths a watcher's trace reports as new: one for every call the
    handler made to its callback. *)
Definition announced (tr : Trace) : list string :=
  tr ≫= (fun m => match m with MsgNewDeath name => [name] | _ => [] end).

(** The watcher takes its context's done case as soon as it can. *)
Definition prefersDone (s : Step) : Prop :=
  match s with
  | StepWatch preferDone _ => preferDone = true
  | _ => True
  end.

(** The callback was called at most once, and not at all while the
    watcher's context is live. *)
Definition calledOnce (w : World) : Prop :=
  (graveyardWatcherStopped w = false -> announced (deathWatcher w) = [])
  /\ (length (announced (deathWatcher w)) <= 1)%nat.

(** At most one graceful shutdown took effect, and none while the timer
    field is nil. *)
Definition once (s : Supervisor) : Prop :=
  (length (gracefulShutdowns s) <= 1)%nat
  /\ (shutdownTimer s = None -> gracefulShutdowns s = []).

(** The error [child.Wait] returns for a child that runs and was not
    waited for yet. *)
Definition waitError (os : OsWait) : option error :=
  match os with
  | WaitFailed e => Some e
  | WaitState ps => if Success ps then None else Some (ExitError ps)
  end.

(** The two calls [runApp] may make before it starts the child. *)
Definition setup (c : Call) : Prop :=
  c = CallWatch \/ c = CallWaitForBirthDeps.

(** The result of arming the death watch, nil without death deps. *)
Definition watchResult (cfg : config) (env : Env) : option error :=
  if bool_decide (0 < length (config_DeathDeps cfg))%nat
  then Watch (newWatcher env) (addWatch env) else None.

(** The result of the birth wait, nil without birth deps. *)
Definition birthResult (cfg : config) (env : Env) : option error :=
  if bool_decide (0 < length (config_BirthDeps cfg))%nat
  then fst (waitForBirthDeps (config_BirthDeps cfg) (config_PodName cfg)
              (config_BirthTimeout cfg)
              (WatchPod (inClusterConfig env) (newForConfig env))
              (birthEvents env) [])
  else None.

(** What a fatal engine error leaves in the log: one error record. *)
Definition fatalLogged (logs : list LogRecord) : Prop :=
  exists e withTraces, logs = [LogError (Some e) withTraces].

(** The courses a run of [runApp] can take: its exit code, the calls of the
    main goroutine and what it logged. *)
Inductive Course `{Lib} (cfg : config) (env : Env) (disk : FS)
    : Z -> list Call -> list LogRecord -> Prop :=
| NoArguments :
    length (args env) = 0%nat ->
    Course cfg env disk 2 [] [LogErrorf "no arguments found"]
| FatalBeforeStart pre t logs :
    Forall setup pre ->
    watchResult cfg env <> None \/ birthResult cfg env <> None ->
    Born t = None -> Died t = Some (deathTime env) ->
    ExitCode t = Some (-1) ->
    fatalLogged logs ->
    Course cfg env disk 1
      (pre ++ [CallShutdownNow; CallWait; CallRecordDeath (-1) t]) logs
| FatalAtStart pre t e logs :
    Forall setup pre ->
    watchResult cfg env = None -> birthResult cfg env = None ->
    startRes env = inr e ->
    Born t = None -> Died t = Some (deathTime env) ->
    ExitCode t = Some (-1) ->
    fatalLogged logs ->
    Course cfg env disk 1
      (pre ++ [CallStart; CallShutdownNow; CallWait; CallRecordDeath (-1) t])
      logs
| FatalAtBirth pre pid tb tail logs :
    Forall setup pre ->
    watchResult cfg env = None -> birthResult cfg env = None ->
    startRes env = inl pid ->
    Born tb = Some (birthTime env) -> Died tb = None ->
    fst (Write tb (birthIO env) disk) <> None ->
    tail = []
    \/ (exists t,
          tail = [CallWait;
                  CallRecordDeath (exitCodeOf (waitError (waitRes env))) t]
          /\ Born t = Some (birthTime env) /\ Died t = Some (deathTime env)
          /\ ExitCode t = Some (exitCodeOf (waitError (waitRes env)))) ->
    fatalLogged logs ->
    Course cfg env disk 1
      (pre ++ [CallStart; CallRecordBirth tb; CallShutdownNow] ++ tail) logs
| Supervised pre pid tb t code logs :
    Forall setup pre ->
    watchResult cfg env = None -> birthResult cfg env = None ->
    startRes env = inl pid ->
    Born tb = Some (birthTime env) -> Died tb = None ->
    fst (Write tb (birthIO env) disk) = None ->
    Born t = Some (birthTime env) -> Died t = Some (deathTime env) ->
    ExitCode t = Some (exitCodeOf (waitError (waitRes env))) ->
    (exists e,
       fst (Write t (deathIO env) disk) = Some e /\ code = 2
       /\ logs = [LogError
                    (Some (errors_WithStack
                             (fmt_Errorf "failed to update tombstone" e)))
                    false])
    \/ (fst (Write t (deathIO env) disk) = None
        /\ 0 < config_VerboseLevel cfg /\ fireErr env <> None /\ code = 2
        /\ logs = [LogError None false])
    \/ (fst (Write t (deathIO env) disk) = None
        /\ ~ (0 < config_VerboseLevel cfg /\ fireErr env <> None)
        /\ code = exitCodeOf (waitError (waitRes env))
        /\ (logs = []
            \/ logs = [LogInfo "supervising proceed successfully"])) ->
    Course cfg env disk code
      (pre ++ [CallStart; CallRecordBirth tb; CallWait;
               CallRecordDeath (exitCodeOf (waitError (waitRes env))) t])
      logs.

End props.

(** ** Go's [strings], the functions the program calls *)
Module gostrings.

(** [strings.ContainsRune(s, r)], for a rune of one byte. *)
Fixpoint ContainsRune (s : string) (r : ascii) : bool :=
  match s with
  | "" => false
  | String c s => Ascii.eqb c r || ContainsRune s r
  end.

(** [strings.Split(s, sep)], for a separator of one byte: the text between
    the separators, one more than there are separators. *)
Fixpoint Split (s : string) (sep : ascii) : list string :=
  match s with
  | "" => [""]
  | String c s =>
      if Ascii.eqb c sep then "" :: Split s sep
      else
        match Split s sep with
        | w :: ws => String c w :: ws
        | [] => [String c ""]
        end
  end.

(** [strings.Join(elems, sep)]. *)
Fixpoint Join (elems : list string) (sep : string) : string :=
  match elems with
  | [] => ""
  | e :: elems =>
      match elems with
      | [] => e
      | _ :: _ => e +:+ sep +:+ Join elems sep
      end
  end.

(** [strings.TrimRight(s, cutset)], for a cutset of one byte. *)
Fixpoint TrimRight (s : string) (cut : ascii) : string :=
  match s with
  | "" => ""
  | String c s =>
      match TrimRight s cut with
      | "" => if Ascii.eqb c cut then "" else String c ""
      | t => String c t
      end
  end.

End gostrings.

(** ** The method [String] of [Supervisor]: the command line in the
    "Start" event *)
Module cmdline.
Import gostrings.

(** The two fields of [exec.Cmd] the method reads. *)
Record Cmd := { Path : string; Args : list string }.

Definition space : ascii := " "%char.
Definition dquote : string := String "034"%char "".

(** The body of the [for] over [s.cmd.Args[1:]]. *)
Definition writeArg (buffer arg : string) : string :=
  let buffer := buffer +:+ String space "" in
  let quote := ContainsRune arg space in
  let buffer := if quote then buffer +:+ dquote else buffer in
  let buffer := buffer +:+ arg in
  if quote then buffer +:+ dquote else buffer.

Definition Supervisor_String (cmd : Cmd) : string :=
  if bool_decide (Path cmd = "") then ""
  else
    let buffer := "" in
    let quote := ContainsRune (Path cmd) space in
    let buffer := if quote then buffer +:+ dquote else buffer in
    let buffer := buffer +:+ Path cmd in
    let buffer := if quote then buffer +:+ dquote else buffer in
    if bool_decide (1 < length (Args cmd))%nat
    then foldl writeArg buffer (drop 1 (Args cmd))
    else buffer.

End cmdline.

(** ** Package loggerhook: the stack trace of a logged error *)
Module loggerhook.

(** An error as the hook sees it: its text, the stack it recorded if its
    type has a [StackTrace] method, and its cause.  [Leaf] is an error
    without a [Cause] method, or one whose [Cause] returns nil.  [Frame] is
    [errors.Frame]. *)
Inductive Err (Frame : Type) :=
| Leaf (text : string) (stack : option (list Frame))
| Caused (text : string) (stack : option (list Frame)) (cause : Err Frame).
Global Arguments Leaf {Frame} text stack.
Global Arguments Caused {Frame} text stack cause.

(** What [entry.Data] holds under a key. *)
Inductive Value (Frame : Type) :=
| VError (err : Err Frame)        (* a value whose type implements [error] *)
| VString (s : string)
| VStrings (l : list string)
| VOther (repr : string).         (* anything else, a nil interface too *)
Global Arguments VError {Frame} err.
Global Arguments VString {Frame} s.
Global Arguments VStrings {Frame} l.
Global Arguments VOther {Frame} repr.

Definition ErrorKey : string := "error".
Definition keyStack : string := "stack".

Section Hook.
Context {Frame : Type}.
(** [fmt.Sprintf("%+v", f)] *)
Variable format : Frame -> string.

Definition Error_ (err : Err Frame) : string :=
  match err with Leaf text _ | Caused text _ _ => text end.

Definition stackOf (err : Err Frame) : option (list Frame) :=
  match err with Leaf _ stack | Caused _ stack _ => stack end.

(** [tracer.StackTrace()] of an error that passed [err.(stackTracer)]. *)
Definition StackTrace (err : Err Frame) : list Frame :=
  default [] (stackOf err).

(** [_, ok := err.(stackTracer)] *)
Definition isStackTracer (err : Err Frame) : bool :=
  match stackOf err with Some _ => true | None => false end.

Definition getCause (err : Err Frame) : option (Err Frame) :=
  match err with
  | Leaf _ _ => None
  | Caused _ _ cause => Some cause
  end.

(** The [for err != nil] of [getOldestStackTracer], entered with a non-nil
    [err] and the tracer found so far. *)
Fixpoint oldestFrom (err : Err Frame) (oldestStackTracer : option (Err Frame))
    : option (Err Frame) :=
  let oldestStackTracer :=
    if isStackTracer err then Some err else oldestStackTracer in
  match err with
  | Caused _ _ cause => oldestFrom cause oldestStackTracer
  | Leaf _ _ => oldestStackTracer
  end.

Definition getOldestStackTracer (err : option (Err Frame))
    : option (Err Frame) :=
  match err with
  | None => None
  | Some err => oldestFrom err None
  end.

(** The result is nil, here the empty list, when nothing is appended. *)
Definition toStringSlice (stackTrace : list Frame) : list string :=
  foldl (fun result f => result ++ [format f]) [] stackTrace.

Definition GetStackTrace (err : option (Err Frame)) : list string :=
  match getOldestStackTracer err with
  | None => []
  | Some tracer => toStringSlice (StackTrace tracer)
  end.

(** The method [Fire] of [StackTraceHook] on [entry.Data].  An interface that passed
    [val.(error)] is not nil, so the branch for [err == nil] has no value
    to run on. *)
Definition Fire (data : gmap string (Value Frame))
    : gmap string (Value Frame) :=
  match data !! ErrorKey with
  | None => data
  | Some val =>
      match val with
      | VError err =>
          let trace := GetStackTrace (Some err) in
          let data :=
            match trace with
            | [] => data
            | _ :: _ => <[keyStack := VStrings trace]> data
            end in
          <[ErrorKey := VString (Error_ err)]> data
      | _ => data
      end
  end.

End Hook.

(** The cause chain of an error, the error itself first. *)
Fixpoint chain {Frame : Type} (err : Err Frame) : list (Err Frame) :=
  err :: match err with
         | Caused _ _ cause => chain cause
         | Leaf _ _ => []
         end.

End loggerhook.

(** ** cmd/kubexit: the configuration and the signal context *)
Module kubexit.
Import event supervisor tombstone kubernetes main gostrings.

(** The library functions [parseConfig] calls. *)
Class ConfLib := {
  time_ParseDuration : string -> Z + error;
  strconv_Atoi : string -> Z + error;
  strconv_ParseBool : string -> bool + error;
  filepath_Clean : string -> string
}.

(** [time.Second], in nanoseconds. *)
Definition time_Second : Z := 1000000000.

(** The environment of the process; [os.Getenv] gives the empty string for
    a variable that is not set. *)
Abbreviation Environ := (gmap string string).

Definition os_Getenv (environ : Environ) (key : string) : string :=
  default "" (environ !! key).

Section Config.
Context `{ConfLib}.

Definition parseConfig (environ : Environ) : config + error :=
  let name := os_Getenv environ "KUBEXIT_NAME" in
  if bool_decide (name = "")
  then inr (errors_New "missing env var: KUBEXIT_NAME")
  else
  let graveyard := os_Getenv environ "KUBEXIT_GRAVEYARD" in
  let graveyard :=
    if bool_decide (graveyard = "") then "/graveyard"
    else filepath_Clean (TrimRight graveyard "/"%char) in
  let birthDepsStr := os_Getenv environ "KUBEXIT_BIRTH_DEPS" in
  let birthDeps :=
    if bool_decide (birthDepsStr <> "")
    then Split birthDepsStr ","%char else [] in
  let deathDepsStr := os_Getenv environ "KUBEXIT_DEATH_DEPS" in
  let deathDeps :=
    if bool_decide (deathDepsStr <> "")
    then Split deathDepsStr ","%char else [] in
  let birthTimeoutStr := os_Getenv environ "KUBEXIT_BIRTH_TIMEOUT" in
  match (if bool_decide (birthTimeoutStr <> "")
         then time_ParseDuration birthTimeoutStr
         else inl (30 * time_Second)) with
  | inr err => inr (errors_Wrap err "failed to parse birth timeout")
  | inl birthTimeout =>
  let gracePeriodStr := os_Getenv environ "KUBEXIT_GRACE_PERIOD" in
  match (if bool_decide (gracePeriodStr <> "")
         then time_ParseDuration gracePeriodStr
         else inl (30 * time_Second)) with
  | inr err => inr (errors_Wrap err "failed to parse grace period")
  | inl gracePeriod =>
  let podName := os_Getenv environ "KUBEXIT_POD_NAME" in
  if bool_decide (podName = "") && bool_decide (0 < length birthDeps)%nat
  then inr (errors_New "missing env var: KUBEXIT_POD_NAME")
  else
  let namespace := os_Getenv environ "KUBEXIT_NAMESPACE" in
  if bool_decide (namespace = "") && bool_decide (0 < length birthDeps)%nat
  then inr (errors_New "missing env var: KUBEXIT_NAMESPACE")
  else
  let verboseLevelStr := os_Getenv environ "KUBEXIT_VERBOSE_LEVEL" in
  match (if bool_decide (verboseLevelStr <> "")
         then strconv_Atoi verboseLevelStr
         else inl 0) with
  | inr err =>
      inr (errors_Wrap err
             ("failed to parse verbose level " +:+ verboseLevelStr))
  | inl verboseLevel =>
  let instantLoggingStr := os_Getenv environ "KUBEXIT_INSTANT_LOGGING" in
  match (if bool_decide (instantLoggingStr <> "")
         then strconv_ParseBool instantLoggingStr
         else inl false) with
  | inr err =>
      (* the message is built from [verboseLevelStr] *)
      inr (errors_Wrap err
             ("failed to parse env instant logging " +:+ verboseLevelStr))
  | inl instantLogging =>
      inl {| config_Name := name;
             config_Graveyard := graveyard;
             config_BirthDeps := birthDeps;
             config_DeathDeps := deathDeps;
             config_BirthTimeout := birthTimeout;
             config_GracePeriod := gracePeriod;
             config_PodName := podName;
             config_Namespace := namespace;
             config_VerboseLevel := verboseLevel;
             config_InstantLogging := instantLogging |}
  end end end end.

End Config.

(** *** The goroutine of [withCancelOnSignal]

    Its context is cancelled by nothing but its own [cancel]: the parent is
    [context.Background()], and [stopPodWatcher] cancels the child made by
    [context.WithTimeout]. *)
Record SignalCtx := {
  sc_done : bool;          (* ctx.Done() is closed *)
  sc_sigCh : Chan;         (* sigCh *)
  sc_buffered : bool;      (* a signal waits in sigCh, of capacity 1 *)
  sc_notify : bool;        (* signal.Notify(sigCh, ...) is in force *)
  sc_resets : nat          (* ghost: calls of signal.Reset() *)
}.

Definition signalCtx0 : SignalCtx :=
  {| sc_done := false; sc_sigCh := ChanOpen; sc_buffered := false;
     sc_notify := true; sc_resets := 0 |}.

(** What happens next: the process receives TERM, or the [select] is
    scheduled and tries one of its cases.  The channel case is ready when a
    signal waits in the channel or the channel is closed, the done case
    when the context is cancelled; a case that is not ready is not
    taken. *)
Inductive Wakeup := Sigterm | CaseSigCh | CaseDone.

(** How far the goroutine got; closing a closed channel panics. *)
Inductive Goroutine :=
| Looping (st : SignalCtx)
| Returned (st : SignalCtx)
| Panicked.

Definition cancelTurn (t : Wakeup) (st : SignalCtx) : Goroutine :=
  match t with
  | Sigterm =>
      (* package signal sends without blocking: a signal is dropped when
         the channel is full, and not relayed after [signal.Reset] *)
      if sc_notify st && negb (sc_buffered st)
      then Looping {| sc_done := sc_done st; sc_sigCh := sc_sigCh st;
                      sc_buffered := true; sc_notify := sc_notify st;
                      sc_resets := sc_resets st |}
      else Looping st
  | CaseSigCh =>
      if sc_buffered st then                       (* ok; cancel() *)
        Looping {| sc_done := true; sc_sigCh := sc_sigCh st;
                   sc_buffered := false; sc_notify := sc_notify st;
                   sc_resets := sc_resets st |}
      else
        match sc_sigCh st with
        | ChanClosed => Returned st                (* !ok *)
        | ChanOpen => Looping st                   (* the case is not ready *)
        end
  | CaseDone =>
      if sc_done st then
        (* signal.Reset(); close(sigCh) *)
        match sc_sigCh st with
        | ChanOpen =>
            Looping {| sc_done := sc_done st; sc_sigCh := ChanClosed;
                       sc_buffered := sc_buffered st; sc_notify := false;
                       sc_resets := S (sc_resets st) |}
        | ChanClosed => Panicked
        end
      else Looping st                              (* the case is not ready *)
  end.

Fixpoint cancelLoop (turns : list Wakeup) (st : SignalCtx) : Goroutine :=
  match turns with
  | [] => Looping st
  | t :: turns =>
      match cancelTurn t st with
      | Looping st => cancelLoop turns st
      | r => r
      end
  end.

End kubexit.

(** ** Vocabulary of the further statements *)
Module terms.
Import event supervisor tombstone kubernetes main props gostrings cmdline.
Import kubexit.

(** The container [name] is reported ready by one of the statuses. *)
Definition containerReady (statuses : list ContainerStatus) (name : string)
    : Prop :=
  exists status,
    status ∈ statuses /\ cs_Name status = name /\ Ready status = true.

(** The event shows the pod with every birth dependency ready, and is not
    the pod's deletion. *)
Definition podReady (birthDeps : list string) (e : watch_Event) : Prop :=
  Type_ e <> Deleted
  /\ exists statuses,
       Object_ e = Pod statuses
       /\ forall name, name ∈ birthDeps -> containerReady statuses name.

(** What happens during the birth wait does not end it: no TERM, and no
    pod event that reaches the handler with all dependencies ready. *)
Definition keepsWaiting (birthDeps : list string) (ev : BirthEvent) : Prop :=
  match ev with
  | TermSignal => False
  | PodEvent e => Type_ e = ErrorEvent \/ ~ podReady birthDeps e
  end.

Definition isDeletion (ev : BirthEvent) : Prop :=
  match ev with
  | TermSignal => False
  | PodEvent e => Type_ e = Deleted
  end.

(** The tombstone of a world names the same file as at the start of the
    run, and the other files are as on [disk]. *)
Definition ownFile `{Lib} (cfg : config) (disk : FS) (w : World) : Prop :=
  Graveyard (ts w) = config_Graveyard cfg
  /\ Name (ts w) = config_Name cfg
  /\ forall p, p <> filepath_Join (config_Graveyard cfg) (config_Name cfg) ->
               fs w !! p = disk !! p.

(** The watcher's turns that take the given events, each with what the
    [select] prefers should the context be done. *)
Definition eventTurns (ds : list (bool * Delivery)) : list Step :=
  (fun p => StepWatch p.1 (SelEvent p.2)) <$> ds.

(** The event is one the ON_DEATH handler ignores or fails on. *)
Definition ignored `{Lib} (cfg : config) (disk : FS) (p : bool * Delivery)
    : Prop :=
  announcesDeath (config_DeathDeps cfg) (dl_event p.2) (dl_read p.2) disk
  = false.

(** What holds of the goroutine of [withCancelOnSignal] all along: the
    channel is closed only by the done case, after [signal.Reset], and that
    case is taken only with the context cancelled. *)
Definition closedByDone (st : SignalCtx) : Prop :=
  match sc_sigCh st with
  | ChanOpen => sc_notify st = true /\ sc_resets st = 0%nat
  | ChanClosed =>
      sc_done st = true /\ sc_notify st = false /\ sc_resets st = 1%nat
  end.

(** A word of the command line, in quotes when it holds a space. *)
Definition quoted (word : string) : string :=
  if ContainsRune word space then dquote +:+ word +:+ dquote else word.

(** The words [String] prints: the path, and the arguments after the
    first. *)
Definition words (cmd : Cmd) : list string :=
  Path cmd :: drop 1 (Args cmd).

(** The variable is not set, or its value is accepted by the parser. *)
Definition parses {A : Type} (parse : string -> A + error) (str : string)
    : Prop :=
  str = "" \/ exists v, parse str = inl v.

(** The names a comma-separated variable lists. *)
Definition listed (str : string) : list string :=
  if bool_decide (str <> "") then Split str ","%char else [].

End terms.

(** ** More sample values *)
Module fixtures.
Import event supervisor tombstone kubernetes main kubexit.

(** Parsers that accept a few values, as the Go ones do. *)
Global Instance conflib : ConfLib := {|
  time_ParseDuration str :=
    match str with
    | "5s" => inl (5 * time_Second)
    | "1m" => inl (60 * time_Second)
    | _ => inr (errors_New ("time: invalid duration " +:+ str))
    end;
  strconv_Atoi str :=
    match str with
    | "0" => inl 0
    | "1" => inl 1
    | "2" => inl 2
    | _ => inr (errors_New "strconv.Atoi: invalid syntax")
    end;
  strconv_ParseBool str :=
    match str with
    | "1" | "t" | "T" | "TRUE" | "true" | "True" => inl true
    | "0" | "f" | "F" | "FALSE" | "false" | "False" => inl false
    | _ => inr (errors_New "strconv.ParseBool: invalid syntax")
    end;
  filepath_Clean path := if bool_decide (path = "") then "." else path
|}.

(** The environment of a container that waits for "proxy" and dies with
    "db" or "cache". *)
Definition environ : Environ :=
  <["KUBEXIT_NAME" := "app"]>
    (<["KUBEXIT_BIRTH_DEPS" := "proxy"]>
       (<["KUBEXIT_DEATH_DEPS" := "db,cache"]>
          (<["KUBEXIT_POD_NAME" := "pod"]>
             (<["KUBEXIT_NAMESPACE" := "ns"]> ∅)))).

(** Only the name is set. *)
Definition environName : Environ := {["KUBEXIT_NAME" := "app"]}.

(** The pod with "proxy" not ready, and with "proxy" ready. *)
Definition proxyStarting : watch_Event :=
  {| Type_ := Added;
     Object_ := Pod [{| cs_Name := "proxy"; Ready := false |};
                     {| cs_Name := "app"; Ready := false |}] |}.

Definition proxyReady : watch_Event :=
  {| Type_ := Modified;
     Object_ := Pod [{| cs_Name := "proxy"; Ready := true |};
                     {| cs_Name := "app"; Ready := false |}] |}.

(** The birth record cannot be written; the child is killed and exits with
    status 3. *)
Definition envBirthWriteFails : Env :=
  sample.mkEnv [] (inl 42) sample.failIO (WaitState (Exited 3)) sample.okIO
    None.

(** "proxy" never gets ready during the birth wait. *)
Definition envNeverReady : Env :=
  sample.mkEnv [PodEvent proxyStarting] (inl 42) sample.okIO
    (WaitState (Exited 0)) sample.okIO None.

(** A disk that holds the tombstone of a peer. *)
Definition diskWithDb : FS := {["/graveyard/db" := "+p001001;--"]}.

(** A world in which the peer "app" has died: before the child is started,
    and while it runs. *)
Definition peerDied : World :=
  set_fs {["/graveyard/app" := sample.appDied]}
    (newWorld sample.cfgDeath ∅).

Definition peerDiedRunning : World := set_child sample.running peerDied.

(** The tombstone of "app" before its birth is recorded. *)
Definition unborn : Tombstone :=
  {| Context := []; Born := None; Died := None; ExitCode := None;
     Graveyard := "/graveyard"; Name := "app" |}.

(** A write event for that tombstone. *)
Definition writeOfApp : fsnotify_Event :=
  {| ev_Name := "/graveyard/app"; Op := fsnotify_Write |}.

(** A command with a space in an argument. *)
Definition echo : cmdline.Cmd :=
  {| cmdline.Path := "/bin/echo";
     cmdline.Args := ["echo"; "hello world"; "bye"] |}.

Definition sleep : cmdline.Cmd :=
  {| cmdline.Path := "/bin/sleep"; cmdline.Args := ["sleep"; "10"] |}.

End fixtures.

(** ** The supervisor *)
Section Supervisor.
Import event supervisor main props.

Lemma isRunning_exited s : exited s -> isRunning s = false.
Proof.
  intros [_ Hst]. unfold isRunning.
  rewrite (bool_decide_eq_false_2 (cmd_ProcessState s = None)) by done.
  apply andb_false_r.
Qed.

Lemma shutdown_exited r s : exited s -> shutdown r s = (None, s).
Proof.
  intros Hex. destruct r; simpl; unfold ShutdownNow, ShutdownWithTimeout;
    by rewrite (isRunning_exited s Hex).
Qed.

(** C7: once the child has exited (spawned and reaped), any sequence of
    [ShutdownNow] and [ShutdownWithTimeout] calls returns nil every time
    and leaves the supervisor as it was: no signal is sent, whatever the
    timer field holds and however often the calls are repeated. *)
Theorem shutdown_after_exit_noop (s : Supervisor) (rs : list Shutdown) :
  exited s ->
  shutdowns rs s = (replicate (length rs) None, s)
  /\ sent (snd (shutdowns rs s)) = sent s.
Proof.
  intros Hex.
  assert (Heq : shutdowns rs s = (replicate (length rs) None, s)).
  { induction rs as [| r rs IH]; simpl; [done |].
    by rewrite (shutdown_exited r s Hex), IH. }
  by rewrite Heq.
Qed.

Lemma shutdown_after_exit_noop_witness :
  exited sample.reaped
  /\ shutdowns [Force None; Gracefully 30 None; Gracefully 30 None;
                Force (Some (errors_New "no such process"))] sample.reaped
     = ([None; None; None; None], sample.reaped).
Proof.
  assert (Hex : exited sample.reaped) by (split; discriminate).
  split; [exact Hex |].
  exact (proj1 (shutdown_after_exit_noop sample.reaped
                  [Force None; Gracefully 30 None; Gracefully 30 None;
                   Force (Some (errors_New "no such process"))] Hex)).
Defined.

Lemma forward1_sent sg res s :
  sent (forward1 sg res s) = sent s ++ forwarded [(sg, res)].
Proof.
  unfold forward1, forwarded. rewrite filter_cons, filter_nil. simpl.
  repeat case_bool_decide; repeat case_decide; try done;
    destruct res; simpl; by rewrite ?app_nil_r.
Qed.

Lemma forward1_context sg res s :
  context (forward1 sg res s) = context s ++ traced1 (sg, res).
Proof.
  unfold forward1, traced1, trace, AddEvent. simpl.
  repeat case_bool_decide; destruct res; simpl;
    by rewrite ?app_nil_r, <- ?app_assoc.
Qed.

Lemma forwarded_app r1 r2 :
  forwarded (r1 ++ r2) = forwarded r1 ++ forwarded r2.
Proof. unfold forwarded. by rewrite filter_app, fmap_app. Qed.

Lemma forward_sent turns s :
  sent (forward turns s) = sent s ++ forwarded (received turns).
Proof.
  revert s. induction turns as [| [| sg res |] turns IH]; intros s; simpl;
    try by rewrite app_nil_r.
  rewrite IH, forward1_sent, <- app_assoc.
  by rewrite <- forwarded_app.
Qed.

Lemma forward_context turns s :
  context (forward turns s)
  = context s ++ traced (received turns)
    ++ (if stopped turns then [MsgStopPropagation] else []).
Proof.
  revert s. induction turns as [| [| sg res |] turns IH]; intros s; simpl.
  - by rewrite app_nil_r.
  - done.
  - rewrite IH, forward1_context, <- !app_assoc. done.
  - by rewrite app_nil_r.
Qed.

Lemma receipts_app tr1 tr2 :
  receipts (tr1 ++ tr2) = receipts tr1 ++ receipts tr2.
Proof. apply bind_app. Qed.

Lemma forwarded_sig recv :
  sig <$> forwarded recv = filter (fun sg => sg <> SIGCHLD) (recv.*1).
Proof.
  unfold forwarded. induction recv as [| [sg res] recv IH]; [done |].
  rewrite fmap_cons, !filter_cons. simpl.
  case_decide; [rewrite !fmap_cons |]; rewrite IH; done.
Qed.

Lemma receipts_traced recv :
  receipts (traced recv) = filter (fun sg => sg <> SIGURG) (recv.*1).
Proof.
  unfold receipts, traced. induction recv as [| [sg res] recv IH]; [done |].
  rewrite fmap_cons, filter_cons, bind_cons, bind_app, IH. simpl.
  unfold traced1. simpl.
  case_bool_decide; case_decide; try done;
    case_bool_decide; destruct res; done.
Qed.

(** C9: the forwarding loop installed by [Start] passes to the child
    exactly the signals it received, in order, with every CHLD removed; the
    receipt of every signal but URG is recorded in the trace; a URG that is
    delivered adds no trace record at all, and a CHLD sends nothing. *)
Theorem forward_filters_CHLD (turns : list Turn) (s : Supervisor) :
  sig <$> drop (length (sent s)) (sent (forward turns s))
    = filter (fun sg => sg <> SIGCHLD) ((received turns).*1)
  /\ (SIGCHLD ∉ (sig <$> drop (length (sent s)) (sent (forward turns s))))
  /\ receipts (drop (length (context s)) (context (forward turns s)))
     = filter (fun sg => sg <> SIGURG) ((received turns).*1)
  /\ (context (forward1 SIGURG None s) = context s
      /\ sent (forward1 SIGURG None s)
         = sent s ++ [{| origin := Forwarded; sig := SIGURG;
                         delivered := true |}])
  /\ (forall res, sent (forward1 SIGCHLD res s) = sent s).
Proof.
  rewrite forward_sent, forward_context, !drop_app_length.
  rewrite forwarded_sig, receipts_app, receipts_traced.
  split; [done |]. split.
  { intros Hin. apply list_elem_of_filter in Hin. by destruct Hin. }
  split; [by destruct (stopped turns); rewrite app_nil_r |]. split.
  - rewrite forward1_context, forward1_sent. split; [| done].
    apply app_nil_r.
  - intros res. rewrite forward1_sent. apply app_nil_r.
Qed.

End Supervisor.

(** ** The tombstone store *)
Section Tombstone.
Import event tombstone props.
Context `{Lib}.

Lemma substring_all (s : string) (n : nat) :
  (String.length s <= n)%nat -> String.substring 0 n s = s.
Proof.
  revert n. induction s as [| c s IH]; intros [| n] Hn; simpl in *;
    try done; try lia.
  f_equal. apply IH. lia.
Qed.

Lemma substring_length (s : string) (n : nat) :
  String.length (String.substring 0 n s) = (n `min` String.length s)%nat.
Proof.
  revert n. induction s as [| c s IH]; intros [| n]; simpl; try done.
  by rewrite IH.
Qed.

Lemma substring_short (s : string) (n : nat) :
  (n < String.length s)%nat -> String.substring 0 n s <> s.
Proof.
  intros Hn Heq. pose proof (substring_length s n) as Hlen.
  rewrite Heq in Hlen. lia.
Qed.

Lemma Write_ok t io disk doc :
  mkdirAll io = None -> create io = None -> yaml_Marshal t = inl doc ->
  Write t io disk
  = (None, <[Path t := String.substring 0 (written io) doc]> disk).
Proof.
  intros Hm Hc Hy. unfold Write. rewrite Hm, Hc, Hy.
  by rewrite insert_insert_eq.
Qed.

Lemma Write_error t io disk :
  fst (Write t io disk) = None
  <-> mkdirAll io = None /\ create io = None
      /\ exists doc, yaml_Marshal t = inl doc.
Proof.
  unfold Write.
  destruct (mkdirAll io) as [e1 |], (create io) as [e2 |],
    (yaml_Marshal t) as [doc | e3];
    simpl; split; try done; try (intros (? & ? & ? & ?); done).
  intros _. eauto.
Qed.

(** C10: [Write] reports an error exactly when creating the directory,
    creating the file or serializing fails; what [file.Write] managed to
    store has no part in the result.  So, with the directory and the file
    created and the record serialized to [doc], [RecordBirth] and
    [RecordDeath] return nil while the file holds only the first
    [written io] bytes of [doc]: nothing when that is 0, a proper prefix
    when it is less than the length of [doc]. *)
Theorem Write_discards_write_result (t : Tombstone) (io : IO) (disk : FS) :
  (fst (Write t io disk) = None
   <-> mkdirAll io = None /\ create io = None
       /\ exists doc, yaml_Marshal t = inl doc)
  /\ (forall n,
        fst (Write t {| mkdirAll := mkdirAll io; create := create io;
                        written := n |} disk)
        = fst (Write t io disk))
  /\ (forall now code err t' disk' doc,
        (RecordBirth now io t disk = (err, t', disk')
         \/ RecordDeath code now io t disk = (err, t', disk')) ->
        mkdirAll io = None -> create io = None ->
        yaml_Marshal t' = inl doc ->
        err = None
        /\ disk' !! Path t' = Some (String.substring 0 (written io) doc)
        /\ (written io = 0%nat -> disk' !! Path t' = Some "")
        /\ ((written io < String.length doc)%nat ->
            disk' !! Path t' <> Some doc)).
Proof.
  split; [apply Write_error |]. split.
  { intros n. unfold Write. simpl.
    destruct (mkdirAll io), (create io), (yaml_Marshal t); done. }
  intros now code err t' disk' doc Hrec Hm Hc Hy.
  assert (Hw : err = None
               /\ disk'
                  = <[Path t' := String.substring 0 (written io) doc]> disk).
  { destruct Hrec as [Hrec | Hrec];
      unfold RecordBirth, RecordDeath in Hrec;
      match type of Hrec with
      | context [Write ?u io disk] =>
          destruct (Write u io disk) as [e d] eqn:Hwr;
          assert (Hu : u = t') by (destruct e; by inversion Hrec);
          rewrite Hu in Hwr; rewrite (Write_ok t' io disk doc Hm Hc Hy) in Hwr;
          inversion Hwr; subst e d; by inversion Hrec
      end. }
  destruct Hw as [-> ->]. rewrite lookup_insert_eq.
  split; [done |]. split; [done |]. split.
  - intros ->. by destruct doc.
  - intros Hlt [= Heq]. by apply (substring_short doc (written io)).
Qed.


End Tombstone.

(** ** The sample codec keeps the codec's promise *)
Section Sample.
Import event tombstone sample.

Lemma dec_enc_pos p rest : dec_pos (enc_pos p +:+ rest) = Some (p, rest).
Proof.
  induction p as [q IH | q IH |]; simpl; [rewrite IH | rewrite IH |]; done.
Qed.

Lemma dec_enc_Z z rest : dec_Z (enc_Z z +:+ rest) = Some (z, rest).
Proof. destruct z; simpl; [done | |]; by rewrite dec_enc_pos. Qed.

Lemma dec_enc_field o rest :
  dec_field (enc_field o +:+ rest) = Some (o, rest).
Proof. destruct o as [z |]; simpl; [by rewrite dec_enc_Z | done]. Qed.

Lemma append_nil_r (s : string) : s +:+ "" = s.
Proof.
  induction s as [| c s IH]; [done |].
  change (String c (s +:+ "") = String c s). by rewrite IH.
Qed.

Lemma marshal_cons t : exists c s, marshal t = String c s.
Proof. unfold marshal. destruct (Born t); simpl; eauto. Qed.

Lemma unmarshal_marshal_sample t t0 :
  unmarshal (marshal t) t0 = inl (overlay t t0).
Proof.
  unfold unmarshal.
  destruct (marshal_cons t) as (c & s & Hm). rewrite Hm, <- Hm.
  unfold marshal.
  rewrite dec_enc_field, dec_enc_field.
  rewrite <- (append_nil_r (enc_field (ExitCode t))), dec_enc_field.
  by destruct t.
Qed.

Global Instance sample_laws : LibLaws.
Proof. split. intros t doc t0 [= <-]. apply unmarshal_marshal_sample. Qed.




End Sample.

(** ** The engine *)

(** Membership in a list of calls that is written out. *)
Ltac elem_of_calls :=
  repeat match goal with H : _ ∈ _ |- _ => revert H end;
  rewrite ?elem_of_app, ?elem_of_cons, ?elem_of_nil;
  intuition (discriminate || eauto).

Section Engine.
Import event supervisor tombstone kubernetes main props.
Context `{Lib}.

Lemma Wait_returns os s :
  sigCh s <> Some ChanClosed -> exists err c, Wait os s = Some (err, c).
Proof.
  intros Hch. unfold Wait. destruct (cmd_Wait os s) as [err s'] eqn:Hw.
  assert (Hs : sigCh s' = sigCh s).
  { unfold cmd_Wait in Hw. repeat case_match; simplify_eq; done. }
  rewrite Hs. destruct (sigCh s) as [[] |]; eauto. done.
Qed.

(** C5: [waitForChildExit] always yields a code (here: whenever [Wait] does
    not panic on a closed channel, which it cannot on its first call): the
    status carried by a typed exit error, -1 for any other error, 0 for
    nil. *)
Theorem exit_code_capture (os : OsWait) (w : World) :
  sigCh (child w) <> Some ChanClosed ->
  exists err c code,
    Wait os (child w) = Some (err, c)
    /\ waitForChildExit os w = Some (code, set_child c (call CallWait w))
    /\ (forall status, err = Some (ExitError (Exited status)) -> code = status)
    /\ (forall ps, err = Some (ExitError ps) -> code = ProcessState_ExitCode ps)
    /\ (forall e, err = Some e -> (forall ps, e <> ExitError ps) -> code = -1)
    /\ (err = None -> code = 0).
Proof.
  intros Hch. destruct (Wait_returns os (child w) Hch) as (err & c & Hw).
  exists err, c, (exitCodeOf err). unfold waitForChildExit. rewrite Hw.
  split; [done |]. split; [done |].
  repeat split.
  - by intros status ->.
  - by intros ps ->.
  - intros e -> Hne. destruct e; try done. by destruct (Hne ps).
  - by intros ->.
Qed.

Lemma exit_code_capture_witness :
  sigCh (child (set_child sample.running (newWorld sample.cfg ∅)))
    <> Some ChanClosed
  /\ exists c,
       waitForChildExit (WaitState (Exited 3))
         (set_child sample.running (newWorld sample.cfg ∅))
       = Some (3, set_child c
                    (call CallWait
                       (set_child sample.running (newWorld sample.cfg ∅)))).
Proof.
  assert (Hch : sigCh (child (set_child sample.running
                                (newWorld sample.cfg ∅)))
                <> Some ChanClosed) by discriminate.
  split; [exact Hch |].
  destruct (exit_code_capture (WaitState (Exited 3)) _ Hch)
    as (err & c & code & Hw & Hc & Hst & _).
  exists c. rewrite Hc. do 2 f_equal.
  apply Hst. vm_compute in Hw. by inversion Hw.
Defined.

Lemma ShutdownNow_sigCh res s : sigCh (ShutdownNow res s).2 = sigCh s.
Proof.
  unfold ShutdownNow, Process_Signal.
  destruct (isRunning s), res; done.
Qed.

(** What [fatalf] does, case by case. *)
Lemma fatalf_cases (env : Env) (err : error) (w : World) :
  sigCh (child w) <> Some ChanClosed ->
  exists w' msgs traces,
    fatalf env err w = Some (1, w')
    /\ logger w'
       = logger w ++ [LogError (Some (foldl errors_Wrap err msgs)) traces]
    /\ ((exists stopError c,
           ShutdownNow (killRes env) (child w) = (Some stopError, c)
           /\ isRunning (child w) = true
           /\ calls w' = calls w ++ [CallShutdownNow]
           /\ fs w' = fs w /\ ts w' = ts w
           /\ head msgs = Some (Error stopError))
        \/ (exists c werr c' t,
              ShutdownNow (killRes env) (child w) = (None, c)
              /\ Wait (waitRes env) c = Some (werr, c')
              /\ calls w'
                 = calls w ++ [CallShutdownNow; CallWait;
                               CallRecordDeath (exitCodeOf werr) t]
              /\ ts w' = t
              /\ Born t = Born (ts w) /\ Died t = Some (deathTime env)
              /\ ExitCode t = Some (exitCodeOf werr)
              /\ (forall e,
                    fst (Write t (deathIO env) (fs w)) = Some e ->
                    head msgs
                    = Some (Error
                              (errors_WithStack
                                 (fmt_Errorf "failed to update tombstone"
                                    e)))))).
Proof.
  intros Hch. unfold fatalf.
  destruct (ShutdownNow (killRes env) (child w)) as [stopError c] eqn:Hstop.
  pose proof (ShutdownNow_sigCh (killRes env) (child w)) as Hc.
  rewrite Hstop in Hc. simpl in Hc.
  destruct stopError as [stopError |].
  - assert (Hrun : isRunning (child w) = true).
    { unfold ShutdownNow in Hstop. by destruct (isRunning (child w)). }
    unfold deferred.
    destruct (serializeEventTraces env) as [err2 |];
      [eexists _, [Error stopError; Error err2], false
      | eexists _, [Error stopError], true];
      (split; [done |]); (split; [done |]);
      left; exists stopError, c; done.
  - destruct (Wait_returns (waitRes env) c) as (werr & c' & Hw);
      [by rewrite Hc |].
    unfold waitForChildExit. simpl. rewrite Hw.
    unfold recordDeath, RecordDeath. simpl.
    match goal with
    | |- context [Write ?u (deathIO env) (fs w)] =>
        set (t := u);
        destruct (Write t (deathIO env) (fs w)) as [rerr disk] eqn:Hwr
    end.
    unfold deferred.
    destruct rerr as [rerr |], (serializeEventTraces env) as [err2 |];
      [ eexists _, [Error (errors_WithStack
                             (fmt_Errorf "failed to update tombstone" rerr));
                    Error err2], false
      | eexists _, [Error (errors_WithStack
                             (fmt_Errorf "failed to update tombstone" rerr))],
          true
      | eexists _, [Error err2], false
      | eexists _, [], true ];
      (split; [done |]); (split; [done |]);
      right; exists c, werr, c', t; simpl;
      rewrite <- ?app_assoc; repeat (split; [done |]);
      intros e; rewrite Hwr; simpl; intros ?; by simplify_eq.
Qed.

Lemma Wait_running os s pid :
  cmd_Process s = Some pid -> cmd_finished s = false ->
  sigCh s = Some ChanOpen ->
  exists c, Wait os s = Some (waitError os, c).
Proof.
  intros Hp Hf Hc. unfold Wait, cmd_Wait. rewrite Hp, Hf.
  destruct os as [ps | e]; simpl; [destruct (Success ps) |];
    simpl; rewrite Hc; eauto.
Qed.

Lemma Write_fst t io d1 d2 : fst (Write t io d1) = fst (Write t io d2).
Proof. unfold Write. by repeat case_match. Qed.

Lemma fatalf_unstarted env err w :
  cmd_Process (child w) = None -> sigCh (child w) = None ->
  logger w = [] ->
  exists w' t,
    fatalf env err w = Some (1, w')
    /\ calls w' = calls w ++ [CallShutdownNow; CallWait; CallRecordDeath (-1) t]
    /\ fatalLogged (logger w')
    /\ Born t = Born (ts w) /\ Died t = Some (deathTime env)
    /\ ExitCode t = Some (-1).
Proof.
  intros Hp Hch Hlog.
  destruct (fatalf_cases env err w) as (w' & msgs & tr & Hf & Hl & Hc);
    [by rewrite Hch |].
  rewrite Hlog in Hl.
  assert (Hfl : fatalLogged (logger w')) by (rewrite Hl; by eexists _, _).
  exists w'.
  destruct Hc as [(? & ? & _ & Hrun & _)
                 | (c & werr & c' & t & Hs & Hw & Hcalls & Hts & Hb & Hd & He
                    & _)].
  { unfold isRunning in Hrun. rewrite Hp in Hrun. done. }
  assert (c = child w) as ->.
  { unfold ShutdownNow, isRunning in Hs. rewrite Hp in Hs. simpl in Hs.
    by simplify_eq. }
  assert (werr = Some (errors_New "exec: not started")) as ->.
  { unfold Wait, cmd_Wait in Hw. rewrite Hp, Hch in Hw. by simplify_eq. }
  by exists t.
Qed.

Lemma fatalf_running env err w pid :
  cmd_Process (child w) = Some pid -> cmd_finished (child w) = false ->
  sigCh (child w) = Some ChanOpen ->
  logger w = [] ->
  exists w' tail,
    fatalf env err w = Some (1, w')
    /\ calls w' = calls w ++ CallShutdownNow :: tail
    /\ fatalLogged (logger w')
    /\ (tail = []
        \/ exists t,
             tail = [CallWait;
                     CallRecordDeath (exitCodeOf (waitError (waitRes env))) t]
             /\ Born t = Born (ts w) /\ Died t = Some (deathTime env)
             /\ ExitCode t = Some (exitCodeOf (waitError (waitRes env)))).
Proof.
  intros Hp Hfin Hch Hlog.
  destruct (fatalf_cases env err w) as (w' & msgs & tr & Hf & Hl & Hc);
    [by rewrite Hch |].
  rewrite Hlog in Hl.
  assert (Hfl : fatalLogged (logger w')) by (rewrite Hl; by eexists _, _).
  exists w'.
  destruct Hc as [(? & ? & _ & _ & Hcalls & _)
                 | (c & werr & c' & t & Hs & Hw & Hcalls & _ & Hb & Hd & He
                    & _)].
  { exists []. split; [done |]. split; [done |]. split; [done |]. by left. }
  assert (Hc : cmd_Process c = Some pid /\ cmd_finished c = false
               /\ sigCh c = Some ChanOpen).
  { unfold ShutdownNow, Process_Signal in Hs.
    destruct (isRunning (child w)), (killRes env); simplify_eq/=; done. }
  destruct Hc as (Hp' & Hfin' & Hch').
  destruct (Wait_running (waitRes env) c pid Hp' Hfin' Hch') as (c'' & Hw').
  rewrite Hw' in Hw. simplify_eq.
  eexists. split; [done |]. split; [done |]. split; [done |].
  right. by exists t.
Qed.

(** Every run of [runApp] returns, along one of the courses. *)
Lemma runApp_course cfg env disk :
  exists code w,
    runApp cfg env disk = Some (code, w)
    /\ Course cfg env disk code (calls w) (logger w).
Proof.
  unfold runApp.
  case_bool_decide as Hargs.
  { eexists _, _. split; [done |]. by constructor. }
  set (w0 := newWorld cfg disk).
  (* the graveyard watch *)
  set (wr := if bool_decide (0 < length (config_DeathDeps cfg))%nat
             then (Watch (newWatcher env) (addWatch env), call CallWatch w0)
             else (None, w0)).
  assert (Hwr : exists pre1, Forall setup pre1
            /\ wr.2 = {| fs := disk; ts := ts w0; child := New [];
                         deathWatcher := []; birthWatcher := [];
                         graveyardWatcherStopped := false; logger := [];
                         calls := pre1 |}
            /\ wr.1 = watchResult cfg env).
  { subst wr. unfold watchResult. case_bool_decide.
    - exists [CallWatch]. split; [| done]. apply Forall_singleton. by left.
    - exists []. split; [| done]. constructor. }
  destruct Hwr as (pre1 & Hpre1 & Hw1 & Herr1).
  destruct wr as [err1 w1]. simpl in Hw1, Herr1. subst w1.
  destruct err1 as [err1 |].
  { match goal with |- context [fatalf env ?e ?w] =>
      destruct (fatalf_unstarted env e w)
        as (w' & t & -> & Hc & Hl & Hb & Hd & He); [done | done | done |] end.
    eexists _, _. split; [done |]. rewrite Hc.
    apply FatalBeforeStart; try done. left. by rewrite <- Herr1. }
  (* the birth wait *)
  match goal with
  | |- context [if bool_decide (0 < length (config_BirthDeps cfg))%nat
                then ?a else ?b] =>
      set (br := if bool_decide (0 < length (config_BirthDeps cfg))%nat
                 then a else b)
  end.
  assert (Hbr : exists pre2 tr, Forall setup pre2
            /\ br.2 = {| fs := disk; ts := ts w0; child := New [];
                         deathWatcher := []; birthWatcher := tr;
                         graveyardWatcherStopped := false; logger := [];
                         calls := pre2 |}
            /\ br.1 = birthResult cfg env).
  { subst br. unfold birthResult. case_bool_decide.
    - simpl. destruct (waitForBirthDeps _ _ _ _ _ _) as [e tr].
      exists (pre1 ++ [CallWaitForBirthDeps]), tr. split; [| done].
      apply Forall_app. split; [done |]. apply Forall_singleton. by right.
    - exists pre1, []. done. }
  destruct Hbr as (pre2 & tr & Hpre2 & Hw2 & Herr2).
  destruct br as [err2 w2]. simpl in Hw2, Herr2. subst w2.
  destruct err2 as [err2 |].
  { match goal with |- context [fatalf env ?e ?w] =>
      destruct (fatalf_unstarted env e w)
        as (w' & t & -> & Hc & Hl & Hb & Hd & He); [done | done | done |] end.
    eexists _, _. split; [done |]. rewrite Hc.
    apply FatalBeforeStart; try done. right. by rewrite <- Herr2. }
  (* child.Start() *)
  unfold Start, cmd_Start. simpl.
  destruct (startRes env) as [pid | serr] eqn:Hstart; simpl.
  2:{ match goal with |- context [fatalf env ?e ?w] =>
        destruct (fatalf_unstarted env e w)
          as (w' & t & -> & Hc & Hl & Hb & Hd & He);
          [done | done | done |] end.
      eexists _, _. split; [done |]. rewrite Hc. simpl.
      rewrite <- app_assoc. by eapply FatalAtStart. }
  (* ts.RecordBirth() *)
  unfold recordBirth, RecordBirth. simpl.
  match goal with |- context [Write ?u (birthIO env) disk] =>
    set (tb := u);
    destruct (Write tb (birthIO env) disk) as [berr disk1] eqn:Hwb end.
  destruct berr as [berr |].
  { match goal with |- context [fatalf env ?e ?w] =>
      destruct (fatalf_running env e w pid)
        as (w' & tail & -> & Hc & Hl & Ht);
      [done | done | done | done |] end.
    eexists _, _. split; [done |]. rewrite Hc. simpl.
    rewrite <- !app_assoc.
    eapply (FatalAtBirth _ _ _ _ pid tb tail); try done.
    by rewrite Hwb. }
  (* child.Wait() and ts.RecordDeath(code) *)
  unfold waitForChildExit. simpl.
  match goal with |- context [Wait (waitRes env) ?c] =>
    destruct (Wait_running (waitRes env) c pid) as (c' & ->);
    [done | done | done |] end.
  unfold recordDeath, RecordDeath. simpl.
  match goal with |- context [Write ?u (deathIO env) disk1] =>
    set (td := u);
    destruct (Write td (deathIO env) disk1) as [derr disk2] eqn:Hwd end.
  pose proof (Write_fst td (deathIO env) disk disk1) as Hfst.
  rewrite Hwd in Hfst. simpl in Hfst.
  assert (Hshape : forall code logs,
    ((exists e,
        fst (Write td (deathIO env) disk) = Some e /\ code = 2
        /\ logs = [LogError
                     (Some (errors_WithStack
                              (fmt_Errorf "failed to update tombstone" e)))
                     false])
     \/ (fst (Write td (deathIO env) disk) = None
         /\ 0 < config_VerboseLevel cfg /\ fireErr env <> None /\ code = 2
         /\ logs = [LogError None false])
     \/ (fst (Write td (deathIO env) disk) = None
         /\ ~ (0 < config_VerboseLevel cfg /\ fireErr env <> None)
         /\ code = exitCodeOf (waitError (waitRes env))
         /\ (logs = []
             \/ logs = [LogInfo "supervising proceed successfully"]))) ->
    Course cfg env disk code
      ((((pre2 ++ [CallStart]) ++ [CallRecordBirth tb]) ++ [CallWait])
       ++ [CallRecordDeath (exitCodeOf (waitError (waitRes env))) td]) logs).
  { intros code logs Hcode. rewrite <- !app_assoc. simpl.
    eapply (Supervised _ _ _ _ pid tb td); try done. by rewrite Hwb. }
  destruct derr as [derr |].
  { eexists _, _. split; [done |]. apply Hshape. left. exists derr.
    by rewrite Hfst. }
  case_bool_decide as Hv.
  - unfold serializeEventTraces.
    destruct (fireErr env) as [ferr |] eqn:Hfire.
    + eexists _, _. split; [done |]. apply Hshape.
      right; left. by rewrite Hfst.
    + eexists _, _. split; [done |]. apply Hshape.
      do 2 right. rewrite Hfst. split; [done |]. split; [by intros [_ ?] |].
      split; [done |]. by right.
  - eexists _, _. split; [done |]. apply Hshape.
    do 2 right. rewrite Hfst. split; [done |]. split; [by intros [? _] |].
    split; [done |]. by left.
Qed.

Lemma ShutdownNow_kills res s c :
  ShutdownNow res s = (None, c) -> isRunning s = true ->
  res = None
  /\ sent c = sent s ++ [{| origin := Forced; sig := SIGKILL;
                            delivered := true |}].
Proof.
  unfold ShutdownNow, Process_Signal. intros Hs Hrun. rewrite Hrun in Hs.
  destruct res; by simplify_eq/=.
Qed.

(** C4, as the code has it: [fatalf] always returns 1 and logs the original
    error with the later ones wrapped around it.  When the child runs and
    cannot be killed it returns at once, with neither wait nor death
    record.  Otherwise the child, if it runs, has received KILL; [fatalf]
    waits for it and then records the death with the code captured from
    what [Wait] returned, whether or not that record can be written: the
    record's error is wrapped into the logged one. *)
Theorem fatalf_exit_code (env : Env) (err : error) (w : World) :
  sigCh (child w) <> Some ChanClosed ->
  exists w' msgs traces,
    fatalf env err w = Some (1, w')
    /\ logger w'
       = logger w ++ [LogError (Some (foldl errors_Wrap err msgs)) traces]
    /\ ((exists stopError c,
           ShutdownNow (killRes env) (child w) = (Some stopError, c)
           /\ isRunning (child w) = true
           /\ calls w' = calls w ++ [CallShutdownNow]
           /\ fs w' = fs w /\ ts w' = ts w
           /\ head msgs = Some (Error stopError))
        \/ (exists c werr c' t,
              ShutdownNow (killRes env) (child w) = (None, c)
              /\ (isRunning (child w) = true ->
                  sent c = sent (child w)
                           ++ [{| origin := Forced; sig := SIGKILL;
                                  delivered := true |}])
              /\ (isRunning (child w) = false -> c = child w)
              /\ Wait (waitRes env) c = Some (werr, c')
              /\ calls w'
                 = calls w ++ [CallShutdownNow; CallWait;
                               CallRecordDeath (exitCodeOf werr) t]
              /\ ts w' = t
              /\ Born t = Born (ts w) /\ Died t = Some (deathTime env)
              /\ ExitCode t = Some (exitCodeOf werr)
              /\ (forall e,
                    fst (Write t (deathIO env) (fs w)) = Some e ->
                    head msgs
                    = Some (Error
                              (errors_WithStack
                                 (fmt_Errorf "failed to update tombstone"
                                    e)))))).
Proof.
  intros Hch.
  destruct (fatalf_cases env err w Hch)
    as (w' & msgs & traces & Hf & Hlog & Hcases).
  exists w', msgs, traces. split; [done |]. split; [done |].
  destruct Hcases as [Hkill | (c & werr & c' & t & Hs & Hw & Hrest)].
  - by left.
  - right. exists c, werr, c', t. split; [done |]. split; [| split].
    + intros Hrun. by destruct (ShutdownNow_kills _ _ _ Hs Hrun).
    + intros Hrun. unfold ShutdownNow in Hs. rewrite Hrun in Hs.
      by simplify_eq/=.
    + done.
Qed.

Lemma records_setup pre : Forall setup pre -> records pre = [].
Proof.
  unfold records. induction 1 as [| c pre [-> | ->] _ IH]; [done | |];
    by rewrite bind_cons, IH.
Qed.

Lemma setup_not_elem pre c :
  Forall setup pre -> ~ setup c -> c ∉ pre.
Proof.
  intros Hpre Hc Hin. rewrite Forall_forall in Hpre. by apply Hc, Hpre.
Qed.

Lemma last_app_cons {A} (l1 l2 : list A) (x : A) :
  last (l1 ++ l2 ++ [x]) = Some x.
Proof. by rewrite app_assoc, last_snoc. Qed.

(** C1, as the code has it: in every run in which the child was waited
    for, a death record with the captured code [n] is attempted last, and
    [n] comes from what [Wait] returned: the child's own code when the
    child was started (a birth record was attempted), and -1, the code of
    "exec: not started", when it was not.  On the fatal path the engine
    returns 1.  On the normal path, if the death record cannot be written
    the engine logs the error and returns 2, not [n]; otherwise it returns
    2 when the traces are to be emitted and cannot be serialized, and [n]
    in every other case. *)
Theorem runApp_exit_code (cfg : config) (env : Env) (disk : FS) :
  exists code w,
    runApp cfg env disk = Some (code, w)
    /\ (CallWait ∈ calls w ->
        exists n t,
          last (calls w) = Some (CallRecordDeath n t)
          /\ ExitCode t = Some n
          /\ ((exists tb, CallRecordBirth tb ∈ calls w) ->
              n = exitCodeOf (waitError (waitRes env)))
          /\ ((forall tb, CallRecordBirth tb ∉ calls w) ->
              n = exitCodeOf (Some (errors_New "exec: not started")))
          /\ (code = n \/ code = 1 \/ code = 2)
          /\ (CallShutdownNow ∈ calls w -> code = 1)
          /\ (CallShutdownNow ∉ calls w ->
              n = exitCodeOf (waitError (waitRes env))
              /\ (forall e,
                    fst (Write t (deathIO env) disk) = Some e ->
                    code = 2
                    /\ logger w
                       = [LogError
                            (Some (errors_WithStack
                                     (fmt_Errorf "failed to update tombstone"
                                        e)))
                            false])
              /\ (fst (Write t (deathIO env) disk) = None ->
                  (0 < config_VerboseLevel cfg /\ fireErr env <> None ->
                   code = 2)
                  /\ (~ (0 < config_VerboseLevel cfg
                         /\ fireErr env <> None) ->
                      code = n)))).
Proof.
  destruct (runApp_course cfg env disk) as (code & w & Hrun & Hcourse).
  exists code, w. split; [done |]. intros Hwait.
  destruct Hcourse as
    [ Hargs
    | pre t logs Hpre _ Hb Hd He _
    | pre t e logs Hpre _ _ _ Hb Hd He _
    | pre pid tb tail logs Hpre _ _ _ _ _ _
        [-> | (t & -> & Hb & Hd & He)] _
    | pre pid tb t code logs Hpre _ _ _ _ _ _ Hb Hd He Hcode ].
  - by apply elem_of_nil in Hwait.
  - exists (-1), t. split; [apply (last_app_cons pre [_; _]) |].
    split; [done |]. split; [| split; [done |]].
    { intros [tb Hin]. exfalso. apply elem_of_app in Hin as [Hin | Hin].
      - by apply (setup_not_elem pre (CallRecordBirth tb) Hpre);
          [intros [|] |].
      - elem_of_calls. }
    split; [by right; left |]. split; [done |].
    intros Hno. destruct Hno. elem_of_calls.
  - exists (-1), t. split; [apply (last_app_cons pre [_; _; _]) |].
    split; [done |]. split; [| split; [done |]].
    { intros [tb Hin]. exfalso. apply elem_of_app in Hin as [Hin | Hin].
      - by apply (setup_not_elem pre (CallRecordBirth tb) Hpre);
          [intros [|] |].
      - elem_of_calls. }
    split; [by right; left |]. split; [done |].
    intros Hno. destruct Hno. elem_of_calls.
  - exfalso. rewrite app_nil_r in Hwait.
    apply elem_of_app in Hwait as [Hin | Hin].
    + by apply (setup_not_elem pre CallWait Hpre); [intros [|] |].
    + elem_of_calls.
  - exists (exitCodeOf (waitError (waitRes env))), t.
    split; [apply (last_app_cons pre [_; _; _; _]) |].
    split; [done |]. split; [done |]. split.
    { intros Hno. destruct (Hno tb). elem_of_calls. }
    split; [by right; left |]. split; [done |].
    intros Hno. destruct Hno. elem_of_calls.
  - exists (exitCodeOf (waitError (waitRes env))), t.
    split; [apply (last_app_cons pre [_; _; _]) |].
    split; [done |]. split; [done |]. split.
    { intros Hno. destruct (Hno tb). elem_of_calls. }
    split; [destruct Hcode as [(e & _ & -> & _)
                              | [(_ & _ & _ & -> & _) | (_ & _ & -> & _)]];
            auto |].
    split.
    + intros Hin. exfalso. apply elem_of_app in Hin as [Hin | Hin].
      * by apply (setup_not_elem pre CallShutdownNow Hpre); [intros [|] |].
      * elem_of_calls.
    + intros _. split; [done |].
      destruct Hcode as [(e & Hw & -> & ->)
                        | [(Hw & Hv & Hf & -> & _) | (Hw & Hnv & -> & _)]].
      * split; [intros e' He'; rewrite He' in Hw; by simplify_eq |].
        intros Hok. by rewrite Hok in Hw.
      * split; [intros e' He'; by rewrite He' in Hw |].
        intros _. split; [done |]. intros Hnot. by destruct Hnot.
      * split; [intros e' He'; by rewrite He' in Hw |].
        intros _. split; [| done]. intros Hboth. by destruct Hnv.
Qed.

Lemma awaitDone_done birthDeps podName events podWatch ctx e :
  ctx_Err ctx = Some e ->
  awaitDone birthDeps podName events podWatch ctx = ctx.
Proof. intros He. destruct events; simpl; by rewrite He. Qed.

Lemma waitForBirthDeps_TERM birthDeps podName timeout rest tr :
  fst (waitForBirthDeps birthDeps podName timeout None (TermSignal :: rest) tr)
  = None.
Proof.
  unfold waitForBirthDeps. simpl.
  by rewrite (awaitDone_done _ _ _ _ _ Canceled).
Qed.

(** C2, what the code does instead: when TERM arrives during the birth wait
    before the birth deps are ready, the wait is cancelled and
    [waitForBirthDeps] returns nil as it does when they are ready; [runApp]
    goes on, calls [child.Start()] and, if the child starts, writes the
    birth tombstone. *)
Theorem TERM_during_birth_wait_starts_child (cfg : config) (env : Env)
    (disk : FS) (rest : list BirthEvent) :
  length (args env) <> 0%nat ->
  watchResult cfg env = None ->
  (0 < length (config_BirthDeps cfg))%nat ->
  WatchPod (inClusterConfig env) (newForConfig env) = None ->
  birthEvents env = TermSignal :: rest ->
  exists code w,
    runApp cfg env disk = Some (code, w)
    /\ birthResult cfg env = None
    /\ CallStart ∈ calls w
    /\ (forall pid, startRes env = inl pid ->
          exists tb, CallRecordBirth tb ∈ calls w
                     /\ Born tb = Some (birthTime env)).
Proof.
  intros Hargs Hwatch Hdeps Hpod Hev.
  assert (Hbirth : birthResult cfg env = None).
  { unfold birthResult. rewrite bool_decide_eq_true_2 by done.
    rewrite Hpod, Hev. apply waitForBirthDeps_TERM. }
  destruct (runApp_course cfg env disk) as (code & w & Hrun & Hcourse).
  exists code, w. split; [done |]. split; [done |].
  destruct Hcourse as
    [ Hno
    | pre t logs _ [Hw | Hb] _ _ _ _
    | pre t e logs _ _ _ Hstart _ _ _ _
    | pre pid tb tail logs _ _ _ Hstart Hb _ _ _ _
    | pre pid tb t code logs _ _ _ Hstart Hb _ _ _ _ _ _ ]; try done.
  - split; [elem_of_calls |]. intros pid. by rewrite Hstart.
  - split; [elem_of_calls |]. intros _ _. exists tb.
    split; [elem_of_calls | done].
  - split; [elem_of_calls |]. intros _ _. exists tb.
    split; [elem_of_calls | done].
Qed.

Lemma records_app cs1 cs2 :
  records (cs1 ++ cs2) = records cs1 ++ records cs2.
Proof. apply bind_app. Qed.

(** C3, as the code has it: the records handed to [Write] during a run
    have their ([Born], [Died]) pairs in one of four sequences: none; birth
    only; birth, then death with the same [Born]; or, when the engine
    fails before it records a birth, a single death record whose [Born] is
    unset.  With a clock that does not go back, every record with [Died]
    set therefore has [Born] set and not after [Died], except that single
    record of the fatal path. *)
Theorem tombstone_records (cfg : config) (env : Env) (disk : FS) :
  birthTime env <= deathTime env ->
  exists code w,
    runApp cfg env disk = Some (code, w)
    /\ (let b := birthTime env in
        let d := deathTime env in
        let pairs := (fun t => (Born t, Died t)) <$> records (calls w) in
        pairs = []
        \/ pairs = [(Some b, None)]
        \/ pairs = [(Some b, None); (Some b, Some d)]
        \/ (pairs = [(None, Some d)] /\ code = 1
            /\ forall tb, CallRecordBirth tb ∉ calls w))
    /\ (forall t died,
          t ∈ records (calls w) -> Died t = Some died ->
          (exists born, Born t = Some born /\ born <= died)
          \/ (Born t = None /\ code = 1
              /\ forall tb, CallRecordBirth tb ∉ calls w)).
Proof.
  intros Hclock.
  destruct (runApp_course cfg env disk) as (code & w & Hrun & Hcourse).
  exists code, w. split; [done |].
  destruct Hcourse as
    [ Hargs
    | pre t logs Hpre _ Hb Hd He _
    | pre t e logs Hpre _ _ _ Hb Hd He _
    | pre pid tb tail logs Hpre _ _ _ Hbb Hbd _
        [-> | (t & -> & Hb & Hd & He)] _
    | pre pid tb t code logs Hpre _ _ _ Hbb Hbd _ Hb Hd He _ ];
    rewrite ?records_app, ?(records_setup pre Hpre); simpl;
    rewrite ?Hb, ?Hd, ?Hbb, ?Hbd.
  - split; [by left |]. intros t died Hin. elem_of_calls.
  - assert (Hnever : forall tb,
              CallRecordBirth tb
              ∉ pre ++ [CallShutdownNow; CallWait; CallRecordDeath (-1) t]).
    { intros tb Hin. apply elem_of_app in Hin as [Hin | Hin];
        [by apply (setup_not_elem pre _ Hpre) in Hin; [| intros [|]]
        | elem_of_calls]. }
    split; [by do 3 right |].
    intros t' died Hin Hdied. right.
    apply list_elem_of_singleton in Hin as ->. done.
  - assert (Hnever : forall tb,
              CallRecordBirth tb
              ∉ pre ++ [CallStart; CallShutdownNow; CallWait;
                        CallRecordDeath (-1) t]).
    { intros tb Hin. apply elem_of_app in Hin as [Hin | Hin];
        [by apply (setup_not_elem pre _ Hpre) in Hin; [| intros [|]]
        | elem_of_calls]. }
    split; [by do 3 right |].
    intros t' died Hin Hdied. right.
    apply list_elem_of_singleton in Hin as ->. done.
  - split; [by right; left |].
    intros t' died Hin Hdied.
    apply list_elem_of_singleton in Hin as ->. congruence.
  - split; [by do 2 right; left |].
    intros t' died Hin Hdied. left.
    apply elem_of_cons in Hin as [-> | Hin]; [congruence |].
    apply list_elem_of_singleton in Hin as ->.
    exists (birthTime env). split; [done |]. congruence.
  - split; [by do 2 right; left |].
    intros t' died Hin Hdied. left.
    apply elem_of_cons in Hin as [-> | Hin]; [congruence |].
    apply list_elem_of_singleton in Hin as ->.
    exists (birthTime env). split; [done |]. congruence.
Qed.

(** *** The ON_DEATH handler and the graceful shutdown *)

Lemma once_step s s' :
  gracefulShutdowns s' = gracefulShutdowns s ->
  (shutdownTimer s' = None -> shutdownTimer s = None) ->
  once s -> once s'.
Proof. intros Hg Ht [Hlen Hnil]. split; rewrite Hg; auto. Qed.

Lemma gracefulShutdowns_signal o sg res s :
  gracefulShutdowns (Process_Signal o sg res s).2
  = gracefulShutdowns s
    ++ (if decide (o = Graceful /\ res = None)
        then [{| origin := o; sig := sg; delivered := true |}] else []).
Proof.
  unfold gracefulShutdowns, Process_Signal. simpl.
  rewrite filter_app, filter_cons, filter_nil. simpl. f_equal.
  destruct res as [e |], o; simpl; repeat case_decide; try done;
    exfalso; intuition congruence.
Qed.

Lemma gracefulShutdowns_Start res s :
  gracefulShutdowns (Start res s).2 = gracefulShutdowns s
  /\ shutdownTimer (Start res s).2 = shutdownTimer s.
Proof.
  unfold Start, cmd_Start. simpl.
  destruct (cmd_Process s), res; done.
Qed.

Lemma gracefulShutdowns_Wait os s err c :
  Wait os s = Some (err, c) ->
  gracefulShutdowns c = gracefulShutdowns s
  /\ (shutdownTimer c = None -> shutdownTimer s = None).
Proof.
  unfold Wait, cmd_Wait. intros Hw.
  destruct (cmd_Process s), (cmd_finished s), os as [ps | e];
    simpl in Hw; try destruct (Success ps); simpl in Hw;
    destruct (sigCh s) as [[] |]; simplify_eq/=;
    (split; [done |]); by destruct (shutdownTimer s).
Qed.

Lemma gracefulShutdowns_ShutdownNow res s :
  gracefulShutdowns (ShutdownNow res s).2 = gracefulShutdowns s
  /\ shutdownTimer (ShutdownNow res s).2 = shutdownTimer s.
Proof.
  unfold ShutdownNow. destruct (isRunning s); simpl; [| done].
  pose proof (gracefulShutdowns_signal Forced SIGKILL res s) as Hg.
  rewrite decide_False in Hg by (by intros [? _]).
  rewrite app_nil_r in Hg. unfold Process_Signal in *.
  destruct res; done.
Qed.

Lemma gracefulShutdowns_forward1 sg res s :
  gracefulShutdowns (forward1 sg res s) = gracefulShutdowns s
  /\ shutdownTimer (forward1 sg res s) = shutdownTimer s.
Proof.
  unfold forward1.
  set (s1 := if bool_decide (sg <> SIGURG)
             then trace (MsgReceivedSignal sg) s else s).
  assert (Hs1 : gracefulShutdowns s1 = gracefulShutdowns s
                /\ shutdownTimer s1 = shutdownTimer s)
    by (subst s1; by case_bool_decide).
  destruct Hs1 as [Hg1 Ht1]. case_bool_decide; [done |].
  pose proof (gracefulShutdowns_signal Forwarded sg res s1) as Hg.
  rewrite decide_False in Hg by (by intros [? _]).
  rewrite app_nil_r in Hg. unfold Process_Signal in *.
  destruct res; simpl in *; by rewrite <- Hg1, <- ?Ht1.
Qed.

Lemma gracefulShutdowns_timerExpires res s :
  gracefulShutdowns (timerExpires res s) = gracefulShutdowns s
  /\ (shutdownTimer (timerExpires res s) = None -> shutdownTimer s = None).
Proof.
  unfold timerExpires.
  destruct (shutdownTimer s) as [[timeout | |] |] eqn:Ht;
    try (split; [done | congruence]).
  destruct (gracefulShutdowns_ShutdownNow res (set_timer (Some Fired) s))
    as [Hg Htm].
  destruct (ShutdownNow res (set_timer (Some Fired) s)) as [[e |] s'];
    unfold gracefulShutdowns in *; simpl in *; rewrite Hg, Htm; done.
Qed.

Lemma once_ShutdownWithTimeout timeout res s :
  once s -> once (ShutdownWithTimeout timeout res s).2.
Proof.
  intros Hs. pose proof Hs as [Hlen Hnil]. unfold ShutdownWithTimeout.
  destruct (isRunning s); [| done].
  destruct (shutdownTimer s) as [tm |] eqn:Ht; [done |].
  specialize (Hnil eq_refl).
  unfold once, gracefulShutdowns, Process_Signal in *.
  destruct res as [e |]; simpl;
    rewrite filter_app, filter_cons, filter_nil, Hnil; simpl;
    (split; [lia | done]).
Qed.

(** What the handler does, by whether the event announces a death. *)
Lemma onDeathOfAny_cases deathDeps callback e rd w :
  let name := filepath_Base (ev_Name e) in
  if announcesDeath deathDeps e rd (fs w)
  then onDeathOfAny deathDeps callback e rd w
       = callback (watchEvent (MsgNewDeath name)
                     (watchEvent (MsgReadingTombstone name) w))
  else child (onDeathOfAny deathDeps callback e rd w).2 = child w
       /\ graveyardWatcherStopped (onDeathOfAny deathDeps callback e rd w).2
          = graveyardWatcherStopped w
       /\ fs (onDeathOfAny deathDeps callback e rd w).2 = fs w
       /\ ts (onDeathOfAny deathDeps callback e rd w).2 = ts w
       /\ announced (deathWatcher (onDeathOfAny deathDeps callback e rd w).2)
          = announced (deathWatcher w).
Proof.
  intros name. unfold announcesDeath, onDeathOfAny. fold name.
  rewrite !bool_decide_not.
  match goal with
  | |- context [bool_decide (name ∈ ?X)] =>
      lazymatch X with
      | deathDeps => fail
      | _ => rewrite (bool_decide_ext (name ∈ X) (name ∈ deathDeps))
               by apply elem_of_list_to_set
      end
  end.
  assert (Hadd : forall m tr,
            (forall n, m <> MsgNewDeath n) ->
            announced (AddEvent m tr) = announced tr).
  { intros m tr Hm. unfold announced, AddEvent.
    rewrite bind_app, bind_cons. simpl.
    destruct m; try by rewrite !app_nil_r.
    match goal with n : string |- _ => by destruct (Hm n) end. }
  destruct (bool_decide (Z.land (Op e) fsnotify_Create = fsnotify_Create)),
    (bool_decide (Z.land (Op e) fsnotify_Write = fsnotify_Write));
    simpl; try done;
    (destruct (bool_decide (name ∈ deathDeps)); simpl;
       [| by rewrite Hadd by done]);
    (destruct (Read rd (filepath_Dir (ev_Name e)) name (fs w))
       as [t | err]; simpl; [| by rewrite Hadd by done]);
    (destruct (Died t) as [died |]; simpl; [done |]);
    by rewrite Hadd by done.
Qed.

Lemma graveyardHandler_once cfg d w :
  once (child w) -> once (child (graveyardHandler cfg d w).2).
Proof.
  intros Hw. unfold graveyardHandler.
  pose proof (onDeathOfAny_cases (config_DeathDeps cfg)
                (shutdownCallback (config_GracePeriod cfg) (dl_signal d))
                (dl_event d) (dl_read d) w) as Hcases.
  simpl in Hcases.
  destruct (announcesDeath _ _ _ _).
  - rewrite Hcases. unfold shutdownCallback. simpl.
    pose proof (once_ShutdownWithTimeout (config_GracePeriod cfg)
                  (dl_signal d) (child w) Hw) as Honce.
    by destruct (ShutdownWithTimeout _ _ _) as [[err |] c].
  - destruct Hcases as [-> _]. done.
Qed.

Lemma watchTurn_child cfg preferDone sel w :
  child (watchTurn graveyardWatcherStopped watchEvent
           (config_Graveyard cfg) (graveyardHandler cfg) preferDone sel w).2
  = match sel with
    | SelEvent d =>
        if graveyardWatcherStopped w && preferDone then child w
        else child (graveyardHandler cfg d w).2
    | _ => child w
    end.
Proof.
  unfold watchTurn.
  destruct (graveyardWatcherStopped w && preferDone), sel as [d | | err |];
    try done.
  by destruct (graveyardHandler cfg d w) as [[err |] w'].
Qed.

Lemma step_once cfg s w on w' on' :
  step cfg s (w, on) = Some (w', on') ->
  once (child w) -> once (child w').
Proof.
  intros Hstep Hw. destruct s; simpl in Hstep.
  - destruct (gracefulShutdowns_Start res (child w)) as [Hg Ht].
    destruct (Start res (child w)) as [err c]. simplify_eq/=.
    apply (once_step (child w)); [done | by rewrite Ht | done].
  - destruct (Wait os (child w)) as [[err c] |] eqn:Hwait; [| done].
    destruct (gracefulShutdowns_Wait _ _ _ _ Hwait) as [Hg Ht].
    simplify_eq/=. by apply (once_step (child w)).
  - destruct (gracefulShutdowns_ShutdownNow res (child w)) as [Hg Ht].
    destruct (ShutdownNow res (child w)) as [err c]. simplify_eq/=.
    apply (once_step (child w)); [done | by rewrite Ht | done].
  - destruct (sigCh (child w)) as [[] |]; simplify_eq/=; try done.
    destruct (gracefulShutdowns_forward1 sg res (child w)) as [Hg Ht].
    apply (once_step (child w)); [done | by rewrite Ht | done].
  - destruct on; [| by simplify_eq].
    pose proof (watchTurn_child cfg preferDone sel w) as Hc.
    destruct (watchTurn _ _ _ _ _ _ _) as [on1 w1]. simplify_eq/=.
    rewrite Hc. destruct sel as [d | | err |]; try done.
    destruct (graveyardWatcherStopped w && preferDone); [done |].
    by apply graveyardHandler_once.
  - simplify_eq/=.
    destruct (gracefulShutdowns_timerExpires res (child w)) as [Hg Ht].
    by apply (once_step (child w)).
  - by simplify_eq/=.
Qed.

Lemma lifetime_once cfg steps w on :
  once (child w) -> once (child (lifetime cfg steps (w, on)).1).
Proof.
  revert w on. induction steps as [| s steps IH]; intros w on Hw; [done |].
  cbn [lifetime].
  destruct (step cfg s (w, on)) as [[w' on'] |] eqn:Hstep; [| exact Hw].
  apply IH. by eapply step_once.
Qed.

(** A step adds a graceful shutdown only as the watcher's answer to an
    event that announces a death. *)
Lemma step_graceful cfg s w on w' on' :
  step cfg s (w, on) = Some (w', on') ->
  gracefulShutdowns (child w') <> gracefulShutdowns (child w) ->
  exists preferDone d,
    s = StepWatch preferDone (SelEvent d)
    /\ announcesDeath (config_DeathDeps cfg) (dl_event d) (dl_read d) (fs w)
       = true
    /\ dl_signal d = None.
Proof.
  intros Hstep Hne. destruct s; simpl in Hstep.
  - destruct (gracefulShutdowns_Start res (child w)) as [Hg Ht].
    destruct (Start res (child w)) as [err c]. by simplify_eq/=.
  - destruct (Wait os (child w)) as [[err c] |] eqn:Hwait; [| done].
    destruct (gracefulShutdowns_Wait _ _ _ _ Hwait) as [Hg Ht].
    by simplify_eq/=.
  - destruct (gracefulShutdowns_ShutdownNow res (child w)) as [Hg Ht].
    destruct (ShutdownNow res (child w)) as [err c]. by simplify_eq/=.
  - destruct (sigCh (child w)) as [[] |]; simplify_eq/=; try done.
    by destruct (gracefulShutdowns_forward1 sg res (child w)).
  - destruct on; [| by simplify_eq].
    pose proof (watchTurn_child cfg preferDone sel w) as Hc.
    destruct (watchTurn _ _ _ _ _ _ _) as [on1 w1]. simplify_eq/=.
    rewrite Hc in Hne. destruct sel as [d | | err |]; try done.
    destruct (graveyardWatcherStopped w && preferDone); [done |].
    exists preferDone, d. split; [done |].
    unfold graveyardHandler in Hne.
    pose proof (onDeathOfAny_cases (config_DeathDeps cfg)
                  (shutdownCallback (config_GracePeriod cfg) (dl_signal d))
                  (dl_event d) (dl_read d) w) as Hcases.
    simpl in Hcases.
    destruct (announcesDeath _ _ _ _);
      [| destruct Hcases as [Heq _]; by rewrite Heq in Hne].
    split; [done |]. rewrite Hcases in Hne.
    unfold shutdownCallback, ShutdownWithTimeout in Hne. simpl in Hne.
    destruct (dl_signal d) as [err |]; [| done].
    exfalso. apply Hne.
    destruct (isRunning (child w)); [| done].
    destruct (shutdownTimer (child w)); [done |].
    unfold gracefulShutdowns, Process_Signal. simpl.
    by rewrite filter_app, filter_cons, filter_nil, app_nil_r.
  - simplify_eq/=.
    by destruct (gracefulShutdowns_timerExpires res (child w)).
  - by simplify_eq/=.
Qed.

(** Only a "New death" record adds to what a trace announces. *)
Lemma announced_AddEvent m tr :
  announced (AddEvent m tr)
  = announced tr ++ match m with MsgNewDeath n => [n] | _ => [] end.
Proof.
  unfold announced, AddEvent. rewrite bind_app. simpl.
  by rewrite app_nil_r.
Qed.

(** An event that announces a death makes the handler cancel the watcher's
    context and call [ShutdownWithTimeout], whatever happened before. *)
Lemma graveyardHandler_announces cfg d w :
  announcesDeath (config_DeathDeps cfg) (dl_event d) (dl_read d) (fs w)
  = true ->
  announced (deathWatcher (graveyardHandler cfg d w).2)
  = announced (deathWatcher w) ++ [filepath_Base (ev_Name (dl_event d))]
  /\ graveyardWatcherStopped (graveyardHandler cfg d w).2 = true
  /\ child (graveyardHandler cfg d w).2
     = (ShutdownWithTimeout (config_GracePeriod cfg) (dl_signal d)
          (child w)).2.
Proof.
  intros Hyes. unfold graveyardHandler.
  pose proof (onDeathOfAny_cases (config_DeathDeps cfg)
                (shutdownCallback (config_GracePeriod cfg) (dl_signal d))
                (dl_event d) (dl_read d) w) as Hcases.
  simpl in Hcases. rewrite Hyes in Hcases. rewrite Hcases.
  unfold shutdownCallback. simpl.
  destruct (ShutdownWithTimeout _ _ _) as [[err |] c]; simpl;
    rewrite !announced_AddEvent, app_nil_r; done.
Qed.

Lemma graveyardHandler_calledOnce cfg d w :
  graveyardWatcherStopped w = false ->
  calledOnce w -> calledOnce (graveyardHandler cfg d w).2.
Proof.
  intros Hlive [Hnone _]. specialize (Hnone Hlive).
  destruct (announcesDeath (config_DeathDeps cfg) (dl_event d) (dl_read d)
              (fs w)) eqn:Hyes.
  - destruct (graveyardHandler_announces cfg d w Hyes) as (Ha & Hs & _).
    split; [by rewrite Hs |]. rewrite Ha, Hnone. simpl. lia.
  - unfold graveyardHandler.
    pose proof (onDeathOfAny_cases (config_DeathDeps cfg)
                  (shutdownCallback (config_GracePeriod cfg) (dl_signal d))
                  (dl_event d) (dl_read d) w) as Hcases.
    simpl in Hcases. rewrite Hyes in Hcases.
    destruct Hcases as (_ & _ & _ & _ & Ha).
    split; rewrite Ha, Hnone; [done | simpl; lia].
Qed.

Lemma step_calledOnce cfg s w on w' on' :
  prefersDone s ->
  step cfg s (w, on) = Some (w', on') ->
  calledOnce w -> calledOnce w'.
Proof.
  intros Hs Hstep Hw. destruct s; simpl in Hs, Hstep.
  - destruct (Start res (child w)) as [err c]. by simplify_eq/=.
  - destruct (Wait os (child w)) as [[err c] |]; by simplify_eq/=.
  - destruct (ShutdownNow res (child w)) as [err c]. by simplify_eq/=.
  - destruct (sigCh (child w)) as [[] |]; by simplify_eq/=.
  - subst preferDone. destruct on; [| by simplify_eq].
    unfold watchTurn in Hstep. rewrite andb_true_r in Hstep.
    destruct (graveyardWatcherStopped w) eqn:Hlive.
    + simplify_eq/=. destruct Hw as [Hnone Hlen].
      split; simpl; rewrite announced_AddEvent, app_nil_r; [| done].
      by rewrite Hlive.
    + destruct sel as [d | | err |]; try by simplify_eq/=.
      * pose proof (graveyardHandler_calledOnce cfg d w Hlive Hw) as Hd.
        destruct (graveyardHandler cfg d w) as [[err |] w1];
          simplify_eq/=; [| done].
        destruct Hd as [Hnone Hlen].
        split; simpl; by rewrite announced_AddEvent, app_nil_r.
      * simplify_eq/=. destruct Hw as [Hnone Hlen].
        split; simpl; by rewrite announced_AddEvent, app_nil_r.
  - by simplify_eq/=.
  - by simplify_eq/=.
Qed.

Lemma lifetime_calledOnce cfg steps w on :
  Forall prefersDone steps ->
  calledOnce w -> calledOnce (lifetime cfg steps (w, on)).1.
Proof.
  intros Hsteps. revert w on.
  induction Hsteps as [| s steps Hs Hsteps IH]; intros w on Hw; [done |].
  cbn [lifetime].
  destruct (step cfg s (w, on)) as [[w' on'] |] eqn:Hstep; [| exact Hw].
  apply IH. by eapply step_calledOnce.
Qed.

(** C6, as the code has it: the handler calls [ShutdownWithTimeout] for
    every event it handles that is a create or a write, names a death
    dependency and whose tombstone reads with [Died] set, and cancels the
    watcher's context right before.  Over any interleaving of what the
    process does at most one of these calls takes effect (TERM delivered
    and the grace timer armed), and a shutdown takes effect only as the
    answer to such an event: a call that finds the timer set is rejected
    with "shutdown already started" and leaves the supervisor as it is.
    The handler makes at most one call when the watcher takes the done
    case of its [select] whenever its context is cancelled, which Go does
    not promise while an event is ready too.  An event for another name,
    an event that is neither create nor write, and a record with [Died]
    unset leave the child, the watcher's context and the disk as they
    are. *)
Theorem graceful_shutdown_at_most_once (cfg : config) :
  (forall steps disk,
     (length (gracefulShutdowns
                (child (lifetime cfg steps (newWorld cfg disk, true)).1))
      <= 1)%nat)
  /\ (forall s w on w' on',
        step cfg s (w, on) = Some (w', on') ->
        gracefulShutdowns (child w') <> gracefulShutdowns (child w) ->
        exists preferDone d,
          s = StepWatch preferDone (SelEvent d)
          /\ announcesDeath (config_DeathDeps cfg) (dl_event d) (dl_read d)
               (fs w) = true
          /\ dl_signal d = None)
  /\ (forall d w,
        filepath_Base (ev_Name (dl_event d)) ∉ config_DeathDeps cfg
        \/ (Z.land (Op (dl_event d)) fsnotify_Create <> fsnotify_Create
            /\ Z.land (Op (dl_event d)) fsnotify_Write <> fsnotify_Write)
        \/ (exists t,
              Read (dl_read d) (filepath_Dir (ev_Name (dl_event d)))
                (filepath_Base (ev_Name (dl_event d))) (fs w) = inl t
              /\ Died t = None) ->
        child (graveyardHandler cfg d w).2 = child w
        /\ graveyardWatcherStopped (graveyardHandler cfg d w).2
           = graveyardWatcherStopped w
        /\ fs (graveyardHandler cfg d w).2 = fs w
        /\ announced (deathWatcher (graveyardHandler cfg d w).2)
           = announced (deathWatcher w))
  /\ (forall timeout res s,
        shutdownTimer s <> None ->
        (ShutdownWithTimeout timeout res s).2 = s
        /\ (isRunning s = true ->
            (ShutdownWithTimeout timeout res s).1
            = Some (errors_New "shutdown already started")))
  /\ (forall d w,
        announcesDeath (config_DeathDeps cfg) (dl_event d) (dl_read d) (fs w)
        = true ->
        announced (deathWatcher (graveyardHandler cfg d w).2)
        = announced (deathWatcher w) ++ [filepath_Base (ev_Name (dl_event d))]
        /\ graveyardWatcherStopped (graveyardHandler cfg d w).2 = true
        /\ child (graveyardHandler cfg d w).2
           = (ShutdownWithTimeout (config_GracePeriod cfg) (dl_signal d)
                (child w)).2)
  /\ (forall steps disk,
        Forall prefersDone steps ->
        (length (announced
                   (deathWatcher
                      (lifetime cfg steps (newWorld cfg disk, true)).1))
         <= 1)%nat).
Proof.
  split; [| split; [| split; [| split; [| split]]]].
  - intros steps disk.
    apply (lifetime_once cfg steps (newWorld cfg disk) true).
    split; [simpl; lia | done].
  - apply step_graceful.
  - intros d w Hignored. unfold graveyardHandler.
    pose proof (onDeathOfAny_cases (config_DeathDeps cfg)
                  (shutdownCallback (config_GracePeriod cfg) (dl_signal d))
                  (dl_event d) (dl_read d) w) as Hcases.
    simpl in Hcases.
    assert (Hno : announcesDeath (config_DeathDeps cfg) (dl_event d)
                    (dl_read d) (fs w) = false).
    { unfold announcesDeath.
      destruct Hignored as [Hname | [[Hc Hw] | (t & Hread & Hdied)]].
      - rewrite (bool_decide_eq_false_2 _ Hname). apply andb_false_intro1.
        apply andb_false_r.
      - by rewrite (bool_decide_eq_false_2 _ Hc),
          (bool_decide_eq_false_2 _ Hw).
      - rewrite Hread, Hdied.
        rewrite (bool_decide_eq_false_2 (None ≠ None)) by (by intros Hn).
        apply andb_false_r. }
    rewrite Hno in Hcases. by destruct Hcases as (? & ? & ? & _ & ?).
  - intros timeout res s Htimer. unfold ShutdownWithTimeout.
    destruct (isRunning s); [| done]. by destruct (shutdownTimer s).
  - apply graveyardHandler_announces.
  - intros steps disk Hsteps.
    apply (lifetime_calledOnce cfg steps (newWorld cfg disk) true Hsteps).
    split; [done | simpl; lia].
Qed.

End Engine.

(** ** Runs on the sample library *)
Section Runs.
Import event supervisor tombstone kubernetes main props.

Lemma runApp_exit_code_witness :
  (exists w n t,
     runApp sample.cfg sample.env ∅ = Some (3, w)
     /\ CallWait ∈ calls w
     /\ last (calls w) = Some (CallRecordDeath n t)
     /\ n = 3)
  /\ (exists w n t,
        runApp sample.cfg fixtures.envBirthWriteFails ∅ = Some (1, w)
        /\ CallWait ∈ calls w /\ CallShutdownNow ∈ calls w
        /\ last (calls w) = Some (CallRecordDeath n t)
        /\ n = 3).
Proof.
  split.
  - destruct (runApp_exit_code sample.cfg sample.env ∅)
      as (code & w & Hrun & Hcode).
    assert (Hw : CallWait ∈ calls w /\ (CallShutdownNow ∉ calls w)
                 /\ code = 3).
    { vm_compute in Hrun. injection Hrun as <- <-. simpl.
      repeat split; elem_of_calls. }
    destruct Hw as (Hwait & Hno & ->).
    destruct (Hcode Hwait)
      as (n & t & Hlast & _ & _ & _ & _ & _ & Hnormal).
    destruct (Hnormal Hno) as (Hn & _).
    exists w, n, t. done.
  - destruct (runApp_exit_code sample.cfg fixtures.envBirthWriteFails ∅)
      as (code & w & Hrun & Hcode).
    assert (Hw : CallWait ∈ calls w /\ CallShutdownNow ∈ calls w
                 /\ (exists tb, CallRecordBirth tb ∈ calls w)).
    { vm_compute in Hrun. injection Hrun as <- <-. simpl.
      split; [elem_of_calls |]. split; [elem_of_calls |].
      eexists. apply elem_of_cons. right. apply elem_of_cons. by left. }
    destruct Hw as (Hwait & Hkill & Hborn).
    destruct (Hcode Hwait)
      as (n & t & Hlast & _ & Hn & _ & _ & Hfatal & _).
    rewrite (Hfatal Hkill) in Hrun.
    exists w, n, t. do 4 (split; [done |]). exact (Hn Hborn).
Defined.

(** C1, refuted as stated: the child exits with status 3, the death record
    cannot be written, and the engine returns 2, which is neither the
    child's code nor 1. *)
Lemma runApp_death_record_failure_returns_2 :
  exists w tb t,
    runApp sample.cfg sample.envDeathWriteFails ∅ = Some (2, w)
    /\ calls w = [CallStart; CallRecordBirth tb; CallWait; CallRecordDeath 3 t]
    /\ waitRes sample.envDeathWriteFails = WaitState (Exited 3)
    /\ logger w
       = [LogError
            (Some (errors_WithStack
                     (fmt_Errorf "failed to update tombstone"
                        (errors_New "read-only file system")))) false]
    /\ 2 <> 3 /\ 2 <> 1.
Proof. eexists _, _, _. vm_compute. repeat split; discriminate. Qed.

Lemma TERM_during_birth_wait_starts_child_witness :
  length (args sample.envTerm) <> 0%nat
  /\ watchResult sample.cfgBirth sample.envTerm = None
  /\ (0 < length (config_BirthDeps sample.cfgBirth))%nat
  /\ WatchPod (inClusterConfig sample.envTerm) (newForConfig sample.envTerm)
     = None
  /\ birthEvents sample.envTerm = [TermSignal]
  /\ exists code w,
       runApp sample.cfgBirth sample.envTerm ∅ = Some (code, w)
       /\ CallStart ∈ calls w
       /\ exists tb, CallRecordBirth tb ∈ calls w /\ Born tb = Some 100.
Proof.
  assert (Hargs : length (args sample.envTerm) <> 0%nat) by discriminate.
  assert (Hdeps : (0 < length (config_BirthDeps sample.cfgBirth))%nat)
    by (simpl; lia).
  do 5 (split; [done |]).
  destruct (TERM_during_birth_wait_starts_child sample.cfgBirth
              sample.envTerm ∅ [] Hargs eq_refl Hdeps eq_refl eq_refl)
    as (code & w & Hrun & _ & Hstart & Hbirth).
  exists code, w. split; [done |]. split; [done |].
  exact (Hbirth 42 eq_refl).
Defined.

Lemma tombstone_records_witness :
  birthTime sample.env <= deathTime sample.env
  /\ exists code w,
       runApp sample.cfg sample.env ∅ = Some (code, w)
       /\ (fun t => (Born t, Died t)) <$> records (calls w)
          = [(Some 100, None); (Some 100, Some 200)].
Proof.
  assert (Hclock : birthTime sample.env <= deathTime sample.env)
    by (vm_compute; discriminate).
  split; [exact Hclock |].
  destruct (tombstone_records sample.cfg sample.env ∅ Hclock)
    as (code & w & Hrun & _ & _).
  exists code, w. split; [exact Hrun |].
  vm_compute in Hrun. by injection Hrun as <- <-.
Defined.

(** C3, refuted as stated: the child cannot be started, [fatalf] records
    its death all the same, and the record that reaches the disk has
    [Died] set and [Born] unset. *)
Lemma death_record_without_birth :
  exists w t t',
    runApp sample.cfg sample.envStartFails ∅ = Some (1, w)
    /\ records (calls w) = [t]
    /\ Born t = None /\ Died t = Some 200 /\ ExitCode t = Some (-1)
    /\ Read None "/graveyard" "app" (fs w) = inl t'
    /\ Born t' = None /\ Died t' = Some 200.
Proof. eexists _, _, _. vm_compute. repeat split. Qed.

Lemma fatalf_exit_code_witness :
  sigCh (child (newWorld sample.cfg ∅)) <> Some ChanClosed
  /\ sigCh sample.running <> Some ChanClosed
  /\ (exists w' t,
        fatalf sample.env (errors_New "failed to watch graveyard")
          (newWorld sample.cfg ∅) = Some (1, w')
        /\ calls w' = [CallShutdownNow; CallWait; CallRecordDeath (-1) t])
  /\ (exists w' c c' t,
        fatalf sample.env (errors_New "failed to create tombstone")
          (set_child sample.running (newWorld sample.cfg ∅)) = Some (1, w')
        /\ ShutdownNow None sample.running = (None, c)
        /\ sent c = [{| origin := Forced; sig := SIGKILL;
                        delivered := true |}]
        /\ Wait (WaitState (Exited 3)) c
           = Some (Some (ExitError (Exited 3)), c')
        /\ calls w' = [CallShutdownNow; CallWait; CallRecordDeath 3 t]
        /\ ExitCode t = Some 3).
Proof.
  assert (Hch : sigCh (child (newWorld sample.cfg ∅)) <> Some ChanClosed)
    by discriminate.
  assert (Hrun : sigCh (child (set_child sample.running
                                 (newWorld sample.cfg ∅)))
                 <> Some ChanClosed) by discriminate.
  split; [exact Hch |]. split; [exact Hrun |]. split.
  - destruct (fatalf_exit_code sample.env
                (errors_New "failed to watch graveyard")
                (newWorld sample.cfg ∅) Hch)
      as (w' & msgs & traces & Hf & _ & _).
    exists w'. eexists. split; [exact Hf |].
    vm_compute in Hf. by injection Hf as <-.
  - destruct (fatalf_exit_code sample.env
                (errors_New "failed to create tombstone")
                (set_child sample.running (newWorld sample.cfg ∅)) Hrun)
      as (w' & msgs & traces & Hf & _ & Hcases).
    destruct Hcases
      as [(stopError & c & Hs & _)
         | (c & werr & c' & t & Hs & Hkill & _ & Hw & Hcalls & _ & _ & _
            & He & _)];
      [vm_compute in Hs; discriminate |].
    assert (Hwerr : werr = Some (ExitError (Exited 3))).
    { vm_compute in Hs. injection Hs as <-. vm_compute in Hw.
      by injection Hw as <- _. }
    subst werr. exists w', c, c', t.
    split; [exact Hf |]. split; [exact Hs |].
    split; [exact (Hkill eq_refl) |]. split; [exact Hw |].
    split; [exact Hcalls |]. exact He.
Defined.

(** C4, refuted as stated: the birth record cannot be written, the child
    runs and cannot be killed; [fatalf] returns 1 at once, with neither the
    wait nor the death record. *)
Lemma fatalf_without_wait :
  exists w tb,
    runApp sample.cfg sample.envKillFails ∅ = Some (1, w)
    /\ calls w = [CallStart; CallRecordBirth tb; CallShutdownNow]
    /\ (CallWait ∉ calls w)
    /\ (forall code t, CallRecordDeath code t ∉ calls w)
    /\ fatalf sample.envKillFails (errors_New "failed to create tombstone")
         (set_child sample.running (newWorld sample.cfg ∅))
       = Some (1, deferred sample.envKillFails
                    (errors_Wrap (errors_New "failed to create tombstone")
                       "failed to kill child process: operation not permitted")
                    (set_child
                       (ShutdownNow (killRes sample.envKillFails)
                          sample.running).2
                       (call CallShutdownNow
                          (set_child sample.running
                             (newWorld sample.cfg ∅))))).
Proof.
  eexists _, _. split; [vm_compute; reflexivity |].
  split; [reflexivity |]. simpl.
  split; [elem_of_calls |]. split; [intros code t; elem_of_calls |].
  vm_compute. reflexivity.
Qed.

Lemma Write_discards_write_result_witness :
  let t := {| Context := []; Born := Some 100; Died := None;
              ExitCode := None; Graveyard := "/graveyard"; Name := "app" |} in
  let io := {| mkdirAll := None; create := None; written := 0 |} in
  exists t' disk',
    RecordDeath 3 200 io t ∅ = (None, t', disk')
    /\ yaml_Marshal t' = inl "+p001001;+p0001001;+p1;"
    /\ disk' !! "/graveyard/app" = Some "".
Proof.
  intros t io.
  destruct (Write_discards_write_result t io ∅) as (_ & _ & Hrec).
  destruct (RecordDeath 3 200 io t ∅) as [[err t'] disk'] eqn:Hdeath.
  assert (Hdoc : yaml_Marshal t' = inl "+p001001;+p0001001;+p1;")
    by (vm_compute in Hdeath; by injection Hdeath as <- <- <-).
  destruct (Hrec 200 3 err t' disk' "+p001001;+p0001001;+p1;"
              (or_intror Hdeath) eq_refl eq_refl Hdoc)
    as (-> & _ & Hempty & _).
  exists t', disk'. split; [done |]. split; [done |].
  rewrite <- (Hempty eq_refl). f_equal.
  vm_compute in Hdeath. by injection Hdeath as <- <-.
Defined.

Lemma graceful_shutdown_at_most_once_witness :
  (exists w on,
     lifetime sample.cfgDeath sample.twoDeathEvents
       (newWorld sample.cfgDeath ∅, true) = (w, on)
     /\ gracefulShutdowns (child w)
        = [{| origin := Graceful; sig := SIGTERM; delivered := true |}]
     /\ (length (gracefulShutdowns (child w)) <= 1)%nat)
  /\ (filepath_Base (ev_Name (dl_event sample.writeOfDb))
      ∉ config_DeathDeps sample.cfgDeath)
  /\ child (graveyardHandler sample.cfgDeath sample.writeOfDb
              (set_child sample.running (newWorld sample.cfgDeath ∅))).2
     = sample.running
  /\ Forall prefersDone sample.deathEventThenDone
  /\ (exists w on,
        lifetime sample.cfgDeath sample.deathEventThenDone
          (newWorld sample.cfgDeath ∅, true) = (w, on)
        /\ announced (deathWatcher w) = ["app"]
        /\ (length (announced (deathWatcher w)) <= 1)%nat).
Proof.
  destruct (graceful_shutdown_at_most_once sample.cfgDeath)
    as (Honce & _ & Hignored & _ & _ & Hcalls).
  assert (Hdb : filepath_Base (ev_Name (dl_event sample.writeOfDb))
                ∉ config_DeathDeps sample.cfgDeath).
  { change ("db" ∉ ["app"]). intros Hin. elem_of_calls. }
  assert (Hdone : Forall prefersDone sample.deathEventThenDone).
  { repeat constructor. }
  split; [| split; [exact Hdb | split; [| split; [exact Hdone |]]]].
  - specialize (Honce sample.twoDeathEvents ∅).
    destruct (lifetime sample.cfgDeath sample.twoDeathEvents
                (newWorld sample.cfgDeath ∅, true)) as [w on] eqn:Hlife.
    exists w, on. split; [done |]. split; [| exact Honce].
    vm_compute in Hlife. by injection Hlife as <- <-.
  - exact (proj1 (Hignored sample.writeOfDb
                    (set_child sample.running (newWorld sample.cfgDeath ∅))
                    (or_introl Hdb))).
  - specialize (Hcalls sample.deathEventThenDone ∅ Hdone).
    destruct (lifetime sample.cfgDeath sample.deathEventThenDone
                (newWorld sample.cfgDeath ∅, true)) as [w on] eqn:Hlife.
    exists w, on. split; [done |]. split; [| exact Hcalls].
    vm_compute in Hlife. by injection Hlife as <- <-.
Defined.

(** C6, refuted as stated: the child runs, the peer's tombstone is written
    with [Died] set, and two events for it are ready.  The handler answers
    the first, which cancels the watcher's context and starts the graceful
    shutdown; [select] then takes the second event rather than the done
    case, and the handler calls [ShutdownWithTimeout] again.  The second
    call is rejected, so one TERM was sent. *)
Lemma shutdown_graceful_called_twice :
  exists w on,
    lifetime sample.cfgDeath sample.twoDeathEvents
      (newWorld sample.cfgDeath ∅, true) = (w, on)
    /\ deathWatcher w
       = [MsgReadingTombstone "app"; MsgNewDeath "app";
          MsgReadingTombstone "app"; MsgNewDeath "app";
          MsgHandlerError
            (errors_Wrap (errors_New "shutdown already started")
               "failed to shutdown")]
    /\ announced (deathWatcher w) = ["app"; "app"]
    /\ ~ (length (announced (deathWatcher w)) <= 1)%nat
    /\ sent (child w)
       = [{| origin := Graceful; sig := SIGTERM; delivered := true |}].
Proof.
  eexists _, _. split; [vm_compute; reflexivity |].
  repeat split. simpl. lia.
Qed.

(** TERM, CHLD, URG and INT arrive and the channel is closed; the delivery
    of INT fails. *)
Example forward_TERM_CHLD_URG_INT :
  let s := forward [Received SIGTERM None; Received SIGCHLD None;
                    Received SIGURG None;
                    Received 2 (Some (errors_New "no such process"));
                    Closed; Received SIGTERM None]
             sample.running in
  sig <$> sent s = [SIGTERM; SIGURG; 2]
  /\ context s = [MsgStart; MsgReceivedSignal SIGTERM;
                  MsgReceivedSignal SIGCHLD; MsgReceivedSignal 2;
                  MsgPropagationFailed (errors_New "no such process")].
Proof. vm_compute. done. Qed.

End Runs.

(** ** The supervisor, further *)
Section SupervisorMore.
Import event supervisor tombstone main props.
Context `{Lib}.

(** X1: [Wait] closes the signal channel that [Start] made, so it can be
    called once: after a successful [Start] the first [Wait] returns and
    any second [Wait] panics on closing the closed channel. *)
Theorem Wait_twice_panics (res : Z + error) (s s1 : Supervisor)
    (os1 os2 : OsWait) :
  Start res s = (None, s1) ->
  exists err s2, Wait os1 s1 = Some (err, s2) /\ Wait os2 s2 = None.
Proof.
  unfold Start, cmd_Start. simpl. intros Hstart.
  assert (Hch : sigCh s1 = Some ChanOpen).
  { destruct (cmd_Process s), res; by simplify_eq/=. }
  unfold Wait.
  destruct (cmd_Wait os1 s1) as [err c] eqn:Hw1.
  assert (Hc : sigCh c = Some ChanOpen).
  { unfold cmd_Wait in Hw1.
    destruct (cmd_Process s1), (cmd_finished s1), os1 as [ps | e];
      simpl in Hw1; try destruct (Success ps); by simplify_eq/=. }
  rewrite Hc. eexists _, _. split; [done |].
  destruct (cmd_Wait os2 _) as [err2 c2] eqn:Hw2.
  assert (Hc2 : sigCh c2 = Some ChanClosed).
  { unfold cmd_Wait in Hw2. simpl in Hw2.
    destruct (cmd_Process c), (cmd_finished c), os2 as [ps | e];
      simpl in Hw2; try destruct (Success ps); by simplify_eq/=. }
  by rewrite Hc2.
Qed.

(** X2: a child that was not started, or whose start failed, is skipped by
    both shutdowns, and waiting for it returns at once with the error
    "exec: not started", which [waitForChildExit] turns into the code -1;
    no signal is sent.  A failed [Start] leaves the supervisor in that
    state and reports the wrapped error. *)
Theorem unstarted_child_is_skipped (s : Supervisor) :
  cmd_Process s = None -> sigCh s = None ->
  (forall e,
     Start (inr e) s
     = (Some (errors_WithStack (fmt_Errorf "failed to start child process" e)),
        trace MsgStart s))
  /\ (forall res, ShutdownNow res s = (None, s))
  /\ (forall timeout res, ShutdownWithTimeout timeout res s = (None, s))
  /\ (forall os,
        exists s',
          Wait os s = Some (Some (errors_New "exec: not started"), s')
          /\ cmd_Process s' = None /\ sigCh s' = None /\ sent s' = sent s
          /\ exitCodeOf (Some (errors_New "exec: not started")) = -1).
Proof.
  intros Hp Hch. split; [| split; [| split]].
  - intros e. unfold Start, cmd_Start. simpl. by rewrite Hp.
  - intros res. unfold ShutdownNow, isRunning. by rewrite Hp.
  - intros timeout res. unfold ShutdownWithTimeout, isRunning. by rewrite Hp.
  - intros os. unfold Wait, cmd_Wait. rewrite Hp, Hch. eexists. done.
Qed.

(** X3: [Wait] stops the grace timer: once [Wait] has returned, the
    timer's function changes nothing, so no KILL follows the child's exit.
    The function also runs at most once: a second expiry changes
    nothing. *)
Theorem grace_timer_after_Wait :
  (forall os s err s' res,
     Wait os s = Some (err, s') -> timerExpires res s' = s')
  /\ (forall res1 res2 s,
        timerExpires res2 (timerExpires res1 s) = timerExpires res1 s).
Proof.
  split.
  - intros os s err s' res Hw. unfold Wait in Hw.
    destruct (cmd_Wait os s) as [e c].
    unfold timerExpires.
    destruct (sigCh c) as [[] |]; simplify_eq/=;
      by destruct (shutdownTimer c) as [[] |].
  - intros res1 res2 s. unfold timerExpires at 2 3.
    destruct (shutdownTimer s) as [[timeout | |] |] eqn:Ht;
      try (unfold timerExpires; by rewrite Ht).
    unfold ShutdownNow.
    destruct (isRunning _); simpl; [| unfold timerExpires; simpl; done].
    destruct res1; unfold timerExpires; simpl; done.
Qed.

(** X4: when the OS refuses the TERM of a graceful shutdown, the error is
    returned and no timer is armed, so the shutdown does not count as
    started: the next request sends TERM again and arms the timer. *)
Theorem refused_TERM_is_retried (timeout : Z) (e : error) (s : Supervisor) :
  isRunning s = true -> shutdownTimer s = None ->
  let r1 := ShutdownWithTimeout timeout (Some e) s in
  let r2 := ShutdownWithTimeout timeout None r1.2 in
  r1.1 = Some (errors_WithStack
                 (fmt_Errorf "failed to terminate child process" e))
  /\ shutdownTimer r1.2 = None
  /\ r2.1 = None
  /\ shutdownTimer r2.2 = Some (Armed timeout)
  /\ sent r2.2
     = sent s ++ [{| origin := Graceful; sig := SIGTERM; delivered := false |};
                  {| origin := Graceful; sig := SIGTERM; delivered := true |}].
Proof.
  intros Hrun Htimer.
  assert (Hr1 : ShutdownWithTimeout timeout (Some e) s
                = (Some (errors_WithStack
                           (fmt_Errorf "failed to terminate child process" e)),
                   (Process_Signal Graceful SIGTERM (Some e)
                      (trace MsgTerminating s)).2)).
  { unfold ShutdownWithTimeout. by rewrite Hrun, Htimer. }
  rewrite Hr1. simpl. unfold ShutdownWithTimeout.
  replace (isRunning _) with true by (by rewrite <- Hrun).
  simpl. rewrite Htimer. simpl. by rewrite <- app_assoc.
Qed.

End SupervisorMore.

(** ** The graveyard watcher, further *)
Section WatcherMore.
Import event supervisor tombstone main props terms.
Context `{Lib}.

Lemma handler_ignores cfg d w :
  announcesDeath (config_DeathDeps cfg) (dl_event d) (dl_read d) (fs w)
  = false ->
  child (graveyardHandler cfg d w).2 = child w
  /\ graveyardWatcherStopped (graveyardHandler cfg d w).2
     = graveyardWatcherStopped w
  /\ fs (graveyardHandler cfg d w).2 = fs w.
Proof.
  intros Hno. unfold graveyardHandler.
  pose proof (onDeathOfAny_cases (config_DeathDeps cfg)
                (shutdownCallback (config_GracePeriod cfg) (dl_signal d))
                (dl_event d) (dl_read d) w) as Hcases.
  simpl in Hcases. rewrite Hno in Hcases.
  by destruct Hcases as (? & ? & ? & _).
Qed.

Lemma step_stopped cfg s w on w' on' :
  prefersDone s ->
  graveyardWatcherStopped w = true ->
  step cfg s (w, on) = Some (w', on') ->
  graveyardWatcherStopped w' = true
  /\ gracefulShutdowns (child w') = gracefulShutdowns (child w).
Proof.
  intros Hs Hw Hstep. destruct s; simpl in Hs, Hstep.
  - destruct (gracefulShutdowns_Start res (child w)) as [Hg _].
    destruct (Start res (child w)) as [err c]. by simplify_eq/=.
  - destruct (Wait os (child w)) as [[err c] |] eqn:Hwait; [| done].
    destruct (gracefulShutdowns_Wait _ _ _ _ Hwait) as [Hg _].
    by simplify_eq/=.
  - destruct (gracefulShutdowns_ShutdownNow res (child w)) as [Hg _].
    destruct (ShutdownNow res (child w)) as [err c]. by simplify_eq/=.
  - destruct (sigCh (child w)) as [[] |]; simplify_eq/=; try done.
    by destruct (gracefulShutdowns_forward1 sg res (child w)).
  - subst preferDone. destruct on; [| by simplify_eq].
    unfold watchTurn in Hstep. rewrite Hw in Hstep. by simplify_eq/=.
  - simplify_eq/=.
    by destruct (gracefulShutdowns_timerExpires res (child w)).
  - by simplify_eq/=.
Qed.

Lemma lifetime_stopped cfg steps w on :
  Forall prefersDone steps ->
  graveyardWatcherStopped w = true ->
  gracefulShutdowns (child (lifetime cfg steps (w, on)).1)
  = gracefulShutdowns (child w).
Proof.
  intros Hsteps. revert w on.
  induction Hsteps as [| s steps Hs Hsteps IH]; intros w on Hw; [done |].
  cbn [lifetime].
  destruct (step cfg s (w, on)) as [[w' on'] |] eqn:Hstep; [| done].
  destruct (step_stopped cfg s w on w' on' Hs Hw Hstep) as [Hw' Hg].
  by rewrite IH, Hg.
Qed.

(** X5: a death that the handler meets while the child does not run (not
    started yet, or already reaped) is lost: the handler cancels the
    watcher's context, [ShutdownWithTimeout] is skipped, and with the
    watcher taking its cancelled context no graceful shutdown takes effect
    in whatever follows, a later start of the child included. *)
Theorem death_before_start_is_lost (cfg : config) (d : Delivery) (w : World)
    (on : bool) (steps : list Step) :
  isRunning (child w) = false ->
  announcesDeath (config_DeathDeps cfg) (dl_event d) (dl_read d) (fs w)
  = true ->
  Forall prefersDone steps ->
  child (graveyardHandler cfg d w).2 = child w
  /\ graveyardWatcherStopped (graveyardHandler cfg d w).2 = true
  /\ gracefulShutdowns
       (child (lifetime cfg steps ((graveyardHandler cfg d w).2, on)).1)
     = gracefulShutdowns (child w).
Proof.
  intros Hrun Hyes Hsteps.
  destruct (graveyardHandler_announces cfg d w Hyes) as (_ & Hs & Hc).
  assert (Hchild : child (graveyardHandler cfg d w).2 = child w).
  { rewrite Hc. unfold ShutdownWithTimeout. by rewrite Hrun. }
  split; [done |]. split; [done |].
  by rewrite lifetime_stopped, Hchild.
Qed.

Lemma lifetime_ignored cfg ds rest w :
  graveyardWatcherStopped w = false ->
  Forall (ignored cfg (fs w)) ds ->
  exists w',
    lifetime cfg (eventTurns ds ++ rest) (w, true)
    = lifetime cfg rest (w', true)
    /\ child w' = child w
    /\ graveyardWatcherStopped w' = false
    /\ fs w' = fs w.
Proof.
  intros Hlive Hds. revert w Hlive Hds.
  induction ds as [| [pd d] ds IH]; intros w Hlive Hds; [by exists w |].
  apply Forall_cons in Hds as [Hd Hds]. unfold ignored in Hd. simpl in Hd.
  destruct (handler_ignores cfg d w Hd) as (Hc & Hs & Hf).
  cbn [eventTurns fmap list_fmap app lifetime step fst snd].
  unfold watchTurn. rewrite Hlive. simpl.
  destruct (graveyardHandler cfg d w) as [[err |] w1]; simpl in *.
  - destruct (IH (watchEvent (MsgHandlerError err) w1))
      as (w' & Hl & ? & ? & ?).
    { simpl. by rewrite Hs. }
    { simpl. by rewrite Hf. }
    exists w'. split; [exact Hl |]. simpl in *. by repeat split; congruence.
  - destruct (IH w1) as (w' & Hl & ? & ? & ?);
      [by rewrite Hs | by rewrite Hf |].
    exists w'. split; [exact Hl |]. by repeat split; congruence.
Qed.

(** X6: the events the handler ignores or fails on (another name, another
    operation, a record without [Died], a tombstone that cannot be read)
    do not end the watcher and change neither the child nor the disk: a
    death event that follows any number of them still makes the running
    child receive TERM. *)
Theorem watcher_survives_ignored_events (cfg : config)
    (ds : list (bool * Delivery)) (pd : bool) (d : Delivery) (w : World) :
  graveyardWatcherStopped w = false ->
  isRunning (child w) = true -> shutdownTimer (child w) = None ->
  Forall (ignored cfg (fs w)) ds ->
  announcesDeath (config_DeathDeps cfg) (dl_event d) (dl_read d) (fs w)
  = true ->
  dl_signal d = None ->
  gracefulShutdowns
    (child (lifetime cfg (eventTurns (ds ++ [(pd, d)])) (w, true)).1)
  = gracefulShutdowns (child w)
    ++ [{| origin := Graceful; sig := SIGTERM; delivered := true |}].
Proof.
  intros Hlive Hrun Htimer Hds Hyes Hsig.
  unfold eventTurns. rewrite fmap_app.
  destruct (lifetime_ignored cfg ds (eventTurns [(pd, d)]) w Hlive Hds)
    as (w1 & Hl & Hc & Hs & Hf).
  unfold eventTurns in Hl. rewrite Hl.
  cbn [fmap list_fmap lifetime step fst snd]. unfold watchTurn.
  rewrite Hs. simpl.
  rewrite <- Hf in Hyes.
  destruct (graveyardHandler_announces cfg d w1 Hyes) as (_ & _ & Hchild).
  assert (Hg : gracefulShutdowns (child (graveyardHandler cfg d w1).2)
               = gracefulShutdowns (child w)
                 ++ [{| origin := Graceful; sig := SIGTERM;
                        delivered := true |}]).
  { rewrite Hchild, Hc. unfold ShutdownWithTimeout.
    rewrite Hrun, Htimer, Hsig. simpl.
    unfold gracefulShutdowns. simpl.
    by rewrite filter_app, filter_cons, filter_nil. }
  by destruct (graveyardHandler cfg d w1) as [[err |] w2].
Qed.

End WatcherMore.

(** ** The tombstone on disk, further *)
Section TombstoneMore.
Import event supervisor tombstone kubernetes main props terms.
Context `{Lib}.

Lemma Write_other t io disk p :
  p <> Path t -> (Write t io disk).2 !! p = disk !! p.
Proof.
  intros Hp. unfold Write.
  destruct (mkdirAll io), (create io), (yaml_Marshal t); simpl;
    rewrite ?lookup_insert_ne by done; done.
Qed.

Lemma recordBirth_ownFile cfg disk env w :
  ownFile cfg disk w -> ownFile cfg disk (recordBirth env w).2.
Proof.
  intros (Hg & Hn & Hfs). unfold recordBirth, RecordBirth.
  match goal with
  | |- context [Write ?u ?io ?d] =>
      pose proof (fun p => Write_other u io d p) as Hw;
      destruct (Write u io d) as [[e |] d']
  end; simpl in *; (split; [done |]; split; [done |]);
    intros p Hp; rewrite Hw; auto; unfold Path; simpl; by rewrite Hg, Hn.
Qed.

Lemma recordDeath_ownFile cfg disk env code w :
  ownFile cfg disk w -> ownFile cfg disk (recordDeath env code w).2.
Proof.
  intros (Hg & Hn & Hfs). unfold recordDeath, RecordDeath.
  match goal with
  | |- context [Write ?u ?io ?d] =>
      pose proof (fun p => Write_other u io d p) as Hw;
      destruct (Write u io d) as [[e |] d']
  end; simpl in *; (split; [done |]; split; [done |]);
    intros p Hp; rewrite Hw; auto; unfold Path; simpl; by rewrite Hg, Hn.
Qed.

Lemma fatalf_ownFile cfg disk env err w code w' :
  ownFile cfg disk w ->
  fatalf env err w = Some (code, w') -> ownFile cfg disk w'.
Proof.
  intros Hw Hf. unfold fatalf, waitForChildExit, deferred in Hf.
  destruct (ShutdownNow (killRes env) (child w)) as [[stopError |] c];
    simpl in Hf.
  { destruct (serializeEventTraces env); by simplify_eq/=. }
  destruct (Wait (waitRes env) c) as [[werr c'] |]; [| done]. simpl in Hf.
  match type of Hf with
  | context [recordDeath env ?code ?w0] =>
      pose proof (recordDeath_ownFile cfg disk env code w0 Hw) as Hd;
      destruct (recordDeath env code w0) as [[e |] w1]
  end; simpl in *;
    destruct (serializeEventTraces env); by simplify_eq/=.
Qed.

(** X7: whatever course a run takes, the only file it may change is its own
    tombstone: every other path of the disk holds at the end what it held
    at the start (the tombstones of the other containers are only read). *)
Theorem runApp_touches_own_tombstone_only (cfg : config) (env : Env)
    (disk : FS) (code : Z) (w : World) (p : string) :
  runApp cfg env disk = Some (code, w) ->
  p <> filepath_Join (config_Graveyard cfg) (config_Name cfg) ->
  fs w !! p = disk !! p.
Proof.
  intros Hrun Hp.
  assert (Hown : ownFile cfg disk w); [| by destruct Hown as (_ & _ & ->)].
  clear p Hp.
  assert (H0 : ownFile cfg disk (newWorld cfg disk)) by done.
  unfold runApp in Hrun.
  case_bool_decide; [by simplify_eq/= |].
  match type of Hrun with
  | context [if ?b then (Watch ?x ?y, ?w1) else (None, ?w2)] =>
      destruct (if b then (Watch x y, w1) else (None, w2))
        as [err1 w1'] eqn:Hif1;
      assert (Hw1 : ownFile cfg disk w1')
        by (destruct b; by simplify_eq/=)
  end.
  clear Hif1 H0.
  destruct err1 as [err1 |];
    [by eapply fatalf_ownFile; [| exact Hrun] |].
  match type of Hrun with
  | context [if ?b then ?x else (None, w1')] =>
      destruct (if b then x else (None, w1')) as [err2 w2'] eqn:Hif2;
      assert (Hw2 : ownFile cfg disk w2')
        by (destruct b;
            [destruct (waitForBirthDeps _ _ _ _ _ _) as [e tr] |];
            by simplify_eq/=)
  end.
  clear Hif2.
  destruct err2 as [err2 |];
    [by eapply fatalf_ownFile; [| exact Hrun] |].
  destruct (Start (startRes env) (child w2')) as [err3 c].
  destruct err3 as [err3 |];
    [by eapply fatalf_ownFile; [| exact Hrun] |].
  match type of Hrun with
  | context [recordBirth env ?w0] =>
      pose proof (recordBirth_ownFile cfg disk env w0 Hw2) as Hw3;
      destruct (recordBirth env w0) as [err4 w3]
  end.
  destruct err4 as [err4 |];
    [by eapply fatalf_ownFile; [| exact Hrun] |].
  unfold waitForChildExit in Hrun.
  destruct (Wait (waitRes env) (child w3)) as [[werr c'] |]; [| done].
  simpl in Hrun.
  match type of Hrun with
  | context [recordDeath env ?code ?w0] =>
      pose proof (recordDeath_ownFile cfg disk env code w0 Hw3) as Hw4;
      destruct (recordDeath env code w0) as [err5 w4]
  end.
  destruct err5 as [err5 |]; [by simplify_eq/= |].
  case_bool_decide; [| by simplify_eq/=].
  destruct (serializeEventTraces env); by simplify_eq/=.
Qed.
End TombstoneMore.

(** ** The tombstone as a protocol between containers *)
Section Protocol.
Import event supervisor tombstone kubernetes main props terms.
Context `{Lib} `{!LibLaws}.

Lemma Read_after_Write t io disk doc :
  mkdirAll io = None -> create io = None ->
  yaml_Marshal t = inl doc -> (String.length doc <= written io)%nat ->
  exists t',
    Read None (Graveyard t) (Name t) (Write t io disk).2 = inl t'
    /\ Born t' = Born t /\ Died t' = Died t /\ ExitCode t' = ExitCode t.
Proof.
  intros Hm Hc Hy Hlen. rewrite (Write_ok t io disk doc Hm Hc Hy). simpl.
  rewrite (substring_all doc _ Hlen). unfold Read, ReadFile.
  change (Path {| Context := []; Born := None; Died := None;
                  ExitCode := None; Graveyard := Graveyard t;
                  Name := Name t |}) with (Path t).
  rewrite lookup_insert_eq, (unmarshal_marshal t doc _ Hy).
  eexists. split; [done |]. unfold overlay. simpl.
  by destruct (Born t), (Died t), (ExitCode t).
Qed.

(** X8: the two records of a container's life, read back by a peer that
    lists it as a death dependency.  When the write succeeds and was not
    cut short, the birth record of a container that has not died does not
    announce a death, and the death record does: [RecordDeath] followed by
    the peer's handler on the resulting create or write event gives the
    shutdown. *)
Theorem recorded_death_is_announced (deathDeps : list string)
    (t : Tombstone) (io : IO) (disk : FS) (e : fsnotify_Event) :
  mkdirAll io = None -> create io = None ->
  filepath_Dir (ev_Name e) = Graveyard t ->
  filepath_Base (ev_Name e) = Name t ->
  Z.land (Op e) fsnotify_Create = fsnotify_Create
  \/ Z.land (Op e) fsnotify_Write = fsnotify_Write ->
  Name t ∈ deathDeps ->
  (forall now doc,
     Died t = None ->
     yaml_Marshal (RecordBirth now io t disk).1.2 = inl doc ->
     (String.length doc <= written io)%nat ->
     (RecordBirth now io t disk).1.1 = None
     /\ announcesDeath deathDeps e None (RecordBirth now io t disk).2 = false)
  /\ (forall code now doc,
        yaml_Marshal (RecordDeath code now io t disk).1.2 = inl doc ->
        (String.length doc <= written io)%nat ->
        (RecordDeath code now io t disk).1.1 = None
        /\ announcesDeath deathDeps e None (RecordDeath code now io t disk).2
           = true).
Proof.
  intros Hm Hc Hdir Hbase Hop Hin.
  assert (Hbits : bool_decide (Z.land (Op e) fsnotify_Create = fsnotify_Create)
                  || bool_decide (Z.land (Op e) fsnotify_Write = fsnotify_Write)
                  = true).
  { destruct Hop as [Hop | Hop]; rewrite (bool_decide_eq_true_2 _ Hop);
      [done | apply orb_true_r]. }
  split.
  - intros now doc Hdied. unfold RecordBirth.
    match goal with
    | |- context [Write ?u io disk] =>
        set (t1 := u);
        pose proof (Read_after_Write t1 io disk doc Hm Hc) as Hread;
        pose proof (Write_ok t1 io disk doc Hm Hc) as Hw
    end.
    destruct (Write t1 io disk) as [[err |] disk'] eqn:Hwr; simpl;
      intros Hy Hlen; specialize (Hw Hy); [done |].
    split; [done |].
    destruct (Hread Hy Hlen) as (t' & Hr & _ & Hd & _). simpl in Hr, Hd.
    unfold announcesDeath. rewrite Hdir, Hbase, Hr, Hd, Hdied.
    rewrite (bool_decide_eq_false_2 (None ≠ None)) by (by intros Hn).
    apply andb_false_r.
  - intros code now doc. unfold RecordDeath.
    match goal with
    | |- context [Write ?u io disk] =>
        set (t1 := u);
        pose proof (Read_after_Write t1 io disk doc Hm Hc) as Hread;
        pose proof (Write_ok t1 io disk doc Hm Hc) as Hw
    end.
    destruct (Write t1 io disk) as [[err |] disk'] eqn:Hwr; simpl;
      intros Hy Hlen; specialize (Hw Hy); [done |].
    split; [done |].
    destruct (Hread Hy Hlen) as (t' & Hr & _ & Hd & _). simpl in Hr, Hd.
    unfold announcesDeath. rewrite Hdir, Hbase, Hr, Hd, Hbits.
    by rewrite (bool_decide_eq_true_2 _ Hin).
Qed.

(** X9: the run in which nothing fails: with a command given, the watches
    set up, the birth dependencies ready in time, the child started and
    both tombstone writes complete, [runApp] returns the child's exit code
    and leaves on disk a tombstone that reads back with the birth time,
    the death time and that exit code. *)
Theorem supervised_run_leaves_full_record (cfg : config) (env : Env)
    (disk : FS) (pid : Z) :
  length (args env) <> 0%nat ->
  watchResult cfg env = None -> birthResult cfg env = None ->
  startRes env = inl pid ->
  mkdirAll (birthIO env) = None -> create (birthIO env) = None ->
  mkdirAll (deathIO env) = None -> create (deathIO env) = None ->
  (forall t,
     Born t = Some (birthTime env) -> Died t = None ->
     exists doc, yaml_Marshal t = inl doc) ->
  (forall t,
     Born t = Some (birthTime env) -> Died t = Some (deathTime env) ->
     ExitCode t = Some (exitCodeOf (waitError (waitRes env))) ->
     exists doc,
       yaml_Marshal t = inl doc
       /\ (String.length doc <= written (deathIO env))%nat) ->
  config_VerboseLevel cfg <= 0 \/ fireErr env = None ->
  exists w t,
    runApp cfg env disk
    = Some (exitCodeOf (waitError (waitRes env)), w)
    /\ Read None (config_Graveyard cfg) (config_Name cfg) (fs w) = inl t
    /\ Born t = Some (birthTime env)
    /\ Died t = Some (deathTime env)
    /\ ExitCode t = Some (exitCodeOf (waitError (waitRes env))).
Proof.
  intros Hargs Hwatch Hbirth Hstart Hbm Hbc Hdm Hdc Hbdoc Hddoc
    Hverbose.
  set (code := exitCodeOf (waitError (waitRes env))) in *.
  unfold runApp. rewrite (bool_decide_eq_false_2 _ Hargs).
  set (w0 := newWorld cfg disk).
  unfold watchResult in Hwatch. unfold birthResult in Hbirth.
  set (wr := if bool_decide (0 < length (config_DeathDeps cfg))%nat
             then (Watch (newWatcher env) (addWatch env), call CallWatch w0)
             else (None, w0)).
  assert (Hwr : exists w1, wr = (None, w1) /\ fs w1 = disk /\ ts w1 = ts w0
                           /\ child w1 = New [] /\ birthWatcher w1 = []).
  { subst wr.
    destruct (bool_decide (0 < length (config_DeathDeps cfg))%nat);
      [rewrite Hwatch |]; by eexists. }
  destruct Hwr as (w1 & -> & Hfs1 & Hts1 & Hch1 & Hbw1).
  match goal with
  | |- context [if ?b then ?x else (None, w1)] =>
      set (br := if b then x else (None, w1))
  end.
  assert (Hbr : exists w2, br = (None, w2) /\ fs w2 = disk /\ ts w2 = ts w0
                           /\ child w2 = New []).
  { subst br.
    destruct (bool_decide (0 < length (config_BirthDeps cfg))%nat);
      [| by exists w1].
    rewrite Hbw1.
    destruct (waitForBirthDeps _ _ _ _ _ _) as [e tr]. simpl in Hbirth.
    subst e. eexists. split; [reflexivity |]. done. }
  destruct Hbr as (w2 & -> & Hfs2 & Hts2 & Hch2).
  rewrite Hch2, Hstart. unfold Start, cmd_Start. simpl.
  unfold recordBirth, RecordBirth. simpl. rewrite Hts2, Hfs2.
  match goal with
  | |- context [Write ?u (birthIO env) disk] => set (tb := u)
  end.
  destruct (Hbdoc tb eq_refl eq_refl) as (docb & Hyb).
  rewrite (Write_ok tb (birthIO env) disk docb Hbm Hbc Hyb).
  unfold waitForChildExit. simpl child.
  match goal with
  | |- context [Wait (waitRes env) ?c] =>
      destruct (Wait_running (waitRes env) c pid eq_refl eq_refl eq_refl)
        as (c' & ->)
  end.
  fold code. unfold recordDeath, RecordDeath. simpl.
  match goal with
  | |- context [Write ?u (deathIO env) ?d] =>
      set (td := u);
      destruct (Hddoc td eq_refl eq_refl eq_refl) as (docd & Hyd & Hlen);
      destruct (Read_after_Write td (deathIO env) d docd Hdm Hdc Hyd Hlen)
        as (t' & Hread & Hb & Hd & Hc);
      rewrite (Write_ok td (deathIO env) d docd Hdm Hdc Hyd) in *
  end.
  simpl in *.
  assert (Hv : bool_decide (0 < config_VerboseLevel cfg) = false
               \/ serializeEventTraces env = None).
  { destruct Hverbose as [Hv | Hv];
      [left; apply bool_decide_eq_false_2; lia
      | right; unfold serializeEventTraces; by rewrite Hv]. }
  destruct (bool_decide (0 < config_VerboseLevel cfg)) eqn:Hvb;
    [destruct Hv as [Hv | Hv]; [done | rewrite Hv] |];
    eexists _, t'; (split; [reflexivity |]); simpl; rewrite Hread; done.
Qed.
End Protocol.

(** ** The birth wait *)
Section BirthMore.
Import event supervisor tombstone kubernetes main props terms.
Context `{Lib}.

Lemma elem_of_readyContainers statuses acc name :
  name ∈ readyContainers statuses acc
  <-> name ∈ acc \/ containerReady statuses name.
Proof.
  revert acc. induction statuses as [| st statuses IH]; intros acc; simpl.
  - split; [by left |]. intros [? | (? & Hin & _)]; [done |].
    by apply elem_of_nil in Hin.
  - rewrite IH. unfold containerReady. split.
    + intros [Hacc | (s & Hin & Hn & Hr)].
      * destruct (Ready st) eqn:Hst; [| by left].
        apply elem_of_union in Hacc as [Hacc | Hacc]; [| by left].
        apply elem_of_singleton in Hacc. right. exists st.
        split; [apply elem_of_cons; by left | done].
      * right. exists s. split; [apply elem_of_cons; by right | done].
    + intros [Hacc | (s & Hin & Hn & Hr)].
      * left. destruct (Ready st); [apply elem_of_union; by right | done].
      * apply elem_of_cons in Hin as [-> | Hin].
        -- left. rewrite Hr. apply elem_of_union. left.
           by apply elem_of_singleton.
        -- right. by exists s.
Qed.

Lemma allReady_elem ready birthDeps :
  allReady ready birthDeps = true
  <-> forall name, name ∈ birthDeps -> name ∈ ready.
Proof.
  induction birthDeps as [| d birthDeps IH]; simpl.
  - split; [| done]. intros _ name Hin. by apply elem_of_nil in Hin.
  - case_bool_decide as Hd.
    + rewrite IH. split.
      * intros Hall name Hin.
        apply elem_of_cons in Hin as [-> | Hin]; auto.
      * intros Hall name Hin. apply Hall, elem_of_cons. by right.
    + split; [done |]. intros Hall. exfalso. apply Hd, Hall, elem_of_cons.
      by left.
Qed.

Lemma onReadyOfAll_ready birthDeps callback e ctx :
  podReady birthDeps e ->
  onReadyOfAll birthDeps callback e ctx = callback ctx.
Proof.
  intros (Hdel & statuses & Hobj & Hall). unfold onReadyOfAll.
  rewrite (bool_decide_eq_false_2 _ Hdel), Hobj.
  assert (Hr : allReady (readyContainers statuses ∅) birthDeps = true).
  { apply allReady_elem. intros name Hin.
    apply elem_of_readyContainers. right. by apply Hall. }
  by rewrite Hr.
Qed.

Lemma onReadyOfAll_not_ready birthDeps callback e ctx :
  ~ podReady birthDeps e ->
  onReadyOfAll birthDeps callback e ctx = ctx
  \/ onReadyOfAll birthDeps callback e ctx
     = ctx_AddEvent MsgUnexpectedObject ctx.
Proof.
  intros Hno. unfold onReadyOfAll.
  case_bool_decide as Hdel; [by left |].
  destruct (Object_ e) as [statuses |] eqn:Hobj; [| by right].
  destruct (allReady (readyContainers statuses ∅) birthDeps) eqn:Hr;
    [| by left].
  exfalso. apply Hno. split; [done |]. exists statuses. split; [done |].
  intros name Hin.
  apply allReady_elem with (name := name) in Hr; [| done].
  apply elem_of_readyContainers in Hr as [Hr | Hr]; [| done].
  by apply elem_of_empty in Hr.
Qed.

Lemma podCondition_keepsWaiting birthDeps podName e ctx :
  keepsWaiting birthDeps (PodEvent e) ->
  ctx_Err (podCondition ctx_AddEvent podName
             (onReadyOfAll birthDeps cancel) e ctx).2 = ctx_Err ctx.
Proof.
  intros Hk. unfold podCondition.
  case_bool_decide as Herr; [done |].
  destruct Hk as [Hk | Hk]; [done |].
  destruct (onReadyOfAll_not_ready birthDeps cancel e ctx Hk) as [-> | ->];
    by case_bool_decide.
Qed.

Lemma awaitDone_unwatched birthDeps podName events ctx :
  ctx_Err ctx = None -> TermSignal ∉ events ->
  ctx_Err (awaitDone birthDeps podName events false ctx)
  = Some DeadlineExceeded.
Proof.
  revert ctx. induction events as [| ev events IH]; intros ctx Hctx Hterm;
    simpl; rewrite Hctx.
  - unfold deadline. by rewrite Hctx.
  - destruct ev as [e |].
    + apply IH; [done |]. intros Hin. apply Hterm, elem_of_cons. by right.
    + exfalso. apply Hterm, elem_of_cons. by left.
Qed.

Lemma awaitDone_keepsWaiting birthDeps podName events podWatch ctx :
  ctx_Err ctx = None -> Forall (keepsWaiting birthDeps) events ->
  ctx_Err (awaitDone birthDeps podName events podWatch ctx)
  = Some DeadlineExceeded.
Proof.
  intros Hctx Hev. revert podWatch ctx Hctx.
  induction Hev as [| ev events Hk Hev IH]; intros podWatch ctx Hctx;
    simpl; rewrite Hctx.
  - unfold deadline. by rewrite Hctx.
  - destruct ev as [e |]; [| done].
    destruct podWatch; [| by apply IH].
    pose proof (podCondition_keepsWaiting birthDeps podName e ctx Hk) as Hc.
    destruct (podCondition _ _ _ _ _) as [stop ctx']. simpl in Hc.
    apply IH. by rewrite Hc.
Qed.

Lemma awaitDone_deleted birthDeps podName pre del post ctx :
  ctx_Err ctx = None ->
  Forall (keepsWaiting birthDeps) pre ->
  Type_ del = Deleted -> TermSignal ∉ post ->
  ctx_Err (awaitDone birthDeps podName (pre ++ PodEvent del :: post) true ctx)
  = Some DeadlineExceeded.
Proof.
  intros Hctx Hpre Hdel Hpost.
  assert (Hgen : forall podWatch,
            ctx_Err (awaitDone birthDeps podName
                       (pre ++ PodEvent del :: post) podWatch ctx)
            = Some DeadlineExceeded); [| apply Hgen].
  revert ctx Hctx.
  induction Hpre as [| ev pre Hk Hpre IH]; intros ctx Hctx podWatch;
    simpl; rewrite Hctx.
  - destruct podWatch; [| by apply awaitDone_unwatched].
    unfold podCondition, onReadyOfAll. rewrite Hdel. simpl.
    by apply awaitDone_unwatched.
  - destruct ev as [e |]; [| done].
    destruct podWatch; [| by apply IH].
    pose proof (podCondition_keepsWaiting birthDeps podName e ctx Hk) as Hc.
    destruct (podCondition _ _ _ _ _) as [stop ctx']. simpl in Hc.
    apply IH. by rewrite Hc.
Qed.

Lemma onReadyOfAll_cancel_Err birthDeps e ctx :
  ctx_Err ctx <> Some DeadlineExceeded ->
  ctx_Err (onReadyOfAll birthDeps cancel e ctx) <> Some DeadlineExceeded.
Proof.
  intros Hctx. unfold onReadyOfAll, cancel.
  case_bool_decide; [done |].
  destruct (Object_ e) as [statuses |]; [| done].
  destruct (allReady _ _); [| done].
  destruct (ctx_Err ctx) eqn:Hc; [by rewrite Hc | done].
Qed.

Lemma awaitDone_ready birthDeps podName pre e post ctx :
  ctx_Err ctx <> Some DeadlineExceeded ->
  Forall (fun ev => ~ isDeletion ev) pre ->
  Type_ e <> ErrorEvent -> podReady birthDeps e ->
  ctx_Err (awaitDone birthDeps podName (pre ++ PodEvent e :: post) true ctx)
  = Some Canceled.
Proof.
  intros Hctx Hpre Herr Hready. revert ctx Hctx.
  induction Hpre as [| ev pre Hk Hpre IH]; intros ctx Hctx; simpl.
  - destruct (ctx_Err ctx) as [[] |] eqn:Hc; try done.
    unfold podCondition.
    rewrite (bool_decide_eq_false_2 _ Herr).
    rewrite (onReadyOfAll_ready _ _ _ _ Hready).
    destruct Hready as [Hdel _]. rewrite (bool_decide_eq_false_2 _ Hdel).
    assert (Hcan : ctx_Err (cancel ctx) = Some Canceled)
      by (unfold cancel; by rewrite Hc).
    destruct post as [| ev post]; simpl; by rewrite Hcan.
  - destruct (ctx_Err ctx) as [[] |] eqn:Hc; try done.
    destruct ev as [e' |].
    + unfold podCondition. case_bool_decide as He'.
      * apply IH. simpl. by rewrite Hc.
      * simpl in Hk. rewrite (bool_decide_eq_false_2 _ Hk).
        apply IH, onReadyOfAll_cancel_Err. by rewrite Hc.
    + apply IH. unfold cancel. by rewrite Hc.
Qed.

(** X10: the birth handler calls back exactly when the event is not a
    deletion and shows a pod in which every birth dependency has a ready
    container status; otherwise the context is left as it was, but for the
    log entry on an object that is not a pod. *)
Theorem onReadyOfAll_calls_back (birthDeps : list string)
    (callback : BirthCtx -> BirthCtx) (e : watch_Event) (ctx : BirthCtx) :
  (podReady birthDeps e ->
   onReadyOfAll birthDeps callback e ctx = callback ctx)
  /\ (~ podReady birthDeps e ->
      onReadyOfAll birthDeps callback e ctx = ctx
      \/ onReadyOfAll birthDeps callback e ctx
         = ctx_AddEvent MsgUnexpectedObject ctx).
Proof.
  split; [apply onReadyOfAll_ready | apply onReadyOfAll_not_ready].
Qed.

(** X11: the birth wait ends in the timeout error when nothing that
    happens before the deadline ends it: every event is an error event or
    shows the pod not ready and no TERM arrives; the same holds when such
    events are followed by the pod's deletion, which stops the pod watch
    for good, whatever the pod events after it show. *)
Theorem waitForBirthDeps_times_out (birthDeps : list string)
    (podName : string) (timeout : Z) (events : list BirthEvent) (tr : Trace) :
  Forall (keepsWaiting birthDeps) events
  \/ (exists pre del post,
        events = pre ++ PodEvent del :: post
        /\ Forall (keepsWaiting birthDeps) pre
        /\ Type_ del = Deleted /\ TermSignal ∉ post) ->
  (waitForBirthDeps birthDeps podName timeout None events tr).1
  = Some (errors_WithStack
            (errors_New ("timed out waiting for birth deps to be ready: "
                         +:+ pretty timeout))).
Proof.
  intros Hev. unfold waitForBirthDeps.
  set (ctx := ctx_AddEvent (MsgWatchingPod podName) _).
  assert (Hd : ctx_Err (awaitDone birthDeps podName events true ctx)
               = Some DeadlineExceeded).
  { destruct Hev as [Hev | (pre & del & post & -> & Hpre & Hdel & Hpost)].
    - by apply awaitDone_keepsWaiting.
    - by apply awaitDone_deleted. }
  by rewrite Hd.
Qed.

(** X12: the birth wait succeeds as soon as an event shows the pod ready,
    provided the pod watch still runs, that is no deletion came before:
    the error is nil and the last log entry says that all birth
    dependencies are ready. *)
Theorem waitForBirthDeps_ready (birthDeps : list string)
    (podName : string) (timeout : Z) (pre post : list BirthEvent)
    (e : watch_Event) (tr : Trace) :
  Forall (fun ev => ~ isDeletion ev) pre ->
  Type_ e <> ErrorEvent -> podReady birthDeps e ->
  exists tr',
    waitForBirthDeps birthDeps podName timeout None
      (pre ++ PodEvent e :: post) tr
    = (None, tr' ++ [MsgAllBirthDepsReady birthDeps]).
Proof.
  intros Hpre Herr Hready. unfold waitForBirthDeps.
  set (ctx := ctx_AddEvent (MsgWatchingPod podName) _).
  rewrite (awaitDone_ready birthDeps podName pre e post ctx); try done.
  by eexists.
Qed.

(** X13: a run whose birth dependencies do not get ready in time never
    starts the child and records no birth: it exits with code 1 and its
    last act on the tombstone is a death record with exit code -1 and no
    birth time. *)
Theorem birth_timeout_never_starts (cfg : config) (env : Env) (disk : FS) :
  length (args env) <> 0%nat ->
  (0 < length (config_BirthDeps cfg))%nat ->
  inClusterConfig env = None -> newForConfig env = None ->
  Forall (keepsWaiting (config_BirthDeps cfg)) (birthEvents env) ->
  exists w t,
    runApp cfg env disk = Some (1, w)
    /\ (CallStart ∉ calls w)
    /\ (forall t', CallRecordBirth t' ∉ calls w)
    /\ last (calls w) = Some (CallRecordDeath (-1) t)
    /\ Born t = None /\ Died t = Some (deathTime env)
    /\ ExitCode t = Some (-1).
Proof.
  intros Hargs Hdeps Hconf Hclient Hev.
  assert (Hbirth : birthResult cfg env <> None).
  { unfold birthResult. rewrite (bool_decide_eq_true_2 _ Hdeps).
    rewrite Hconf, Hclient. unfold waitForBirthDeps. simpl.
    by rewrite awaitDone_keepsWaiting. }
  destruct (runApp_course cfg env disk) as (code & w & Hrun & Hcourse).
  inversion Hcourse as
    [Hno | pre t logs Hpre Hfail Hb Hd Hc Hlog
     | pre t e logs Hpre Hw Hbr | pre pid tb tail logs Hpre Hw Hbr
     | pre pid tb t c logs Hpre Hw Hbr]; try done.
  subst. exists w, t. split; [done |].
  match goal with Hcalls : _ = calls w |- _ => rewrite <- Hcalls end.
  assert (Hset : forall c, c ∈ pre -> setup c)
    by (by apply Forall_forall).
  split; [| split; [| split]].
  - intros Hin. apply elem_of_app in Hin as [Hin | Hin].
    + by destruct (Hset _ Hin).
    + elem_of_calls.
  - intros t' Hin. apply elem_of_app in Hin as [Hin | Hin].
    + by destruct (Hset _ Hin).
    + elem_of_calls.
  - rewrite last_app. done.
  - done.
Qed.
End BirthMore.

(** ** The goroutine of [withCancelOnSignal] *)
Section CancelOnSignal.
Import supervisor kubexit terms.

Lemma cancelLoop_app turns1 turns2 st st' :
  cancelLoop turns1 st = Looping st' ->
  cancelLoop (turns1 ++ turns2) st = cancelLoop turns2 st'.
Proof.
  revert st. induction turns1 as [| t turns1 IH]; intros st; simpl.
  - by intros [= ->].
  - destruct (cancelTurn t st) as [st1 | st1 |]; [apply IH | done | done].
Qed.

Lemma cancelLoop_quiet turns st :
  Sigterm ∉ turns -> sc_done st = false -> sc_buffered st = false ->
  sc_sigCh st = ChanOpen ->
  cancelLoop turns st = Looping st.
Proof.
  intros Hno Hd Hb Hc. induction turns as [| t turns IH]; [done |].
  apply not_elem_of_cons in Hno as [Ht Hno].
  destruct t; [done | |]; simpl; rewrite ?Hb, ?Hc, ?Hd; by apply IH.
Qed.

Lemma cancelTurn_closedByDone t st st' :
  closedByDone st -> cancelTurn t st = Looping st' -> closedByDone st'.
Proof.
  unfold closedByDone.
  destruct t, st as [d [] b n r]; simpl; intros [Hn Hr] Hturn;
    destruct d, b, n; simplify_eq/=; try destruct Hr; done.
Qed.

Lemma cancelLoop_closedByDone turns st st' :
  closedByDone st -> cancelLoop turns st = Looping st' -> closedByDone st'.
Proof.
  revert st. induction turns as [| t turns IH]; intros st Hinv; simpl.
  - by intros [= ->].
  - destruct (cancelTurn t st) as [st1 | st1 |] eqn:Ht; [| done | done].
    apply IH. by eapply cancelTurn_closedByDone.
Qed.

(** X14: the goroutine of [withCancelOnSignal].  Without a TERM nothing
    happens, so its context is cancelled by a TERM only.  After a TERM is
    received the done case resets the signal handling and closes the
    channel, once; from then on both cases of the [select] are ready: the
    done case panics on closing the closed channel, and the channel case
    ends the goroutine unless a second TERM still waits in the channel. *)
Theorem withCancelOnSignal_goroutine (turns rest : list Wakeup)
    (st : SignalCtx) :
  (Sigterm ∉ turns -> cancelLoop turns signalCtx0 = Looping signalCtx0)
  /\ (cancelLoop turns signalCtx0 = Looping st ->
      sc_sigCh st = ChanClosed ->
      sc_done st = true /\ sc_notify st = false /\ sc_resets st = 1%nat
      /\ cancelLoop (turns ++ CaseDone :: rest) signalCtx0 = Panicked
      /\ (sc_buffered st = false ->
          cancelLoop (turns ++ CaseSigCh :: rest) signalCtx0 = Returned st))
  /\ cancelLoop [Sigterm; CaseSigCh; CaseDone] signalCtx0
     = Looping {| sc_done := true; sc_sigCh := ChanClosed;
                  sc_buffered := false; sc_notify := false;
                  sc_resets := 1 |}.
Proof.
  split; [intros Hno; by apply cancelLoop_quiet |]. split; [| done].
  intros Hloop Hclosed.
  pose proof (cancelLoop_closedByDone turns signalCtx0 st) as Hinv.
  unfold closedByDone in Hinv at 2. rewrite Hclosed in Hinv.
  destruct Hinv as (Hd & Hn & Hr); [done | done |].
  do 3 (split; [done |]). rewrite !(cancelLoop_app _ _ _ _ Hloop). simpl.
  rewrite Hd, Hclosed. split; [done |]. by intros ->.
Qed.

End CancelOnSignal.

(** ** Go's [strings] *)
Section GoStrings.
Import gostrings.

Lemma append_assoc (s1 s2 s3 : string) :
  (s1 +:+ s2) +:+ s3 = s1 +:+ (s2 +:+ s3).
Proof.
  induction s1 as [| c s1 IH]; [done |].
  change (String c ((s1 +:+ s2) +:+ s3) = String c (s1 +:+ (s2 +:+ s3))).
  by rewrite IH.
Qed.

Lemma append_cons (c : ascii) (s1 s2 : string) :
  String c s1 +:+ s2 = String c (s1 +:+ s2).
Proof. done. Qed.

Lemma append_nil_l (s : string) : "" +:+ s = s.
Proof. done. Qed.

Lemma Split_nonempty s sep : Split s sep <> [].
Proof.
  destruct s as [| c s]; simpl; [done |].
  destruct (Ascii.eqb c sep); [done |]. by destruct (Split s sep).
Qed.

Lemma Join_cons e elems sep :
  elems <> [] -> Join (e :: elems) sep = e +:+ sep +:+ Join elems sep.
Proof. by destruct elems. Qed.

Lemma Join_Split s sep : Join (Split s sep) (String sep "") = s.
Proof.
  induction s as [| c s IH]; [done |]. simpl.
  destruct (Ascii.eqb c sep) eqn:Hc.
  - apply Ascii.eqb_eq in Hc as ->.
    rewrite Join_cons by apply Split_nonempty. by rewrite IH.
  - pose proof (Split_nonempty s sep) as Hne.
    destruct (Split s sep) as [| w ws]; [done |].
    destruct ws as [| w' ws]; simpl in *; [by rewrite IH |].
    rewrite append_cons. by rewrite IH.
Qed.

Lemma Split_no_sep s sep w :
  w ∈ Split s sep -> ContainsRune w sep = false.
Proof.
  revert w. induction s as [| c s IH]; intros w; simpl.
  - intros Hin. apply list_elem_of_singleton in Hin as ->. done.
  - destruct (Ascii.eqb c sep) eqn:Hc.
    + intros Hin. apply elem_of_cons in Hin as [-> | Hin]; [done |].
      by apply IH.
    + pose proof (Split_nonempty s sep) as Hne.
      destruct (Split s sep) as [| w0 ws]; [done |].
      intros Hin. apply elem_of_cons in Hin as [-> | Hin].
      * simpl. rewrite Hc. apply IH, elem_of_cons. by left.
      * apply IH, elem_of_cons. by right.
Qed.

Lemma Split_word w sep :
  ContainsRune w sep = false -> Split w sep = [w].
Proof.
  induction w as [| c w IH]; simpl; [done |].
  intros Hw. apply orb_false_elim in Hw as [Hc Hw].
  by rewrite Hc, IH.
Qed.

Lemma Split_word_sep w sep rest :
  ContainsRune w sep = false ->
  Split (w +:+ String sep rest) sep = w :: Split rest sep.
Proof.
  induction w as [| c w IH]; simpl.
  - intros _. change ("" +:+ String sep rest) with (String sep rest).
    simpl. by rewrite Ascii.eqb_refl.
  - intros Hw. apply orb_false_elim in Hw as [Hc Hw].
    by rewrite Hc, IH.
Qed.

Lemma Split_Join elems sep :
  elems <> [] ->
  Forall (fun w => ContainsRune w sep = false) elems ->
  Split (Join elems (String sep "")) sep = elems.
Proof.
  intros Hne Hall. induction Hall as [| w elems Hw Hall IH]; [done |].
  destruct elems as [| w' elems]; [by apply Split_word |].
  rewrite Join_cons by done.
  change (String sep "" +:+ Join (w' :: elems) (String sep ""))
    with (String sep (Join (w' :: elems) (String sep ""))).
  rewrite Split_word_sep by done. by rewrite IH.
Qed.

Lemma TrimRight_snoc s cut :
  TrimRight (s +:+ String cut "") cut = TrimRight s cut.
Proof.
  induction s as [| c s IH]; simpl.
  - change ("" +:+ String cut "") with (String cut ""). simpl.
    by rewrite Ascii.eqb_refl.
  - by rewrite IH.
Qed.

Lemma TrimRight_cuts n cut :
  TrimRight (Nat.iter n (String cut) "") cut = "".
Proof.
  induction n as [| n IH]; simpl; [done |].
  by rewrite IH, Ascii.eqb_refl.
Qed.

Lemma TrimRight_empty s cut :
  TrimRight s cut = "" -> exists n, s = Nat.iter n (String cut) "".
Proof.
  induction s as [| c s IH]; simpl; [by exists 0%nat |].
  destruct (TrimRight s cut) eqn:Ht; [| done].
  destruct (Ascii.eqb c cut) eqn:Hc; [| done].
  intros _. apply Ascii.eqb_eq in Hc as ->.
  destruct (IH eq_refl) as [n ->]. by exists (S n).
Qed.
End GoStrings.

(** Finds the disjunct that holds. *)
Ltac pick_cause :=
  solve [ assumption
        | split; [assumption | (by left) || (by right)]
        | intros [? | [? ?]]; congruence
        | left; pick_cause
        | right; pick_cause ].

(** Names the values of the environment variables in the goal. *)
Ltac getenv_vars environ :=
  repeat match goal with
         | |- context [kubexit.os_Getenv environ ?key] =>
             generalize (kubexit.os_Getenv environ key); intro
         end.

(** ** The configuration *)
Section ParseConfig.
Import gostrings main kubexit terms.
Context `{ConfLib}.

Lemma listed_length str :
  bool_decide (0 < length (listed str))%nat = bool_decide (str <> "").
Proof.
  unfold listed. destruct (decide (str = "")) as [-> | Hs]; [done |].
  rewrite !(bool_decide_eq_true_2 (str <> "")) by done.
  apply bool_decide_eq_true_2.
  pose proof (Split_nonempty str ","%char).
  destruct (Split str ","%char); simpl; [done | lia].
Qed.

(** The shape of a successful parse. *)
Lemma parseConfig_inl environ cfg :
  parseConfig environ = inl cfg ->
  os_Getenv environ "KUBEXIT_NAME" <> ""
  /\ config_Name cfg = os_Getenv environ "KUBEXIT_NAME"
  /\ config_Graveyard cfg
     = (if bool_decide (os_Getenv environ "KUBEXIT_GRAVEYARD" = "")
        then "/graveyard"
        else filepath_Clean
               (TrimRight (os_Getenv environ "KUBEXIT_GRAVEYARD") "/"%char))
  /\ config_BirthDeps cfg = listed (os_Getenv environ "KUBEXIT_BIRTH_DEPS")
  /\ config_DeathDeps cfg = listed (os_Getenv environ "KUBEXIT_DEATH_DEPS")
  /\ config_PodName cfg = os_Getenv environ "KUBEXIT_POD_NAME"
  /\ config_Namespace cfg = os_Getenv environ "KUBEXIT_NAMESPACE"
  /\ (os_Getenv environ "KUBEXIT_BIRTH_DEPS" <> "" ->
      os_Getenv environ "KUBEXIT_POD_NAME" <> ""
      /\ os_Getenv environ "KUBEXIT_NAMESPACE" <> "").
Proof.
  unfold parseConfig.
  fold (listed (os_Getenv environ "KUBEXIT_BIRTH_DEPS")).
  fold (listed (os_Getenv environ "KUBEXIT_DEATH_DEPS")).
  rewrite !listed_length. getenv_vars environ.
  intros Hp.
  repeat match type of Hp with
         | match ?x with inl _ => _ | inr _ => _ end = _ =>
             destruct x; [| done]
         | (if ?b then _ else _) = _ => destruct b eqn:?; [done |]
         end.
  repeat match goal with
         | Hb : bool_decide _ = false |- _ =>
             apply bool_decide_eq_false in Hb
         | Hb : _ && _ = false |- _ => apply andb_false_iff in Hb
         end.
  simplify_eq/=. do 7 (split; [done |]). intros Hdeps.
  rewrite (bool_decide_eq_true_2 _ Hdeps) in *.
  split; intros ->; by destruct Heqb0, Heqb1.
Qed.

Lemma listed_spec str :
  (listed str = [] <-> str = "")
  /\ Join (listed str) "," = str
  /\ (forall name, name ∈ listed str -> ContainsRune name ","%char = false).
Proof.
  unfold listed. destruct (decide (str = "")) as [-> | Hs].
  - split; [done |]. split; [done |]. intros name Hin.
    by apply elem_of_nil in Hin.
  - rewrite (bool_decide_eq_true_2 (str <> "")) by done.
    split; [| split].
    + split; [| done]. intros Hnil. by apply Split_nonempty in Hnil.
    + apply Join_Split.
    + intros name. apply Split_no_sep.
Qed.

(** X15: a configuration that [parseConfig] returns has a name, and when
    it lists birth dependencies it also has the pod name and the namespace
    that the pod watch needs. *)
Theorem parseConfig_valid (environ : Environ) (cfg : config) :
  parseConfig environ = inl cfg ->
  config_Name cfg <> ""
  /\ (config_BirthDeps cfg <> [] ->
      config_PodName cfg <> "" /\ config_Namespace cfg <> "").
Proof.
  intros Hp.
  destruct (parseConfig_inl environ cfg Hp)
    as (Hname & -> & _ & -> & _ & -> & -> & Hpod).
  split; [done |]. intros Hdeps. apply Hpod. intros Hs.
  by apply Hdeps, listed_spec.
Qed.

(** X16: the dependency lists of a parsed configuration are the
    comma-separated fields of the variables: joining them with commas gives
    the variable back, no name holds a comma, and a list is empty exactly
    when its variable is unset or empty.  Fields are taken as they are, so
    a name may be empty or carry spaces. *)
Theorem parseConfig_deps (environ : Environ) (cfg : config) :
  parseConfig environ = inl cfg ->
  (config_BirthDeps cfg = [] <-> os_Getenv environ "KUBEXIT_BIRTH_DEPS" = "")
  /\ Join (config_BirthDeps cfg) "," = os_Getenv environ "KUBEXIT_BIRTH_DEPS"
  /\ (config_DeathDeps cfg = [] <-> os_Getenv environ "KUBEXIT_DEATH_DEPS" = "")
  /\ Join (config_DeathDeps cfg) "," = os_Getenv environ "KUBEXIT_DEATH_DEPS"
  /\ (forall name,
        name ∈ config_BirthDeps cfg ++ config_DeathDeps cfg ->
        ContainsRune name ","%char = false).
Proof.
  intros Hp.
  destruct (parseConfig_inl environ cfg Hp)
    as (_ & _ & _ & -> & -> & _).
  destruct (listed_spec (os_Getenv environ "KUBEXIT_BIRTH_DEPS"))
    as (Hb1 & Hb2 & Hb3).
  destruct (listed_spec (os_Getenv environ "KUBEXIT_DEATH_DEPS"))
    as (Hd1 & Hd2 & Hd3).
  repeat split; try done; try apply Hb1; try apply Hd1.
  intros name Hin. apply elem_of_app in Hin as [Hin | Hin]; auto.
Qed.

(** X17: with only the name set, [parseConfig] succeeds with the defaults:
    the graveyard "/graveyard", no dependencies, 30 seconds for both
    durations, verbosity 0 and no instant logging; no parser is called. *)
Theorem parseConfig_defaults (environ : Environ) :
  os_Getenv environ "KUBEXIT_NAME" <> "" ->
  (forall key, key <> "KUBEXIT_NAME" -> os_Getenv environ key = "") ->
  parseConfig environ
  = inl {| config_Name := os_Getenv environ "KUBEXIT_NAME";
           config_Graveyard := "/graveyard";
           config_BirthDeps := []; config_DeathDeps := [];
           config_BirthTimeout := 30 * time_Second;
           config_GracePeriod := 30 * time_Second;
           config_PodName := ""; config_Namespace := "";
           config_VerboseLevel := 0; config_InstantLogging := false |}.
Proof.
  intros Hname Hrest. unfold parseConfig.
  rewrite (bool_decide_eq_false_2 _ Hname).
  rewrite (Hrest "KUBEXIT_GRAVEYARD"), (Hrest "KUBEXIT_BIRTH_DEPS"),
    (Hrest "KUBEXIT_DEATH_DEPS"), (Hrest "KUBEXIT_BIRTH_TIMEOUT"),
    (Hrest "KUBEXIT_GRACE_PERIOD"), (Hrest "KUBEXIT_POD_NAME"),
    (Hrest "KUBEXIT_NAMESPACE"), (Hrest "KUBEXIT_VERBOSE_LEVEL"),
    (Hrest "KUBEXIT_INSTANT_LOGGING") by done.
  done.
Qed.

(** X18: [parseConfig] fails in exactly these cases: the name is missing;
    a duration, the verbose level or the instant-logging flag is set to a
    value its parser rejects; or birth dependencies are given without the
    pod name or the namespace.  The graveyard and the death dependencies
    never make it fail. *)
Theorem parseConfig_fails (environ : Environ) :
  (exists err, parseConfig environ = inr err)
  <-> os_Getenv environ "KUBEXIT_NAME" = ""
      \/ ~ parses time_ParseDuration
             (os_Getenv environ "KUBEXIT_BIRTH_TIMEOUT")
      \/ ~ parses time_ParseDuration
             (os_Getenv environ "KUBEXIT_GRACE_PERIOD")
      \/ (os_Getenv environ "KUBEXIT_BIRTH_DEPS" <> ""
          /\ (os_Getenv environ "KUBEXIT_POD_NAME" = ""
              \/ os_Getenv environ "KUBEXIT_NAMESPACE" = ""))
      \/ ~ parses strconv_Atoi (os_Getenv environ "KUBEXIT_VERBOSE_LEVEL")
      \/ ~ parses strconv_ParseBool
             (os_Getenv environ "KUBEXIT_INSTANT_LOGGING").
Proof.
  unfold parseConfig, parses.
  fold (listed (os_Getenv environ "KUBEXIT_BIRTH_DEPS")).
  fold (listed (os_Getenv environ "KUBEXIT_DEATH_DEPS")).
  rewrite !listed_length, !bool_decide_not. getenv_vars environ.
  repeat (match goal with
          | |- context [bool_decide ?P] => destruct (bool_decide_reflect P)
          | |- context [match ?x with inl _ => _ | inr _ => _ end] =>
              destruct x eqn:?
          end; simpl);
    (split;
     [intros [err Herr]; try discriminate; pick_cause
     | intros Hbad; try (by eexists); exfalso;
       destruct Hbad as [? | [Hb | [Hb | [[? [? | ?]] | [Hb | Hb]]]]];
       try done; apply Hb; (by left) || (right; by eexists)]).
Qed.

(** X19: a trailing slash of the graveyard makes no difference to the
    configuration, and a graveyard made of slashes only, the root
    directory, becomes what [filepath.Clean] makes of the empty path. *)
Theorem parseConfig_graveyard (environ : Environ) :
  (forall g,
     g <> "" ->
     parseConfig (<["KUBEXIT_GRAVEYARD" := g +:+ "/"]> environ)
     = parseConfig (<["KUBEXIT_GRAVEYARD" := g]> environ))
  /\ (forall n cfg,
        parseConfig
          (<["KUBEXIT_GRAVEYARD" := Nat.iter (S n) (String "/"%char) ""]>
             environ) = inl cfg ->
        config_Graveyard cfg = filepath_Clean "").
Proof.
  split.
  - intros g Hg. unfold parseConfig, os_Getenv.
    rewrite !lookup_insert_eq, !lookup_insert_ne by done. simpl.
    assert (Hg' : g +:+ "/" <> "") by (by destruct g).
    rewrite (bool_decide_eq_false_2 _ Hg), (bool_decide_eq_false_2 _ Hg').
    by rewrite TrimRight_snoc.
  - intros n cfg Hp.
    destruct (parseConfig_inl _ cfg Hp) as (_ & _ & -> & _).
    unfold os_Getenv. rewrite lookup_insert_eq.
    change (default "" (Some ?x)) with x.
    rewrite bool_decide_eq_false_2 by done.
    by rewrite (TrimRight_cuts (S n)).
Qed.
End ParseConfig.

(** ** The stack trace hook of the logger *)
Section LoggerHook.
Import loggerhook.
Context {Frame : Type} (format : Frame -> string).

Lemma oldestFrom_last (err : Err Frame) (oldest : option (Err Frame)) :
  oldestFrom err oldest
  = match last (filter (fun e => isStackTracer e = true) (chain err)) with
    | Some tracer => Some tracer
    | None => oldest
    end.
Proof.
  revert oldest.
  induction err as [text stack | text stack cause IH]; intros oldest.
  - simpl. rewrite filter_cons, filter_nil.
    destruct (isStackTracer (Leaf text stack)) eqn:Ht; by case_decide.
  - simpl oldestFrom. rewrite IH. simpl chain. rewrite filter_cons.
    destruct (isStackTracer (Caused text stack cause)) eqn:Ht;
      case_decide; try done.
    rewrite last_cons.
    by destruct (last (filter _ (chain cause))).
Qed.

Lemma toStringSlice_fmap (stackTrace : list Frame) :
  toStringSlice format stackTrace = format <$> stackTrace.
Proof.
  unfold toStringSlice.
  assert (Hgen : forall result,
            foldl (fun result f => result ++ [format f]) result stackTrace
            = result ++ (format <$> stackTrace)); [| apply Hgen].
  induction stackTrace as [| f st IH]; intros result; simpl.
  - by rewrite app_nil_r.
  - by rewrite IH, <- app_assoc.
Qed.

(** X20: [GetStackTrace] formats the stack of the last error of the cause
    chain that carries one, the oldest, and gives nothing when none does;
    so wrapping an error that already has a stack somewhere in its chain
    does not change the trace that is logged. *)
Theorem GetStackTrace_oldest (err : Err Frame) :
  getOldestStackTracer (Some err)
  = last (filter (fun e => isStackTracer e = true) (chain err))
  /\ GetStackTrace format (Some err)
     = match last (filter (fun e => isStackTracer e = true) (chain err)) with
       | Some tracer => format <$> StackTrace tracer
       | None => []
       end
  /\ (forall text stack,
        getOldestStackTracer (Some err) <> None ->
        GetStackTrace format (Some (Caused text stack err))
        = GetStackTrace format (Some err)).
Proof.
  assert (Hold : forall e : Err Frame,
            getOldestStackTracer (Some e)
            = last (filter (fun e => isStackTracer e = true) (chain e))).
  { intros e. simpl. rewrite oldestFrom_last. by destruct (last _). }
  split; [apply Hold |]. split.
  - unfold GetStackTrace. rewrite Hold.
    destruct (last _); [apply toStringSlice_fmap | done].
  - intros text stack Hsome. unfold GetStackTrace.
    rewrite Hold in Hsome. rewrite !Hold. simpl chain. rewrite filter_cons.
    destruct (last (filter _ (chain err))) as [tracer |] eqn:Hl; [| done].
    case_decide; [| by rewrite Hl].
    by rewrite last_cons, Hl.
Qed.

(** X21: the hook touches the keys "error" and "stack" only, leaves no
    error value under "error" (it is replaced by its text), sets "stack"
    only when a trace was found, and firing it a second time changes
    nothing. *)
Theorem Fire_idempotent (data : gmap string (Value Frame)) :
  Fire format (Fire format data) = Fire format data
  /\ (forall key, key <> ErrorKey -> key <> keyStack ->
                  Fire format data !! key = data !! key)
  /\ (forall err, Fire format data !! ErrorKey <> Some (VError err))
  /\ (forall err,
        data !! ErrorKey = Some (VError err) ->
        Fire format data !! ErrorKey = Some (VString (Error_ err))
        /\ Fire format data !! keyStack
           = match GetStackTrace format (Some err) with
             | [] => data !! keyStack
             | trace => Some (VStrings trace)
             end).
Proof.
  unfold Fire.
  destruct (data !! ErrorKey) as [[err | s | l | repr] |] eqn:Hd;
    try (rewrite Hd; repeat split; try done; congruence).
  set (data' := match GetStackTrace format (Some err) with
                | [] => data
                | _ :: _ => _
                end).
  assert (Hstack : <[ErrorKey := VString (Error_ err)]> data' !! keyStack
                   = match GetStackTrace format (Some err) with
                     | [] => data !! keyStack
                     | trace => Some (VStrings trace)
                     end).
  { rewrite lookup_insert_ne by done. subst data'.
    destruct (GetStackTrace format (Some err)); [done |].
    by rewrite lookup_insert_eq. }
  rewrite lookup_insert_eq.
  split; [done |]. split; [| split; [done |]].
  - intros key Hk1 Hk2. rewrite lookup_insert_ne by done. subst data'.
    destruct (GetStackTrace format (Some err)); [done |].
    by rewrite lookup_insert_ne.
  - intros err' [= <-]. by split.
Qed.
End LoggerHook.

(** ** The command line in the "Start" event *)
Section CmdLine.
Import gostrings cmdline terms.

Lemma writeArg_quoted buffer arg :
  writeArg buffer arg = buffer +:+ String space (quoted arg).
Proof.
  unfold writeArg, quoted.
  destruct (ContainsRune arg space);
    rewrite !append_assoc; done.
Qed.

Lemma foldl_writeArg args buffer :
  foldl writeArg buffer args
  = match args with
    | [] => buffer
    | _ :: _ =>
        buffer +:+ String space (Join (quoted <$> args) (String space ""))
    end.
Proof.
  revert buffer. induction args as [| arg args IH]; intros buffer; [done |].
  simpl foldl. rewrite IH, writeArg_quoted.
  destruct args as [| arg' args]; [done |].
  rewrite append_assoc. done.
Qed.

(** X22: the command line of the "Start" event is empty when the path is,
    and otherwise the path and the arguments after the first, each in
    double quotes when it holds a space, joined by single spaces.  When no
    word holds a space, splitting the line at the spaces gives the words
    back. *)
Theorem Supervisor_String_joins (cmd : Cmd) :
  Supervisor_String cmd
  = (if bool_decide (Path cmd = "") then ""
     else Join (quoted <$> words cmd) (String space ""))
  /\ (Path cmd <> "" ->
      Forall (fun w => ContainsRune w space = false) (words cmd) ->
      Split (Supervisor_String cmd) space = words cmd).
Proof.
  assert (Hjoin : Supervisor_String cmd
                  = if bool_decide (Path cmd = "") then ""
                    else Join (quoted <$> words cmd) (String space "")).
  { unfold Supervisor_String, words. case_bool_decide as Hp; [done |].
    set (buffer := if ContainsRune (Path cmd) space then _ else _).
    assert (Hb : buffer = quoted (Path cmd)).
    { subst buffer. unfold quoted.
      destruct (ContainsRune (Path cmd) space); [| done].
      by rewrite append_assoc. }
    rewrite Hb. case_bool_decide as Hlen.
    - rewrite foldl_writeArg.
      destruct (Args cmd) as [| a0 [| a1 args]]; simpl in *; try done; lia.
    - destruct (Args cmd) as [| a0 [| a1 args]]; simpl in *; try done; lia. }
  split; [done |]. intros Hp Hw.
  rewrite Hjoin, bool_decide_eq_false_2 by done.
  assert (Hq : quoted <$> words cmd = words cmd).
  { clear Hjoin. induction Hw as [| w ws Hw Hws IH]; [done |].
    rewrite fmap_cons, IH. unfold quoted. by rewrite Hw. }
  rewrite Hq. by apply Split_Join.
Qed.
End CmdLine.

(** ** Further sample runs *)
Section MoreRuns.
Import event supervisor tombstone kubernetes main props terms kubexit.

Lemma Wait_twice_panics_witness :
  Start (inl 42) (New []) = (None, sample.running)
  /\ exists err s2,
       Wait (WaitState (Exited 3)) sample.running = Some (err, s2)
       /\ Wait (WaitState (Exited 3)) s2 = None.
Proof.
  split; [done |].
  exact (Wait_twice_panics (inl 42) (New []) sample.running
           (WaitState (Exited 3)) (WaitState (Exited 3)) eq_refl).
Defined.

Lemma unstarted_child_is_skipped_witness :
  cmd_Process (New []) = None /\ sigCh (New []) = None
  /\ ShutdownNow None (New []) = (None, New [])
  /\ ShutdownWithTimeout 5 None (New []) = (None, New [])
  /\ exists s',
       Wait (WaitState (Exited 0)) (New [])
       = Some (Some (errors_New "exec: not started"), s').
Proof.
  destruct (unstarted_child_is_skipped (New []) eq_refl eq_refl)
    as (_ & Hnow & Hgrace & Hwait).
  split; [done |]. split; [done |]. split; [apply Hnow |].
  split; [apply Hgrace |].
  destruct (Hwait (WaitState (Exited 0))) as (s' & Hw & _). by exists s'.
Defined.

Lemma refused_TERM_is_retried_witness :
  isRunning sample.running = true /\ shutdownTimer sample.running = None
  /\ shutdownTimer
       (ShutdownWithTimeout 5 None
          (ShutdownWithTimeout 5 (Some (errors_New "operation not permitted"))
             sample.running).2).2
     = Some (Armed 5).
Proof.
  split; [done |]. split; [done |].
  pose proof (refused_TERM_is_retried 5
                (errors_New "operation not permitted") sample.running
                eq_refl eq_refl) as Hretry.
  cbv zeta in Hretry. by destruct Hretry as (_ & _ & _ & Ht & _).
Defined.

Lemma death_before_start_is_lost_witness :
  isRunning (child fixtures.peerDied) = false
  /\ announcesDeath (config_DeathDeps sample.cfgDeath)
       (dl_event sample.deathOfApp) (dl_read sample.deathOfApp)
       (fs fixtures.peerDied) = true
  /\ gracefulShutdowns
       (child (lifetime sample.cfgDeath
                 [StepStart (inl 42);
                  StepWatch true (SelEvent sample.deathOfApp)]
                 ((graveyardHandler sample.cfgDeath sample.deathOfApp
                     fixtures.peerDied).2, true)).1)
     = [].
Proof.
  assert (Hrun : isRunning (child fixtures.peerDied) = false) by done.
  assert (Hyes : announcesDeath (config_DeathDeps sample.cfgDeath)
                   (dl_event sample.deathOfApp) (dl_read sample.deathOfApp)
                   (fs fixtures.peerDied) = true)
    by (vm_compute; reflexivity).
  split; [done |]. split; [done |].
  refine (proj2 (proj2 (death_before_start_is_lost sample.cfgDeath
                          sample.deathOfApp fixtures.peerDied true
                          [StepStart (inl 42);
                           StepWatch true (SelEvent sample.deathOfApp)]
                          Hrun Hyes _))).
  by repeat constructor.
Defined.

Lemma watcher_survives_ignored_events_witness :
  graveyardWatcherStopped fixtures.peerDiedRunning = false
  /\ isRunning (child fixtures.peerDiedRunning) = true
  /\ Forall (ignored sample.cfgDeath (fs fixtures.peerDiedRunning))
       [(false, sample.writeOfDb)]
  /\ gracefulShutdowns
       (child (lifetime sample.cfgDeath
                 (eventTurns [(false, sample.writeOfDb);
                              (false, sample.deathOfApp)])
                 (fixtures.peerDiedRunning, true)).1)
     = [{| origin := Graceful; sig := SIGTERM; delivered := true |}].
Proof.
  assert (Hds : Forall (ignored sample.cfgDeath
                          (fs fixtures.peerDiedRunning))
                  [(false, sample.writeOfDb)]).
  { constructor; [| constructor]. vm_compute. reflexivity. }
  assert (Hyes : announcesDeath (config_DeathDeps sample.cfgDeath)
                   (dl_event sample.deathOfApp) (dl_read sample.deathOfApp)
                   (fs fixtures.peerDiedRunning) = true)
    by (vm_compute; reflexivity).
  split; [done |]. split; [done |]. split; [done |].
  exact (watcher_survives_ignored_events sample.cfgDeath
           [(false, sample.writeOfDb)] false sample.deathOfApp
           fixtures.peerDiedRunning eq_refl eq_refl eq_refl Hds Hyes
           eq_refl).
Defined.

Lemma runApp_touches_own_tombstone_only_witness :
  exists code w,
    runApp sample.cfg sample.env fixtures.diskWithDb = Some (code, w)
    /\ fs w !! "/graveyard/db" = Some "+p001001;--".
Proof.
  destruct (runApp sample.cfg sample.env fixtures.diskWithDb)
    as [[code w] |] eqn:Hrun; [| vm_compute in Hrun; discriminate].
  exists code, w. split; [done |].
  by rewrite (runApp_touches_own_tombstone_only sample.cfg sample.env
                fixtures.diskWithDb code w "/graveyard/db" Hrun).
Defined.

Lemma recorded_death_is_announced_witness :
  LibLaws
  /\ announcesDeath ["app"] fixtures.writeOfApp None
       (RecordBirth 100 sample.okIO fixtures.unborn ∅).2 = false
  /\ announcesDeath ["app"] fixtures.writeOfApp None
       (RecordDeath 3 200 sample.okIO fixtures.unborn ∅).2 = true.
Proof.
  split; [exact sample_laws |].
  assert (Hin : Name fixtures.unborn ∈ ["app"])
    by (apply elem_of_cons; by left).
  assert (Hdir : filepath_Dir (ev_Name fixtures.writeOfApp)
                 = Graveyard fixtures.unborn) by (vm_compute; reflexivity).
  assert (Hbase : filepath_Base (ev_Name fixtures.writeOfApp)
                  = Name fixtures.unborn) by (vm_compute; reflexivity).
  destruct (recorded_death_is_announced ["app"] fixtures.unborn sample.okIO
              ∅ fixtures.writeOfApp eq_refl eq_refl Hdir Hbase
              (or_intror eq_refl) Hin) as [Hbirth Hdeath].
  split.
  - refine (proj2 (Hbirth 100 _ eq_refl eq_refl _)). vm_compute. lia.
  - refine (proj2 (Hdeath 3 200 _ eq_refl _)). vm_compute. lia.
Defined.

Lemma supervised_run_leaves_full_record_witness :
  LibLaws
  /\ exists w t,
       runApp sample.cfg sample.env ∅ = Some (3, w)
       /\ Read None "/graveyard" "app" (fs w) = inl t
       /\ Born t = Some 100 /\ Died t = Some 200 /\ ExitCode t = Some 3.
Proof.
  split; [exact sample_laws |].
  apply (supervised_run_leaves_full_record sample.cfg sample.env ∅ 42);
    try done.
  - intros t _ _. by eexists.
  - intros t Hb Hd Hc. eexists. split; [reflexivity |].
    simpl. unfold sample.marshal. rewrite Hb, Hd, Hc. vm_compute. lia.
  - left. simpl. lia.
Defined.

Lemma waitForBirthDeps_times_out_witness :
  Forall (keepsWaiting ["proxy"]) [PodEvent fixtures.proxyStarting]
  /\ (waitForBirthDeps ["proxy"] "pod" 30 None
        [PodEvent fixtures.proxyStarting] []).1
     = Some (errors_WithStack
               (errors_New ("timed out waiting for birth deps to be ready: "
                            +:+ pretty 30))).
Proof.
  assert (Hwait : Forall (keepsWaiting ["proxy"])
                    [PodEvent fixtures.proxyStarting]).
  { constructor; [| constructor]. right. intros (_ & statuses & Hobj & Hall).
    injection Hobj as <-.
    destruct (Hall "proxy") as (st & Hin & Hn & Hr);
      [apply elem_of_cons; by left |].
    apply elem_of_cons in Hin as [-> | Hin]; [done |].
    apply elem_of_cons in Hin as [-> | Hin]; [done |].
    by apply elem_of_nil in Hin. }
  split; [done |].
  exact (waitForBirthDeps_times_out ["proxy"] "pod" 30
           [PodEvent fixtures.proxyStarting] [] (or_introl Hwait)).
Defined.

Lemma waitForBirthDeps_ready_witness :
  podReady ["proxy"] fixtures.proxyReady
  /\ exists tr',
       waitForBirthDeps ["proxy"] "pod" 30 None
         [PodEvent fixtures.proxyStarting; PodEvent fixtures.proxyReady] []
       = (None, tr' ++ [MsgAllBirthDepsReady ["proxy"]]).
Proof.
  assert (Hready : podReady ["proxy"] fixtures.proxyReady).
  { split; [done |]. eexists. split; [reflexivity |]. intros name Hin.
    apply list_elem_of_singleton in Hin as ->.
    eexists. split; [apply elem_of_cons; by left | done]. }
  split; [done |].
  apply (waitForBirthDeps_ready ["proxy"] "pod" 30
           [PodEvent fixtures.proxyStarting] [] fixtures.proxyReady []);
    [| done | done].
  constructor; [| constructor]. simpl. discriminate.
Defined.

Lemma birth_timeout_never_starts_witness :
  Forall (keepsWaiting (config_BirthDeps sample.cfgBirth))
    (birthEvents fixtures.envNeverReady)
  /\ exists w t,
       runApp sample.cfgBirth fixtures.envNeverReady ∅ = Some (1, w)
       /\ (CallStart ∉ calls w)
       /\ last (calls w) = Some (CallRecordDeath (-1) t)
       /\ Born t = None.
Proof.
  assert (Hwait : Forall (keepsWaiting (config_BirthDeps sample.cfgBirth))
                    (birthEvents fixtures.envNeverReady)).
  { constructor; [| constructor]. right. intros (_ & statuses & Hobj & Hall).
    injection Hobj as <-.
    destruct (Hall "proxy") as (st & Hin & Hn & Hr);
      [apply elem_of_cons; by left |].
    apply elem_of_cons in Hin as [-> | Hin]; [done |].
    apply elem_of_cons in Hin as [-> | Hin]; [done |].
    by apply elem_of_nil in Hin. }
  split; [done |].
  destruct (birth_timeout_never_starts sample.cfgBirth
              fixtures.envNeverReady ∅) as (w & t & Hrun & Hno & _ & Hl & Hb & _);
    [done | simpl; lia | done | done | done |].
  by exists w, t.
Defined.

Lemma parseConfig_valid_witness :
  exists cfg,
    parseConfig fixtures.environ = inl cfg
    /\ config_Name cfg <> ""
    /\ config_BirthDeps cfg = ["proxy"]
    /\ config_PodName cfg <> "" /\ config_Namespace cfg <> "".
Proof.
  destruct (parseConfig fixtures.environ) as [cfg | err] eqn:Hp;
    [| vm_compute in Hp; discriminate].
  destruct (parseConfig_valid fixtures.environ cfg Hp) as [Hname Hpod].
  assert (Hdeps : config_BirthDeps cfg = ["proxy"])
    by (vm_compute in Hp; by injection Hp as <-).
  exists cfg. split; [done |]. split; [done |]. split; [done |].
  apply Hpod. by rewrite Hdeps.
Defined.

Lemma parseConfig_deps_witness :
  exists cfg,
    parseConfig fixtures.environ = inl cfg
    /\ config_DeathDeps cfg = ["db"; "cache"]
    /\ gostrings.Join (config_DeathDeps cfg) ","
       = os_Getenv fixtures.environ "KUBEXIT_DEATH_DEPS".
Proof.
  destruct (parseConfig fixtures.environ) as [cfg | err] eqn:Hp;
    [| vm_compute in Hp; discriminate].
  destruct (parseConfig_deps fixtures.environ cfg Hp)
    as (_ & _ & _ & Hjoin & _).
  exists cfg. split; [done |]. split; [| done].
  vm_compute in Hp. by injection Hp as <-.
Defined.

Lemma parseConfig_defaults_witness :
  os_Getenv fixtures.environName "KUBEXIT_NAME" <> ""
  /\ exists cfg,
       parseConfig fixtures.environName = inl cfg
       /\ config_Graveyard cfg = "/graveyard"
       /\ config_GracePeriod cfg = 30 * time_Second.
Proof.
  assert (Hname : os_Getenv fixtures.environName "KUBEXIT_NAME" <> "")
    by done.
  split; [done |]. eexists. split.
  - apply (parseConfig_defaults fixtures.environName Hname).
    intros key Hkey. unfold os_Getenv, fixtures.environName.
    by rewrite lookup_singleton_ne.
  - done.
Defined.

End MoreRuns.
